(** * Interaction handler manager of the map view (handler_manager.js)

    A shallow embedding of [HandlerManager]: the value types handlers
    return, the arbitration between handlers, the merge of handler results
    within one dispatch, the accumulation of queued changes at a frame
    flush, the anchor-preserving transform update, the lifecycle
    notifications and the coalescing of frame requests.

    Conventions of the embedding.
    - A JavaScript number is taken as an exact integer ([Z]), truthy iff it
      is not zero.  The numbers of the program are binary64: what depends on
      their rounding, the values of the sums of a flush, is given a second
      time over any arithmetic, binary64 included ([Flush]).
    - An optional field of an object is an [option]; [None] is
      [undefined] (a missing key and a key bound to [undefined] are not
      told apart).  A field that may also hold [null] has its own type.
    - Objects keyed by handler name are finite maps or sets of strings; the
      events-in-progress object, whose key order decides the order of the
      notifications, is an insertion-ordered association list.
    - Calls into the map (fire, easeTo, resetNorth, _stop, _update,
      _requestRenderFrame) are recorded in a log carried by the state; the
      map never calls back into the manager while such a call runs.
    - A handler is a state machine of its own: a call changes the state of
      the handler and returns a result, and nothing else.  A method of a
      handler that throws is outside the model.
    - A function that can throw returns an [option]; [None] is the throw.
      The one throw of the manager that is modelled is the call of
      [isActive] on an owner that [_handlersById] does not have; every event
      has a time stamp, so the assertion on it never fails. *)

From stdpp Require Import gmap strings list.
From Stdlib Require Import ZArith Lia Floats.

Local Open Scope Z_scope.

(** ** Points (the part of point-geometry the manager uses) *)

Module Point.

Record t := mk { x : Z; y : Z }.

Definition zero : t := mk 0 0.

(** [p._add(q)] and [p.sub(q)], as values. *)
Definition add (p q : t) : t := mk (x p + x q) (y p + y q).
Definition sub (p q : t) : t := mk (x p - x q) (y p - y q).

(** [p.mag()]: the length of the vector, here rounded down; it is zero
    exactly for the zero vector, which is all [hasChange] looks at. *)
Definition mag (p : t) : Z := Z.sqrt (x p * x p + y p * y p).

Definition scale (n : Z) (p : t) : t := mk (n * x p) (n * y p).

Fixpoint sum (ps : list t) : t :=
  match ps with
  | [] => zero
  | p :: rest => add p (sum rest)
  end.

End Point.

(** ** Events *)

(** A DOM event or the synthetic render-frame event: its [type], its time
    stamp, whether it carries [targetTouches], and an opaque payload. *)
Record Event := mkEvent {
  ev_type : string;
  timeStamp : Z;
  targetTouches : bool;
  ev_payload : nat
}.

Definition RenderFrameEvent (ts : Z) : Event :=
  mkEvent "renderFrame" ts false 0.

(** ** HandlerResult *)

(** [around?: Point | null]: undefined, null or a point. *)
Inductive Around := Undefined | Null | At (p : Point.t).

(** A camera animation callback is opaque: only its identity is kept.  What
    the callback does to the map when it is run is its own and is not
    modelled: the map records that it was run. *)
Definition CameraAnimation := nat.

Record HandlerResult := mkResult {
  panDelta : option Point.t;
  zoomDelta : option Z;
  bearingDelta : option Z;
  pitchDelta : option Z;
  around : Around;
  pinchAround : Around;
  cameraAnimation : option CameraAnimation;
  originalEvent : option Event;
  needsRenderFrame : option bool;
  noInertia : option bool
}.

(** The object literal [{}]. *)
Definition emptyResult : HandlerResult :=
  mkResult None None None None Undefined Undefined None None None None.

(** JavaScript truthiness of the values that occur. *)
Definition truthyNum (v : option Z) : bool :=
  match v with Some n => negb (n =? 0) | None => false end.

Definition truthyBool (v : option bool) : bool :=
  match v with Some b => b | None => false end.

(** [v || 0] and [p || new Point(0, 0)]. *)
Definition numOr0 (v : option Z) : Z :=
  match v with Some n => n | None => 0 end.

Definition pointOr0 (v : option Point.t) : Point.t :=
  match v with Some p => p | None => Point.zero end.

(** [hasChange(result)]. *)
Definition hasChange (result : HandlerResult) : bool :=
  match panDelta result with
  | Some p => negb (Point.mag p =? 0)
  | None => false
  end
  || truthyNum (zoomDelta result)
  || truthyNum (bearingDelta result)
  || truthyNum (pitchDelta result).

(** ** Gesture categories and the events-in-progress object *)

Inductive Category := zoom | drag | pitch | rotate.

Global Instance Category_eq_dec : EqDecision Category.
Proof. solve_decision. Defined.

(** The key of a category, as it appears in notification names. *)
Definition categoryName (c : Category) : string :=
  match c with
  | zoom => "zoom"
  | drag => "drag"
  | pitch => "pitch"
  | rotate => "rotate"
  end.

(** [{handlerName, originalEvent}]. *)
Record EventData := mkEventData {
  handlerName : string;
  ed_originalEvent : option Event
}.

(** An object with category keys, in insertion order. *)
Definition EventsInProgress := list (Category * EventData).

Module Eip.

Fixpoint get (c : Category) (m : EventsInProgress) : option EventData :=
  match m with
  | [] => None
  | (k, v) :: rest => if decide (k = c) then Some v else get c rest
  end.

(** [m[c] = v]: an existing key keeps its place, a new key goes last. *)
Fixpoint set (c : Category) (v : EventData) (m : EventsInProgress)
  : EventsInProgress :=
  match m with
  | [] => [(c, v)]
  | (k, w) :: rest =>
      if decide (k = c) then (k, v) :: rest else (k, w) :: set c v rest
  end.

(** [delete m[c]]. *)
Fixpoint delete (c : Category) (m : EventsInProgress) : EventsInProgress :=
  match m with
  | [] => []
  | (k, w) :: rest =>
      if decide (k = c) then delete c rest else (k, w) :: delete c rest
  end.

(** [extend(dest, src)] on such objects. *)
Definition extend (dest src : EventsInProgress) : EventsInProgress :=
  fold_left (fun acc kv => set (fst kv) (snd kv) acc) src dest.

End Eip.

Definition isSome {A} (o : option A) : bool :=
  match o with Some _ => true | None => false end.

(** [isMoving(p)]: the first of [p.zoom], [p.drag], [p.pitch], [p.rotate]
    that is set, or undefined. *)
Definition orElse {A} (a b : option A) : option A :=
  match a with Some _ => a | None => b end.

Definition isMoving (p : EventsInProgress) : option EventData :=
  orElse (Eip.get zoom p)
    (orElse (Eip.get drag p) (orElse (Eip.get pitch p) (Eip.get rotate p))).

(** ** Arbitration between handlers *)

(** [allowed.indexOf(name)]. *)
Fixpoint indexOfFrom (i : Z) (l : list string) (name : string) : Z :=
  match l with
  | [] => -1
  | s :: rest => if String.eqb s name then i else indexOfFrom (i + 1) rest name
  end.

Definition indexOf (l : list string) (name : string) : Z := indexOfFrom 0 l name.

(** The body of the [for (const name in activeHandlers)] loop of
    [_blockedByActive], over the keys still to visit. *)
Fixpoint blockedLoop (names : list string) (allowed : option (list string))
  (myName : string) : bool :=
  match names with
  | [] => false
  | name :: rest =>
      if String.eqb name myName then blockedLoop rest allowed myName
      else
        if match allowed with
           | None => true
           | Some l => indexOf l name <? 0
           end
        then true
        else blockedLoop rest allowed myName
  end.

(** [_blockedByActive(activeHandlers, allowed, myName)].  Only the keys of
    [activeHandlers] are ever read, so the object is the set of its keys. *)
Definition _blockedByActive (activeHandlers : gset string)
  (allowed : option (list string)) (myName : string) : bool :=
  blockedLoop (elements activeHandlers) allowed myName.

(** ** Merging handler results within one dispatch *)

(** Modelled from the spec: [extend(dest, src)] of util/util.js, which is
    not among the sources: it shallow-overwrites the fields of [dest] with
    the fields of [src]; the fields of [dest] that [src] lacks are kept. *)
Definition overwrite {A} (dest src : option A) : option A :=
  match src with Some _ => src | None => dest end.

Definition overwriteAround (dest src : Around) : Around :=
  match src with Undefined => dest | _ => src end.

Definition extend (dest src : HandlerResult) : HandlerResult :=
  {| panDelta := overwrite (panDelta dest) (panDelta src);
     zoomDelta := overwrite (zoomDelta dest) (zoomDelta src);
     bearingDelta := overwrite (bearingDelta dest) (bearingDelta src);
     pitchDelta := overwrite (pitchDelta dest) (pitchDelta src);
     around := overwriteAround (around dest) (around src);
     pinchAround := overwriteAround (pinchAround dest) (pinchAround src);
     cameraAnimation := overwrite (cameraAnimation dest) (cameraAnimation src);
     originalEvent := overwrite (originalEvent dest) (originalEvent src);
     needsRenderFrame := overwrite (needsRenderFrame dest) (needsRenderFrame src);
     noInertia := overwrite (noInertia dest) (noInertia src) |}.

(** [mergeHandlerResult(mergedHandlerResult, eventsInProgress, handlerResult,
    name, e)].  The two objects it mutates are returned. *)
Definition mergeHandlerResult (mergedHandlerResult : HandlerResult)
  (eventsInProgress : EventsInProgress) (handlerResult : option HandlerResult)
  (name : string) (e : option Event) : HandlerResult * EventsInProgress :=
  match handlerResult with
  | None => (mergedHandlerResult, eventsInProgress)
  | Some handlerResult =>
      let mergedHandlerResult := extend mergedHandlerResult handlerResult in
      let eventData :=
        mkEventData name (orElse (originalEvent handlerResult) e) in
      let eventsInProgress :=
        if bool_decide (zoomDelta handlerResult <> None)
        then Eip.set zoom eventData eventsInProgress else eventsInProgress in
      let eventsInProgress :=
        if bool_decide (panDelta handlerResult <> None)
        then Eip.set drag eventData eventsInProgress else eventsInProgress in
      let eventsInProgress :=
        if bool_decide (pitchDelta handlerResult <> None)
        then Eip.set pitch eventData eventsInProgress else eventsInProgress in
      let eventsInProgress :=
        if bool_decide (bearingDelta handlerResult <> None)
        then Eip.set rotate eventData eventsInProgress else eventsInProgress in
      (mergedHandlerResult, eventsInProgress)
  end.

(** The delta field of a result that stands for a category. *)
Definition deltaPresent (c : Category) (r : HandlerResult) : bool :=
  match c with
  | zoom => bool_decide (zoomDelta r <> None)
  | drag => bool_decide (panDelta r <> None)
  | pitch => bool_decide (pitchDelta r <> None)
  | rotate => bool_decide (bearingDelta r <> None)
  end.

(** ** Accumulating the queued changes at a flush *)

(** An entry of [_changes]: the merged result of a dispatch, its
    events-in-progress and the handlers it deactivated (each with the input
    event of the dispatch, which is undefined for a render-frame tick). *)
Definition PendingChange : Type :=
  HandlerResult * EventsInProgress * gmap string (option Event).

Definition set_panDelta (v : option Point.t) (r : HandlerResult) : HandlerResult :=
  mkResult v (zoomDelta r) (bearingDelta r) (pitchDelta r) (around r)
    (pinchAround r) (cameraAnimation r) (originalEvent r)
    (needsRenderFrame r) (noInertia r).

Definition set_zoomDelta (v : option Z) (r : HandlerResult) : HandlerResult :=
  mkResult (panDelta r) v (bearingDelta r) (pitchDelta r) (around r)
    (pinchAround r) (cameraAnimation r) (originalEvent r)
    (needsRenderFrame r) (noInertia r).

Definition set_bearingDelta (v : option Z) (r : HandlerResult) : HandlerResult :=
  mkResult (panDelta r) (zoomDelta r) v (pitchDelta r) (around r)
    (pinchAround r) (cameraAnimation r) (originalEvent r)
    (needsRenderFrame r) (noInertia r).

Definition set_pitchDelta (v : option Z) (r : HandlerResult) : HandlerResult :=
  mkResult (panDelta r) (zoomDelta r) (bearingDelta r) v (around r)
    (pinchAround r) (cameraAnimation r) (originalEvent r)
    (needsRenderFrame r) (noInertia r).

Definition set_around (v : Around) (r : HandlerResult) : HandlerResult :=
  mkResult (panDelta r) (zoomDelta r) (bearingDelta r) (pitchDelta r) v
    (pinchAround r) (cameraAnimation r) (originalEvent r)
    (needsRenderFrame r) (noInertia r).

Definition set_pinchAround (v : Around) (r : HandlerResult) : HandlerResult :=
  mkResult (panDelta r) (zoomDelta r) (bearingDelta r) (pitchDelta r)
    (around r) v (cameraAnimation r) (originalEvent r)
    (needsRenderFrame r) (noInertia r).

Definition set_noInertia (v : option bool) (r : HandlerResult) : HandlerResult :=
  mkResult (panDelta r) (zoomDelta r) (bearingDelta r) (pitchDelta r)
    (around r) (pinchAround r) (cameraAnimation r) (originalEvent r)
    (needsRenderFrame r) v.

(** The seven assignments to [combined] in the loop of [_applyChanges],
    numbers being integers; [Flush.combineChange] is the same turn over any
    numbers. *)
Definition combineChange (combined change : HandlerResult) : HandlerResult :=
  let combined :=
    match panDelta change with
    | Some d =>
        set_panDelta (Some (Point.add (pointOr0 (panDelta combined)) d)) combined
    | None => combined
    end in
  let combined :=
    if truthyNum (zoomDelta change)
    then set_zoomDelta
           (Some (numOr0 (zoomDelta combined) + numOr0 (zoomDelta change))) combined
    else combined in
  let combined :=
    if truthyNum (bearingDelta change)
    then set_bearingDelta
           (Some (numOr0 (bearingDelta combined) + numOr0 (bearingDelta change)))
           combined
    else combined in
  let combined :=
    if truthyNum (pitchDelta change)
    then set_pitchDelta
           (Some (numOr0 (pitchDelta combined) + numOr0 (pitchDelta change))) combined
    else combined in
  let combined :=
    match around change with
    | Undefined => combined
    | v => set_around v combined
    end in
  let combined :=
    match pinchAround change with
    | Undefined => combined
    | v => set_pinchAround v combined
    end in
  if truthyBool (noInertia change)
  then set_noInertia (noInertia change) combined
  else combined.

(** One turn of the loop of [_applyChanges], on the three accumulators. *)
Definition applyChange (acc change : PendingChange) : PendingChange :=
  let '(combined, combinedEventsInProgress, combinedDeactivatedHandlers) := acc in
  let '(change, eventsInProgress, deactivatedHandlers) := change in
  (combineChange combined change,
   Eip.extend combinedEventsInProgress eventsInProgress,
   deactivatedHandlers ∪ combinedDeactivatedHandlers).

(** What [_applyChanges] hands to [_updateMapTransform]. *)
Definition combineChanges (changes : list PendingChange) : PendingChange :=
  fold_left applyChange changes (emptyResult, [], ∅).

(** The last value of a sequence of anchors that is not undefined. *)
Fixpoint lastDefined (l : list Around) : Around :=
  match l with
  | [] => Undefined
  | a :: rest =>
      match lastDefined rest with
      | Undefined => a
      | v => v
      end
  end.

(** The results queued by the dispatches, and the combined result of a
    flush. *)
Definition queuedResults (changes : list PendingChange) : list HandlerResult :=
  map (fun change => change.1.1) changes.

Definition combinedResult (changes : list PendingChange) : HandlerResult :=
  (combineChanges changes).1.1.

Definition sumNum (l : list Z) : Z := fold_right Z.add 0 l.

(** The delta of a category read as a number: an absent scalar reads as 0
    and an absent pan delta as the zero vector (a scalar is put in the
    first coordinate). *)
Definition deltaOr0 (c : Category) (r : HandlerResult) : Point.t :=
  match c with
  | zoom => Point.mk (numOr0 (zoomDelta r)) 0
  | drag => pointOr0 (panDelta r)
  | pitch => Point.mk (numOr0 (pitchDelta r)) 0
  | rotate => Point.mk (numOr0 (bearingDelta r)) 0
  end.

(** A result with the delta of a category left out, and with that delta
    set to an explicit zero. *)
Definition withoutDelta (c : Category) (r : HandlerResult) : HandlerResult :=
  match c with
  | zoom => set_zoomDelta None r
  | drag => set_panDelta None r
  | pitch => set_pitchDelta None r
  | rotate => set_bearingDelta None r
  end.

Definition withZeroDelta (c : Category) (r : HandlerResult) : HandlerResult :=
  match c with
  | zoom => set_zoomDelta (Some 0) r
  | drag => set_panDelta (Some Point.zero) r
  | pitch => set_pitchDelta (Some 0) r
  | rotate => set_bearingDelta (Some 0) r
  end.

(** The results of the handlers of one dispatch, merged in order. *)
Definition mergeAll (results : list (string * HandlerResult)) (e : option Event)
  (acc : HandlerResult * EventsInProgress) : HandlerResult * EventsInProgress :=
  fold_left
    (fun acc named => mergeHandlerResult acc.1 acc.2 (Some named.2) named.1 e)
    results acc.

(** The last value of a sequence of optional values that is set. *)
Fixpoint lastSet {A} (l : list (option A)) : option A :=
  match l with
  | [] => None
  | a :: rest => orElse (lastSet rest) a
  end.

(** ** Collaborators *)

(** The pointer coordinates handed to a handler: [DOM.touchPos] for an event
    with [targetTouches], [DOM.mousePos] otherwise. *)
Inductive Points := TouchPoints (ps : list Point.t) | MousePoint (p : Point.t).

Class Dom := {
  touchPos : Event -> list Point.t;
  mousePos : Event -> Point.t
}.

(** The [Handler] interface.  [callMethod name e points h] is
    [h[name](e, points)]: [None] when the handler has no method of that
    name, otherwise the handler after the call and what the call returned. *)
Class HandlerOps (Handler : Type) := {
  isEnabled : Handler -> bool;
  isActive : Handler -> bool;
  reset : Handler -> Handler;
  callMethod :
    string -> Event -> Points -> Handler -> option (Handler * option HandlerResult)
}.

(** The camera transform: the scalar state the manager adds to and the two
    primitives that project a screen point to a location and solve the
    position that puts a location under a screen point. *)
Class TransformOps (Transform LngLat : Type) := {
  centerPoint : Transform -> Point.t;
  pointLocation : Transform -> Point.t -> LngLat;
  setLocationAtPoint : LngLat -> Point.t -> Transform -> Transform;
  getBearing : Transform -> Z;
  setBearing : Z -> Transform -> Transform;
  getPitch : Transform -> Z;
  setPitch : Z -> Transform -> Transform;
  getZoom : Transform -> Z;
  setZoom : Z -> Transform -> Transform
}.

(** The target of an inertial ease: its bearing, and the rest, opaque. *)
Record EaseOptions := mkEase {
  ease_bearing : option Z;
  ease_rest : nat
}.

Definition set_ease_bearing (b : option Z) (e : EaseOptions) : EaseOptions :=
  mkEase b (ease_rest e).

(** A sample of the inertia buffer: the time it was recorded at and the
    combined result. *)
Definition Sample : Type := Z * HandlerResult.

(** Modelled from the spec: [HandlerInertia] (handler_inertia.js is not among
    the sources), the tracker of the recent combined results.  Its state is
    the list of the samples it holds.  The spec has it keep a bounded number
    of recent samples, discard at the end of a gesture those older than a
    recency window and derive an ease target from the rest, or none, and has
    it cleared when a new gesture starts, for which the manager makes no
    call.  How many samples it keeps, which ones it discards and what it
    derives stay with the tracker: [record] and [_onMoveEnd] are its
    interface, with the one law that a tracker without samples is without
    samples after the end of a gesture; [clear] empties it. *)
Class InertiaTracker := {
  recordSample : Z -> HandlerResult -> list Sample -> list Sample;
  moveEnd : nat -> Z -> list Sample -> option EaseOptions * list Sample;
  moveEnd_nil :
    forall (panInertiaOptions : nat) (time : Z),
      (moveEnd panInertiaOptions time []).2 = []
}.

Module Inertia.

Definition clear (buffer : list Sample) : list Sample := [].

(** [record(settings)], at the time of the map. *)
Definition record `{InertiaTracker} (time : Z) (settings : HandlerResult)
  (buffer : list Sample) : list Sample :=
  recordSample time settings buffer.

(** [_onMoveEnd(panInertiaOptions)]: the ease target, if any, and the
    samples the tracker is left with. *)
Definition _onMoveEnd `{InertiaTracker} (panInertiaOptions : nat) (time : Z)
  (buffer : list Sample) : option EaseOptions * list Sample :=
  moveEnd panInertiaOptions time buffer.

End Inertia.

(** A call of the manager into the map. *)
Inductive MapCall :=
| Fire (type : string) (originalEvent : option Event)
| EaseTo (options : EaseOptions) (originalEvent : option Event)
| ResetNorth
| Stop
| Update
| RequestRenderFrame (id : nat)
| RunCameraAnimation (c : CameraAnimation).

(** The calls the manager makes outside [_fireEvents]. *)
Inductive OtherCall :=
| DidStop
| DidUpdate
| DidRequestRenderFrame (id : nat)
| DidRunCameraAnimation (c : CameraAnimation).

Definition otherCall (o : OtherCall) : MapCall :=
  match o with
  | DidStop => Stop
  | DidUpdate => Update
  | DidRequestRenderFrame id => RequestRenderFrame id
  | DidRunCameraAnimation c => RunCameraAnimation c
  end.

Definition isFire (type : string) (c : MapCall) : bool :=
  match c with
  | Fire t _ => String.eqb t type
  | _ => false
  end.

Definition isEaseTo (c : MapCall) : bool :=
  match c with
  | EaseTo _ _ => true
  | _ => false
  end.

Definition isResetNorth (c : MapCall) : bool :=
  match c with
  | ResetNorth => true
  | _ => false
  end.

Definition isRequestRenderFrame (c : MapCall) : bool :=
  match c with
  | RequestRenderFrame _ => true
  | _ => false
  end.

Definition isRunCameraAnimation (c : MapCall) : bool :=
  match c with
  | RunCameraAnimation _ => true
  | _ => false
  end.

Fixpoint countCalls (p : MapCall -> bool) (l : list MapCall) : nat :=
  match l with
  | [] => 0
  | c :: rest => (if p c then 1 else 0) + countCalls p rest
  end.

(** The number of gesture categories an events-in-progress object holds. *)
Definition activeCategories (m : EventsInProgress) : nat :=
  length (List.filter (fun c => isSome (Eip.get c m)) [zoom; drag; pitch; rotate]).

(** In a history of such numbers that starts at [a] and goes on with [l],
    the steps from zero to one or more and the steps from one or more to
    zero. *)
Fixpoint risingsFrom (a : nat) (l : list nat) : nat :=
  match l with
  | [] => 0
  | b :: rest =>
      (if (a =? 0)%nat && negb (b =? 0)%nat then 1 else 0)%nat + risingsFrom b rest
  end.

Fixpoint fallingsFrom (a : nat) (l : list nat) : nat :=
  match l with
  | [] => 0
  | b :: rest =>
      (if negb (a =? 0)%nat && (b =? 0)%nat then 1 else 0)%nat + fallingsFrom b rest
  end.

Definition risings (l : list nat) : nat :=
  match l with
  | [] => 0
  | a :: rest => risingsFrom a rest
  end.

Definition fallings (l : list nat) : nat :=
  match l with
  | [] => 0
  | a :: rest => fallingsFrom a rest
  end.

Global Instance Event_eq_dec : EqDecision Event.
Proof. solve_decision. Defined.

(** ** The manager *)

Section Manager.

Context {Handler Transform LngLat : Type}.
Context `{!Dom} `{!HandlerOps Handler} `{!TransformOps Transform LngLat}.
Context `{!InertiaTracker}.

(** The map, as far as the manager sees it: the transform, the calls
    received so far (oldest first), the frame requests not yet served, the
    next request id, the clock and the inertia options of drag-pan. *)
Record Map := mkMap {
  transform : Transform;
  calls : list MapCall;
  frames : list nat;
  nextFrame : nat;
  now : Z;
  inertiaOptions : nat
}.

Definition call (c : MapCall) (m : Map) : Map :=
  mkMap (transform m) (calls m ++ [c]) (frames m) (nextFrame m) (now m)
    (inertiaOptions m).

Definition set_transform (tr : Transform) (m : Map) : Map :=
  mkMap tr (calls m) (frames m) (nextFrame m) (now m) (inertiaOptions m).

(** Modelled from the spec: [map._requestRenderFrame(callback)], the
    request-next-frame entry of the host (map.js is not among the sources).
    It queues the callback for the next frame and returns the id of the
    request. *)
Definition _requestRenderFrame (m : Map) : nat * Map :=
  let id := nextFrame m in
  (id,
   mkMap (transform m) (calls m ++ [RequestRenderFrame id]) (frames m ++ [id])
     (S id) (now m) (inertiaOptions m)).

(** The host takes a request off its queue when it serves it. *)
Definition serveFrame (id : nat) (m : Map) : Map :=
  mkMap (transform m) (calls m) (filter (fun i => i <> id) (frames m))
    (nextFrame m) (now m) (inertiaOptions m).

(** An entry of [_handlers]. *)
Record HandlerEntry := mkEntry {
  entryName : string;
  handler : Handler;
  allowed : option (list string)
}.

Record HandlerManager := mkManager {
  _map : Map;
  _handlers : list HandlerEntry;
  _eventsInProgress : EventsInProgress;
  _frameId : option nat;
  _inertia : list Sample;
  _bearingSnap : Z;
  _updatingCamera : bool;
  _changes : list PendingChange;
  _previousActiveHandlers : gset string;
  _bearingChanged : bool
}.

Definition set_map v st :=
  mkManager v (_handlers st) (_eventsInProgress st) (_frameId st) (_inertia st)
    (_bearingSnap st) (_updatingCamera st) (_changes st)
    (_previousActiveHandlers st) (_bearingChanged st).
Definition set_handlers v st :=
  mkManager (_map st) v (_eventsInProgress st) (_frameId st) (_inertia st)
    (_bearingSnap st) (_updatingCamera st) (_changes st)
    (_previousActiveHandlers st) (_bearingChanged st).
Definition set_eventsInProgress v st :=
  mkManager (_map st) (_handlers st) v (_frameId st) (_inertia st)
    (_bearingSnap st) (_updatingCamera st) (_changes st)
    (_previousActiveHandlers st) (_bearingChanged st).
Definition set_frameId v st :=
  mkManager (_map st) (_handlers st) (_eventsInProgress st) v (_inertia st)
    (_bearingSnap st) (_updatingCamera st) (_changes st)
    (_previousActiveHandlers st) (_bearingChanged st).
Definition set_inertia v st :=
  mkManager (_map st) (_handlers st) (_eventsInProgress st) (_frameId st) v
    (_bearingSnap st) (_updatingCamera st) (_changes st)
    (_previousActiveHandlers st) (_bearingChanged st).
Definition set_updatingCamera v st :=
  mkManager (_map st) (_handlers st) (_eventsInProgress st) (_frameId st)
    (_inertia st) (_bearingSnap st) v (_changes st)
    (_previousActiveHandlers st) (_bearingChanged st).
Definition set_changes v st :=
  mkManager (_map st) (_handlers st) (_eventsInProgress st) (_frameId st)
    (_inertia st) (_bearingSnap st) (_updatingCamera st) v
    (_previousActiveHandlers st) (_bearingChanged st).
Definition set_previousActiveHandlers v st :=
  mkManager (_map st) (_handlers st) (_eventsInProgress st) (_frameId st)
    (_inertia st) (_bearingSnap st) (_updatingCamera st) (_changes st)
    v (_bearingChanged st).
Definition set_bearingChanged v st :=
  mkManager (_map st) (_handlers st) (_eventsInProgress st) (_frameId st)
    (_inertia st) (_bearingSnap st) (_updatingCamera st) (_changes st)
    (_previousActiveHandlers st) v.

(** [this._map.<call>(...)], for the calls that are only recorded. *)
Definition callMap (c : MapCall) (st : HandlerManager) : HandlerManager :=
  set_map (call c (_map st)) st.

(** [this._handlersById[name]]: [_add] binds the name to the handler it
    pushes, so the object answers with the last entry of that name. *)
Fixpoint _handlersById (handlers : list HandlerEntry) (name : string)
  : option Handler :=
  match handlers with
  | [] => None
  | entry :: rest =>
      match _handlersById rest name with
      | Some h => Some h
      | None => if String.eqb (entryName entry) name then Some (handler entry) else None
      end
  end.

(** [_add(handlerName, handler, allowed)]. *)
Definition _add (name : string) (h : Handler) (allow : option (list string))
  (st : HandlerManager) : HandlerManager :=
  set_handlers (_handlers st ++ [mkEntry name h allow]) st.

(** The fields the constructor sets before it adds the handlers; [_frameId]
    starts undefined and the queue of changes empty. *)
Definition newManager (map : Map) (bearingSnap : Z) : HandlerManager :=
  mkManager map [] [] None [] bearingSnap false [] ∅ false.

(** A loop whose body may throw. *)
Fixpoint foldThrow {A B} (body : A -> B -> option A) (l : list B) (a : A)
  : option A :=
  match l with
  | [] => Some a
  | b :: rest =>
      match body a b with
      | Some a' => foldThrow body rest a'
      | None => None
      end
  end.


(** *** Lifecycle notifications *)

(** [_fireEvent(type, e)]. *)
Definition _fireEvent (type : string) (e : option Event) (st : HandlerManager)
  : HandlerManager :=
  callMap (Fire type e) st.

(** The first [for (const eventName in newEventsInProgress)] loop. *)
Definition startStep (st : HandlerManager) (entry : Category * EventData)
  : HandlerManager :=
  let '(eventName, data) := entry in
  let isStart := negb (isSome (Eip.get eventName (_eventsInProgress st))) in
  let st := set_eventsInProgress (Eip.set eventName data (_eventsInProgress st)) st in
  if isStart
  then _fireEvent (categoryName eventName +:+ "start") (ed_originalEvent data) st
  else st.

(** The second one. *)
Definition changeStep (st : HandlerManager) (entry : Category * EventData)
  : HandlerManager :=
  _fireEvent (categoryName (fst entry)) (ed_originalEvent (snd entry)) st.

(** [deactivatedHandlers[handlerName] || originalEvent]. *)
Definition endEventOf (deactivatedHandlers : gmap string (option Event))
  (data : EventData) : option Event :=
  match deactivatedHandlers !! handlerName data with
  | Some (Some e) => Some e
  | _ => ed_originalEvent data
  end.

(** The [for (const eventName in this._eventsInProgress)] loop, over the
    entries the object has when the loop starts (a turn deletes its own key
    only); the second component is [originalEndEvent].  Looking up a handler
    that is not registered throws. *)
Definition endStep (deactivatedHandlers : gmap string (option Event))
  (acc : HandlerManager * option Event) (entry : Category * EventData)
  : option (HandlerManager * option Event) :=
  let '(st, originalEndEvent) := acc in
  let '(eventName, data) := entry in
  match _handlersById (_handlers st) (handlerName data) with
  | None => None
  | Some h =>
      if negb (isActive h)
      then
        let st :=
          set_eventsInProgress (Eip.delete eventName (_eventsInProgress st)) st in
        let originalEndEvent := endEventOf deactivatedHandlers data in
        Some (_fireEvent (categoryName eventName +:+ "end") originalEndEvent st,
              originalEndEvent)
      else Some (st, originalEndEvent)
  end.

Definition shouldSnapToNorth (bearingSnap bearing : Z) : bool :=
  negb (bearing =? 0) && (- bearingSnap <? bearing) && (bearing <? bearingSnap).

(** [inertialEase.bearing || this._map.getBearing()]. *)
Definition easeBearingOr (inertialEase : EaseOptions) (current : Z) : Z :=
  match ease_bearing inertialEase with
  | Some b => if b =? 0 then current else b
  | None => current
  end.

(** The body of [if ((wasMoving || nowMoving) && !stillMoving)]. *)
Definition gestureEnd (originalEndEvent : option Event) (st : HandlerManager)
  : HandlerManager :=
  let st := set_updatingCamera true st in
  let '(inertialEase, buffer) :=
    Inertia._onMoveEnd (inertiaOptions (_map st)) (now (_map st)) (_inertia st) in
  let st := set_inertia buffer st in
  let bearing := getBearing (transform (_map st)) in
  let st :=
    match inertialEase with
    | Some inertialEase =>
        let inertialEase :=
          if shouldSnapToNorth (_bearingSnap st) (easeBearingOr inertialEase bearing)
          then set_ease_bearing (Some 0) inertialEase
          else inertialEase in
        callMap (EaseTo inertialEase originalEndEvent) st
    | None =>
        let st := callMap (Fire "moveend" originalEndEvent) st in
        if shouldSnapToNorth (_bearingSnap st) bearing
        then callMap ResetNorth st
        else st
    end in
  let st := set_bearingChanged false st in
  set_updatingCamera false st.

(** [if (!wasMoving && nowMoving) this._fireEvent('movestart', ...)]. *)
Definition fireMoveStart (newEventsInProgress : EventsInProgress)
  (st : HandlerManager) : HandlerManager :=
  match isMoving (_eventsInProgress st), isMoving newEventsInProgress with
  | None, Some data => _fireEvent "movestart" (ed_originalEvent data) st
  | _, _ => st
  end.

(** What follows the first loop, up to the end loop. *)
Definition fireChange (newEventsInProgress : EventsInProgress)
  (st : HandlerManager) : HandlerManager :=
  let st :=
    if isSome (Eip.get rotate newEventsInProgress)
    then set_bearingChanged true st else st in
  let st :=
    match isMoving newEventsInProgress with
    | Some data => _fireEvent "move" (ed_originalEvent data) st
    | None => st
    end in
  fold_left changeStep newEventsInProgress st.

(** The part of [_fireEvents] before the end loop. *)
Definition fireStart (newEventsInProgress : EventsInProgress)
  (st : HandlerManager) : HandlerManager :=
  let st := fireMoveStart newEventsInProgress st in
  let st := fold_left startStep newEventsInProgress st in
  fireChange newEventsInProgress st.

(** [_fireEvents(newEventsInProgress, deactivatedHandlers)]. *)
Definition _fireEvents (newEventsInProgress : EventsInProgress)
  (deactivatedHandlers : gmap string (option Event)) (st : HandlerManager)
  : option HandlerManager :=
  let wasMoving := isMoving (_eventsInProgress st) in
  let nowMoving := isMoving newEventsInProgress in
  let st := fireStart newEventsInProgress st in
  match foldThrow (endStep deactivatedHandlers) (_eventsInProgress st) (st, None) with
  | None => None
  | Some (st, originalEndEvent) =>
      let stillMoving := isMoving (_eventsInProgress st) in
      if (isSome wasMoving || isSome nowMoving) && negb (isSome stillMoving)
      then Some (gestureEnd originalEndEvent st)
      else Some st
  end.

(** *** Applying the combined change *)

(** Lines 401 to 415 of [_updateMapTransform]: the anchor, the location
    under it, the three additions and the re-solved position. *)
Definition resolveAround (combinedResult : HandlerResult) : Around :=
  match pinchAround combinedResult with
  | Undefined => around combinedResult
  | v => v
  end.

Definition anchorPoint (combinedResult : HandlerResult) (tr : Transform)
  : Point.t :=
  match resolveAround combinedResult with
  | At p => p
  | _ => centerPoint tr
  end.

Definition updateTransform (combinedResult : HandlerResult) (tr : Transform)
  : Transform :=
  let around := anchorPoint combinedResult tr in
  let loc :=
    pointLocation tr
      match panDelta combinedResult with
      | Some d => Point.sub around d
      | None => around
      end in
  let tr :=
    if truthyNum (bearingDelta combinedResult)
    then setBearing (getBearing tr + numOr0 (bearingDelta combinedResult)) tr
    else tr in
  let tr :=
    if truthyNum (pitchDelta combinedResult)
    then setPitch (getPitch tr + numOr0 (pitchDelta combinedResult)) tr
    else tr in
  let tr :=
    if truthyNum (zoomDelta combinedResult)
    then setZoom (getZoom tr + numOr0 (zoomDelta combinedResult)) tr
    else tr in
  setLocationAtPoint loc around tr.

(** [_updateMapTransform(combinedResult, combinedEventsInProgress,
    deactivatedHandlers)]. *)
Definition _updateMapTransform (combinedResult : HandlerResult)
  (combinedEventsInProgress : EventsInProgress)
  (deactivatedHandlers : gmap string (option Event)) (st : HandlerManager)
  : option HandlerManager :=
  if negb (hasChange combinedResult)
  then _fireEvents combinedEventsInProgress deactivatedHandlers st
  else
    let st := callMap Stop st in
    let st :=
      set_map
        (set_transform (updateTransform combinedResult (transform (_map st)))
           (_map st)) st in
    let st := callMap Update st in
    let st :=
      if negb (truthyBool (noInertia combinedResult))
      then set_inertia
             (Inertia.record (now (_map st)) combinedResult (_inertia st)) st
      else st in
    _fireEvents combinedEventsInProgress deactivatedHandlers st.

(** [_applyChanges()]. *)
Definition _applyChanges (st : HandlerManager) : option HandlerManager :=
  let '(combined, combinedEventsInProgress, combinedDeactivatedHandlers) :=
    combineChanges (_changes st) in
  match _updateMapTransform combined combinedEventsInProgress
          combinedDeactivatedHandlers st with
  | None => None
  | Some st => Some (set_changes [] st)
  end.

(** *** Frame requests *)

(** [_triggerRenderFrame()], up to the callback it registers. *)
Definition _triggerRenderFrame (st : HandlerManager) : HandlerManager :=
  match _frameId st with
  | None =>
      let '(id, map) := _requestRenderFrame (_map st) in
      set_frameId (Some id) (set_map map st)
  | Some _ => st
  end.

(** *** Dispatching one event *)

(** What the loop over [this._handlers] carries: the merged result, the
    events in progress of this dispatch, the handlers active so far, and the
    manager (for the frame requests). *)
Definition DispatchAcc : Type :=
  HandlerResult * EventsInProgress * gset string * HandlerManager.

(** One turn of [for (const {handlerName, handler, allowed} of
    this._handlers)]: the entry with the handler as the turn leaves it, and
    the accumulators. *)
Definition dispatchStep (e : Event) (method : string) (inputEvent : option Event)
  (points : Points) (entry : HandlerEntry) (acc : DispatchAcc)
  : HandlerEntry * DispatchAcc :=
  let '(mergedHandlerResult, eventsInProgress, activeHandlers, st) := acc in
  let h := handler entry in
  if negb (isEnabled h) then (entry, acc)
  else
    let '(h, data, mergedHandlerResult, eventsInProgress, st) :=
      if _blockedByActive activeHandlers (allowed entry) (entryName entry)
      then (reset h, None, mergedHandlerResult, eventsInProgress, st)
      else
        match callMethod method e points h with
        | None => (h, None, mergedHandlerResult, eventsInProgress, st)
        | Some (h, data) =>
            let '(mergedHandlerResult, eventsInProgress) :=
              mergeHandlerResult mergedHandlerResult eventsInProgress data
                (entryName entry) inputEvent in
            let st :=
              match data with
              | Some r =>
                  if truthyBool (needsRenderFrame r)
                  then _triggerRenderFrame st else st
              | None => st
              end in
            (h, data, mergedHandlerResult, eventsInProgress, st)
        end in
    let activeHandlers :=
      if isSome data || isActive h
      then {[entryName entry]} ∪ activeHandlers
      else activeHandlers in
    (mkEntry (entryName entry) h (allowed entry),
     (mergedHandlerResult, eventsInProgress, activeHandlers, st)).

Fixpoint dispatchLoop (e : Event) (method : string) (inputEvent : option Event)
  (points : Points) (entries : list HandlerEntry) (acc : DispatchAcc)
  : list HandlerEntry * DispatchAcc :=
  match entries with
  | [] => ([], acc)
  | entry :: rest =>
      let '(entry, acc) := dispatchStep e method inputEvent points entry acc in
      let '(rest, acc) := dispatchLoop e method inputEvent points rest acc in
      (entry :: rest, acc)
  end.

(** The [for (const name in this._previousActiveHandlers)] loop. *)
Definition deactivated (previousActiveHandlers activeHandlers : gset string)
  (inputEvent : option Event) : gmap string (option Event) :=
  fold_left
    (fun deactivatedHandlers name =>
       if bool_decide (name ∈ activeHandlers) then deactivatedHandlers
       else <[name := inputEvent]> deactivatedHandlers)
    (elements previousActiveHandlers) ∅.

(** [eventName || e.type]. *)
Definition methodName (e : Event) (eventName : option string) : string :=
  match eventName with
  | Some name => if String.eqb name "" then ev_type e else name
  | None => ev_type e
  end.

(** [_processInputEvent(e, eventName)]. *)
Definition _processInputEvent (e : Event) (eventName : option string)
  (st : HandlerManager) : option HandlerManager :=
  let st := set_updatingCamera true st in
  let inputEvent := if String.eqb (ev_type e) "renderFrame" then None else Some e in
  let mergedHandlerResult :=
    mkResult None None None None Undefined Undefined None None (Some false) None in
  let points :=
    if targetTouches e then TouchPoints (touchPos e) else MousePoint (mousePos e) in
  let '(handlers, (mergedHandlerResult, eventsInProgress, activeHandlers, st)) :=
    dispatchLoop e (methodName e eventName) inputEvent points (_handlers st)
      (mergedHandlerResult, [], ∅, st) in
  let st := set_handlers handlers st in
  let deactivatedHandlers :=
    deactivated (_previousActiveHandlers st) activeHandlers inputEvent in
  let st := set_previousActiveHandlers activeHandlers st in
  let st :=
    if negb (size deactivatedHandlers =? 0)%nat || hasChange mergedHandlerResult
    then
      _triggerRenderFrame
        (set_changes
           (_changes st
              ++ [(mergedHandlerResult, eventsInProgress, deactivatedHandlers)]) st)
    else st in
  let st :=
    if negb (size activeHandlers =? 0)%nat || hasChange mergedHandlerResult
    then callMap Stop st else st in
  let st := set_updatingCamera false st in
  match cameraAnimation mergedHandlerResult with
  | Some cameraAnimation =>
      let st := set_inertia (Inertia.clear (_inertia st)) st in
      match _fireEvents [] ∅ st with
      | None => None
      | Some st =>
          let st := set_changes [] st in
          Some (callMap (RunCameraAnimation cameraAnimation) st)
      end
  | None => Some st
  end.

(** *** Cancellation *)

Definition resetEntry (entry : HandlerEntry) : HandlerEntry :=
  mkEntry (entryName entry) (reset (handler entry)) (allowed entry).

(** [stop()]. *)
Definition stop (st : HandlerManager) : option HandlerManager :=
  if _updatingCamera st then Some st
  else
    let st := set_handlers (map resetEntry (_handlers st)) st in
    let st := set_inertia (Inertia.clear (_inertia st)) st in
    match _fireEvents [] ∅ st with
    | None => None
    | Some st => Some (set_changes [] st)
    end.

(** *** The frame callback and the runs of the manager *)

(** The callback [_triggerRenderFrame] hands to the map. *)
Definition frameCallback (timeStamp : Z) (st : HandlerManager)
  : option HandlerManager :=
  let st := set_frameId None st in
  match _processInputEvent (RenderFrameEvent timeStamp) None st with
  | None => None
  | Some st => _applyChanges st
  end.

(** What can happen to a manager: a listener receives an input event, the
    map serves an outstanding frame request, or [stop()] is called. *)
Inductive Action :=
| Input (e : Event) (eventName : string)
| ServeFrame (id : nat) (timeStamp : Z)
| StopAll.

(** One action; [None] when it throws, or when the frame request is not
    outstanding. *)
Definition act (a : Action) (st : HandlerManager) : option HandlerManager :=
  match a with
  | Input e eventName => _processInputEvent e (Some eventName) st
  | ServeFrame id timeStamp =>
      if bool_decide (id ∈ frames (_map st))
      then frameCallback timeStamp (set_map (serveFrame id (_map st)) st)
      else None
  | StopAll => stop st
  end.

Definition isServeFrame (a : Action) : bool :=
  match a with
  | ServeFrame _ _ => true
  | _ => false
  end.

(** The frame callbacks among some actions. *)
Fixpoint serves (actions : list Action) : nat :=
  match actions with
  | [] => 0
  | a :: rest => (if isServeFrame a then 1 else 0) + serves rest
  end.

Definition run (actions : list Action) (st : HandlerManager)
  : option HandlerManager :=
  foldThrow (fun st a => act a st) actions st.

(** *** The history of the events-in-progress object *)

(** The values a loop variable takes after each turn. *)
Fixpoint scan {A B} (body : A -> B -> A) (l : list B) (a : A) : list A :=
  match l with
  | [] => []
  | b :: rest => body a b :: scan body rest (body a b)
  end.

Fixpoint scanThrow {A B} (body : A -> B -> option A) (l : list B) (a : A)
  : list A :=
  match l with
  | [] => []
  | b :: rest =>
      match body a b with
      | Some a' => a' :: scanThrow body rest a'
      | None => []
      end
  end.

(** The successive values of [this._eventsInProgress] during a call of
    [_fireEvents]: after each turn of the first loop, which assigns, and
    after each turn of the end loop, which deletes. *)
Definition fireSteps (newEventsInProgress : EventsInProgress)
  (deactivatedHandlers : gmap string (option Event)) (st : HandlerManager)
  : list EventsInProgress :=
  map _eventsInProgress
    (scan startStep newEventsInProgress (fireMoveStart newEventsInProgress st))
  ++ map (fun acc => _eventsInProgress acc.1)
       (scanThrow (endStep deactivatedHandlers)
          (_eventsInProgress (fireStart newEventsInProgress st))
          (fireStart newEventsInProgress st, None)).

(** A call of [_fireEvents] in a run of such calls: the manager it finds,
    apart from the events-in-progress object, which is the one the run has
    produced so far, and from the calls recorded by the map, which are those
    of the run followed by the ones the rest of the manager has made since
    the previous call; and the arguments of the call. *)
Record FireCall := mkFireCall {
  fc_manager : HandlerManager;
  fc_between : list OtherCall;
  fc_newEventsInProgress : EventsInProgress;
  fc_deactivatedHandlers : gmap string (option Event)
}.

Definition resume (fc : FireCall) (st : HandlerManager) : HandlerManager :=
  let m := _map (fc_manager fc) in
  set_eventsInProgress (_eventsInProgress st)
    (set_map
       (mkMap (transform m) (calls (_map st) ++ map otherCall (fc_between fc))
          (frames m) (nextFrame m) (now m) (inertiaOptions m))
       (fc_manager fc)).

Definition fireCall (st : HandlerManager) (fc : FireCall) : option HandlerManager :=
  _fireEvents (fc_newEventsInProgress fc) (fc_deactivatedHandlers fc) (resume fc st).

Definition fireCalls (fcs : list FireCall) (st : HandlerManager)
  : option HandlerManager :=
  foldThrow fireCall fcs st.

(** The values of the events-in-progress object over a run of calls, after
    the initial one. *)
Fixpoint fireCallsSteps (fcs : list FireCall) (st : HandlerManager)
  : list EventsInProgress :=
  match fcs with
  | [] => []
  | fc :: rest =>
      fireSteps (fc_newEventsInProgress fc) (fc_deactivatedHandlers fc)
        (resume fc st)
      ++ match fireCall st fc with
         | Some st => fireCallsSteps rest st
         | None => []
         end
  end.

(** The history of the number of active categories over a run of calls. *)
Definition fireCallsTrace (fcs : list FireCall) (st : HandlerManager) : list nat :=
  map activeCategories (_eventsInProgress st :: fireCallsSteps fcs st).

End Manager.

(** * The sums of a flush in the arithmetic of the program

    The numbers of the program are binary64 floating-point numbers: their
    [+] rounds, and 0, -0 and NaN are the numbers that are not truthy.  The
    embedding above takes a number as an integer.  Of what is said of the
    manager, only the values of the sums that [_applyChanges] forms depend on
    that choice; for them the loop of [_applyChanges] is given a second
    time here, over any numbers with the operations the loop uses.  The
    integers, with which the first embedding agrees, and the binary64
    numbers are two instances. *)

(** The constant [0], [+] and the truthiness of a number, which are what
    lines 376 to 379 use; and, for what the spec says of them, the product
    of a count and a number. *)
Class Arithmetic (R : Type) := {
  zeroR : R;
  addR : R -> R -> R;
  truthyR : R -> bool;
  timesR : nat -> R -> R
}.

(** Exact arithmetic: the integers. *)
Global Instance exactArithmetic : Arithmetic Z := {|
  zeroR := 0;
  addR := Z.add;
  truthyR := fun n => negb (n =? 0);
  timesR := fun count n => Z.of_nat count * n
|}.

(** The arithmetic of the program: binary64, round to nearest even. *)
Global Instance binary64 : Arithmetic float := {|
  zeroR := PrimFloat.zero;
  addR := PrimFloat.add;
  truthyR := fun x => negb (PrimFloat.is_zero x || PrimFloat.is_nan x);
  timesR := fun count x =>
    PrimFloat.mul (PrimFloat.of_uint63 (Uint63.of_Z (Z.of_nat count))) x
|}.

Module Flush.

Section Over.

Context {R : Type} `{!Arithmetic R}.

(** A point, with [p._add(q)]. *)
Record Vec := mkVec { vx : R; vy : R }.

Definition addVec (p q : Vec) : Vec :=
  mkVec (addR (vx p) (vx q)) (addR (vy p) (vy q)).

(** [around?: Point | null]. *)
Inductive Anchor := Undefined | Null | At (p : Vec).

(** The fields of a queued result that the loop reads. *)
Record Change := mkChange {
  panDelta : option Vec;
  zoomDelta : option R;
  bearingDelta : option R;
  pitchDelta : option R;
  around : Anchor;
  pinchAround : Anchor;
  noInertia : option bool
}.

(** [const combined = {}]. *)
Definition emptyChange : Change :=
  mkChange None None None None Undefined Undefined None.

(** [combined.panDelta || new Point(0, 0)] and [combined.zoomDelta || 0]. *)
Definition vecOrZero (v : option Vec) : Vec :=
  match v with Some p => p | None => mkVec zeroR zeroR end.

Definition orZero (v : option R) : R :=
  match v with
  | Some n => if truthyR n then n else zeroR
  | None => zeroR
  end.

(** [if (change.zoomDelta) combined.zoomDelta = (combined.zoomDelta || 0) +
    change.zoomDelta], and the same for the bearing and the pitch. *)
Definition addDelta (combined change : option R) : option R :=
  match change with
  | Some n => if truthyR n then Some (addR (orZero combined) n) else combined
  | None => combined
  end.

(** [if (change.around !== undefined) combined.around = change.around]. *)
Definition setAnchor (combined change : Anchor) : Anchor :=
  match change with
  | Undefined => combined
  | v => v
  end.

(** One turn of the loop of [_applyChanges]: the seven assignments of lines
    376 to 382, each of which reads and writes one field. *)
Definition combineChange (combined change : Change) : Change :=
  {| panDelta :=
       match panDelta change with
       | Some d => Some (addVec (vecOrZero (panDelta combined)) d)
       | None => panDelta combined
       end;
     zoomDelta := addDelta (zoomDelta combined) (zoomDelta change);
     bearingDelta := addDelta (bearingDelta combined) (bearingDelta change);
     pitchDelta := addDelta (pitchDelta combined) (pitchDelta change);
     around := setAnchor (around combined) (around change);
     pinchAround := setAnchor (pinchAround combined) (pinchAround change);
     noInertia :=
       if truthyBool (noInertia change) then noInertia change
       else noInertia combined |}.

(** The loop, over the results queued. *)
Definition combineChanges (changes : list Change) : Change :=
  fold_left combineChange changes emptyChange.

End Over.

Arguments Vec : clear implicits.
Arguments Anchor : clear implicits.
Arguments Change : clear implicits.

End Flush.

(** A result of the first embedding as a queued result over the integers. *)
Definition vecOf (p : Point.t) : Flush.Vec Z := Flush.mkVec (Point.x p) (Point.y p).

Definition anchorOf (a : Around) : Flush.Anchor Z :=
  match a with
  | Undefined => Flush.Undefined
  | Null => Flush.Null
  | At p => Flush.At (vecOf p)
  end.

Definition changeOf (r : HandlerResult) : Flush.Change Z :=
  Flush.mkChange (option_map vecOf (panDelta r)) (zoomDelta r) (bearingDelta r)
    (pitchDelta r) (anchorOf (around r)) (anchorOf (pinchAround r)) (noInertia r).

(** ** What the sums are said to be *)

Section Sums.

Context {R : Type} `{!Arithmetic R}.

(** Vectors added from left to right, from the zero vector. *)
Definition sumVec (ps : list (Flush.Vec R)) : Flush.Vec R :=
  fold_left Flush.addVec ps (Flush.mkVec zeroR zeroR).

(** Numbers added from left to right onto [s], a running sum that is not
    truthy (0, or not a number) counting as 0. *)
Definition sumFrom (s : R) (ds : list R) : R :=
  fold_left (fun s d => addR (if truthyR s then s else zeroR) d) ds s.

(** The pan deltas queued, and the deltas of a scalar field that are queued
    and truthy, in the order of the queue. *)
Definition pans (changes : list (Flush.Change R)) : list (Flush.Vec R) :=
  omap Flush.panDelta changes.

Fixpoint truthyDeltas (field : Flush.Change R -> option R)
  (changes : list (Flush.Change R)) : list R :=
  match changes with
  | [] => []
  | change :: rest =>
      match field change with
      | Some n =>
          if truthyR n then n :: truthyDeltas field rest
          else truthyDeltas field rest
      | None => truthyDeltas field rest
      end
  end.

(** The last anchor of a sequence that is not undefined. *)
Fixpoint lastAnchor (l : list (Flush.Anchor R)) : Flush.Anchor R :=
  match l with
  | [] => Flush.Undefined
  | a :: rest =>
      match lastAnchor rest with
      | Flush.Undefined => a
      | v => v
      end
  end.

(** What the spec says of queued results that all carry the pan delta [d]:
    they combine to their number times [d]. *)
Definition panScales (changes : list (Flush.Change R)) : Prop :=
  forall d : Flush.Vec R,
    changes <> [] ->
    Forall (fun change => Flush.panDelta change = Some d) changes ->
    Flush.panDelta (Flush.combineChanges changes)
    = Some
        (Flush.mkVec (timesR (length changes) (Flush.vx d))
           (timesR (length changes) (Flush.vy d))).

End Sums.

(** Ten queued results that each carry the pan delta (0.1, 0), 0.1 being the
    binary64 number nearest to it. *)
Definition tenth : float := 0x1.999999999999ap-4%float.

Definition tenTenths : list (Flush.Change float) :=
  repeat
    (Flush.mkChange (Some (Flush.mkVec tenth PrimFloat.zero)) None None None
       Flush.Undefined Flush.Undefined None) 10.

(** * Predicates used in the statements *)

(** A name is absent from an allow-list when there is no list at all or the
    list does not hold it. *)
Definition absentFrom (allowed : option (list string)) (name : string) : Prop :=
  match allowed with
  | None => True
  | Some l => name ∉ l
  end.

(** A field of [merged] is the field of [from] when [from] has it, and the
    field of [into] otherwise. *)
Definition fieldOverwritten {A} (field : HandlerResult -> option A)
  (into from merged : HandlerResult) : Prop :=
  (forall v, field from = Some v -> field merged = Some v)
  /\ (field from = None -> field merged = field into).

Definition anchorOverwritten (field : HandlerResult -> Around)
  (into from merged : HandlerResult) : Prop :=
  (field from <> Undefined -> field merged = field from)
  /\ (field from = Undefined -> field merged = field into).

(** The owner [mergeHandlerResult] records for a result of handler [name]. *)
Definition ownerOf (from : HandlerResult) (name : string) (e : option Event)
  : EventData :=
  mkEventData name (orElse (originalEvent from) e).

(** Each value of the history is related to the next one. *)
Fixpoint chain (R : nat -> nat -> Prop) (a : nat) (l : list nat) : Prop :=
  match l with
  | [] => True
  | b :: rest => R a b /\ chain R b rest
  end.

Section ManagerPredicates.

Context {Handler Transform LngLat : Type}.
Context `{!Dom} `{!HandlerOps Handler} `{!TransformOps Transform LngLat}.
Context `{!InertiaTracker}.

(** What the lifecycle step leaves alone: the handlers, the frame request
    and its token, the queue, the previous active set, the snap tolerance
    and, of the map, everything but the record of the calls. *)
Definition untouched (st st' : @HandlerManager Handler Transform) : Prop :=
  _handlers st' = _handlers st
  /\ _frameId st' = _frameId st
  /\ _changes st' = _changes st
  /\ _previousActiveHandlers st' = _previousActiveHandlers st
  /\ _bearingSnap st' = _bearingSnap st
  /\ transform (_map st') = transform (_map st)
  /\ frames (_map st') = frames (_map st)
  /\ nextFrame (_map st') = nextFrame (_map st)
  /\ now (_map st') = now (_map st)
  /\ inertiaOptions (_map st') = inertiaOptions (_map st).

(** Every owner named in an events-in-progress object is a registered
    handler. *)
Definition ownersRegistered (handlers : list (@HandlerEntry Handler))
  (m : EventsInProgress) : Prop :=
  Forall (fun entry => is_Some (_handlersById handlers (handlerName entry.2))) m.

(** A handler that returns no result for the render-frame tick. *)
Definition noTickData (h : Handler) : Prop :=
  forall e points,
    match callMethod "renderFrame" e points h with
    | Some (_, Some _) => False
    | _ => True
    end.

(** The merged result a dispatch starts from. *)
Definition initialResult : HandlerResult :=
  mkResult None None None None Undefined Undefined None None (Some false) None.

(** A handler that, once reset, is not active and returns no result for
    the render-frame tick. *)
Definition idleOnceReset (h : Handler) : Prop :=
  isActive (reset h) = false /\ noTickData (reset h).

(** What the claim on [stop()] asks of a call, whatever the manager it is
    made in: the call completes with every handler reset, the queue empty
    and the inertia buffer empty. *)
Definition stopClears (st : @HandlerManager Handler Transform) : Prop :=
  exists st',
    stop st = Some st'
    /\ _handlers st' = map resetEntry (_handlers st)
    /\ _changes st' = []
    /\ _inertia st' = [].

(** The owners named in the events-in-progress object and in the queued
    changes are registered handlers. *)
Definition wellFormed (st : @HandlerManager Handler Transform) : Prop :=
  ownersRegistered (_handlers st) (_eventsInProgress st)
  /\ Forall (fun change : PendingChange => ownersRegistered (_handlers st) change.1.2)
       (_changes st).

End ManagerPredicates.

Section Counts.

Context {Handler Transform : Type}.

(** The [movestart] notifications the map has received, and the ends of a
    move: a [moveend] notification or an ease. *)
Definition movestarts (st : @HandlerManager Handler Transform) : nat :=
  countCalls (isFire "movestart") (calls (_map st)).

Definition moveends (st : @HandlerManager Handler Transform) : nat :=
  countCalls (fun c => isFire "moveend" c || isEaseTo c) (calls (_map st)).

End Counts.

Section Quiet.

Context {Handler Transform : Type}.

(** A step that sends neither [movestart] nor an end of move. *)
Definition quiet (st st' : @HandlerManager Handler Transform) : Prop :=
  movestarts st' = movestarts st
  /\ moveends st' = moveends st.

End Quiet.

Section Snap.

Context {Handler Transform : Type}.

(** A step that leaves the inertia buffer alone and calls neither [easeTo]
    nor [resetNorth]. *)
Definition calm (st st' : @HandlerManager Handler Transform) : Prop :=
  _inertia st' = _inertia st
  /\ countCalls isEaseTo (calls (_map st')) = countCalls isEaseTo (calls (_map st))
  /\ countCalls isResetNorth (calls (_map st'))
     = countCalls isResetNorth (calls (_map st)).

(** The frame requests made so far. *)
Definition requests (st : @HandlerManager Handler Transform) : nat :=
  countCalls isRequestRenderFrame (calls (_map st)).

(** The token [_frameId] is set exactly when a frame request is outstanding,
    and then it is the only one. *)
Definition frameInvariant (st : @HandlerManager Handler Transform) : Prop :=
  match _frameId st with
  | Some id => frames (_map st) = [id]
  | None => frames (_map st) = []
  end.

(** A step that makes no frame request and serves none. *)
Definition frameNeutral (st st' : @HandlerManager Handler Transform) : Prop :=
  _frameId st' = _frameId st
  /\ frames (_map st') = frames (_map st)
  /\ requests st' = requests st.

(** A step that keeps the invariant of the token and makes as many
    requests as it adds outstanding ones. *)
Definition frameStep (st st' : @HandlerManager Handler Transform) : Prop :=
  (frameInvariant st -> frameInvariant st')
  /\ (requests st' + length (frames (_map st))
      = requests st + length (frames (_map st')))%nat.

(** The calls that change the camera: eases, resets to north and camera
    animations. *)
Definition cameraCalls (st : @HandlerManager Handler Transform) : nat :=
  countCalls (fun c => isEaseTo c || isResetNorth c || isRunCameraAnimation c)
    (calls (_map st)).

(** The bearing a gesture ends at: the bearing of the ease target when the
    inertia yields one that has a bearing, and the bearing of the map
    otherwise. *)
Definition finalBearing (inertialEase : option EaseOptions) (current : Z) : Z :=
  match inertialEase with
  | Some ease =>
      match ease_bearing ease with
      | Some b => b
      | None => current
      end
  | None => current
  end.

(** A bearing that is not north but less than the tolerance away from it. *)
Definition withinSnap (bearingSnap b : Z) : Prop := 0 < Z.abs b < bearingSnap.

Global Instance withinSnap_dec bearingSnap b : Decision (withinSnap bearingSnap b).
Proof. unfold withinSnap. apply _. Defined.

(** A step that leaves the camera and the events-in-progress object as
    they were. *)
Definition cameraSame (st st' : @HandlerManager Handler Transform) : Prop :=
  transform (_map st') = transform (_map st)
  /\ cameraCalls st' = cameraCalls st
  /\ _eventsInProgress st' = _eventsInProgress st.

End Snap.

(** * A small instance

    One kind of handler, driven by the mouse: it becomes active on mousedown,
    returns a zoom delta around the pointer on every mousemove while it is
    active, and stops on mouseup.  The transform maps a screen point to a
    location by a translation, and the inertia yields an ease as soon as it
    has two recent samples. *)

Module Sample.

Record MouseHandler := mkMouse {
  enabled : bool;
  active : bool
}.

Definition mouseCall (name : string) (e : Event) (points : Points)
  (h : MouseHandler) : option (MouseHandler * option HandlerResult) :=
  if String.eqb name "mousedown" then Some (mkMouse (enabled h) true, None)
  else if String.eqb name "mousemove" then
    if active h
    then
      Some (h,
            Some (mkResult None (Some 1) None None
                    match points with
                    | MousePoint p => At p
                    | TouchPoints _ => Undefined
                    end
                    Undefined None None None None))
    else Some (h, None)
  else if String.eqb name "mouseup" then Some (mkMouse (enabled h) false, None)
  else None.

Global Instance mouseHandlerOps : HandlerOps MouseHandler := {|
  isEnabled := enabled;
  isActive := active;
  reset := fun h => mkMouse (enabled h) false;
  callMethod := mouseCall
|}.

Global Instance dom : Dom := {|
  touchPos := fun _ => [];
  mousePos := fun e => Point.mk (Z.of_nat (ev_payload e)) 0
|}.

Record Translation := mkTranslation {
  origin : Point.t;
  bearing : Z;
  pitchAngle : Z;
  zoomLevel : Z
}.

Global Instance translationOps : TransformOps Translation Point.t := {|
  centerPoint := fun _ => Point.mk 400 300;
  pointLocation := fun tr p => Point.add (origin tr) p;
  setLocationAtPoint := fun loc p tr =>
    mkTranslation (Point.sub loc p) (bearing tr) (pitchAngle tr) (zoomLevel tr);
  getBearing := bearing;
  setBearing := fun b tr =>
    mkTranslation (origin tr) b (pitchAngle tr) (zoomLevel tr);
  getPitch := pitchAngle;
  setPitch := fun p tr => mkTranslation (origin tr) (bearing tr) p (zoomLevel tr);
  getZoom := zoomLevel;
  setZoom := fun z tr => mkTranslation (origin tr) (bearing tr) (pitchAngle tr) z
|}.

(** The tracker of the instance keeps the last eight samples, discards at
    the end of a gesture those more than 160 ms old and yields an ease,
    without a bearing of its own, as soon as two are left. *)
Definition keepLast (n : nat) (buffer : list Sample) : list Sample :=
  drop (length buffer - n) buffer.

Definition recent (time : Z) (buffer : list Sample) : list Sample :=
  filter (fun s => time - fst s <= 160) buffer.

Global Instance inertiaTracker : InertiaTracker := {|
  recordSample := fun time settings buffer =>
    keepLast 8 (buffer ++ [(time, settings)]);
  moveEnd := fun _ time buffer =>
    (if (2 <=? length (recent time buffer))%nat then Some (mkEase None 0) else None,
     recent time buffer);
  moveEnd_nil := fun _ _ => eq_refl
|}.

(** A map turned 3 degrees from north, with nothing recorded yet. *)
Definition map : @Map Translation :=
  mkMap (mkTranslation (Point.mk 0 0) 3 0 10) [] [] 0 1000 0.

(** A manager with the snap tolerance 7 and the handler registered as
    [scrollZoom]. *)
Definition manager : @HandlerManager MouseHandler Translation :=
  _add "scrollZoom" (mkMouse true false) (Some ["mousePan"]) (newManager map 7).

Definition mouse (type : string) (x : nat) : Event := mkEvent type 0 false x.

(** The same manager while it updates the camera, with a change queued, a
    sample in the inertia buffer and its handler active. *)
Definition busyManager : @HandlerManager MouseHandler Translation :=
  mkManager map [mkEntry "scrollZoom" (mkMouse true true) (Some ["mousePan"])]
    [] None [(990, set_zoomDelta (Some 1) emptyResult)] 7 true
    [(set_zoomDelta (Some 1) emptyResult, [], ∅)] ∅ false.

(** The manager with a zoom in progress that its handler has left. *)
Definition zoomingManager : @HandlerManager MouseHandler Translation :=
  set_eventsInProgress [(zoom, mkEventData "scrollZoom" None)] manager.

(** The same manager with two recent samples in the inertia buffer. *)
Definition coastingManager : @HandlerManager MouseHandler Translation :=
  set_inertia
    [(990, set_zoomDelta (Some 1) emptyResult);
     (995, set_zoomDelta (Some 1) emptyResult)] zoomingManager.

(** A combined result: a zoom by 1 and a pan by (5, 0) around (10, 20). *)
Definition combined : HandlerResult :=
  mkResult (Some (Point.mk 5 0)) (Some 1) None None (At (Point.mk 10 20))
    Undefined None None None None.

(** The same with the pinch anchor (30, 40) besides. *)
Definition pinched : HandlerResult := set_pinchAround (At (Point.mk 30 40)) combined.

(** Two calls of [_fireEvents]: a zoom starts while the handler is active,
    then the handler is found inactive. *)
Definition fireCallsOfZoom : list (@FireCall MouseHandler Translation) :=
  [mkFireCall
     (set_handlers [mkEntry "scrollZoom" (mkMouse true true) None] manager)
     [DidRequestRenderFrame 0; DidStop; DidUpdate]
     [(zoom, mkEventData "scrollZoom" None)] ∅;
   mkFireCall manager [DidRequestRenderFrame 1] [] ∅].

(** A run: press, move twice, the frame, release. *)
Definition actions : list Action :=
  [Input (mouse "mousedown" 3) "mousedown";
   Input (mouse "mousemove" 4) "mousemove";
   Input (mouse "mousemove" 5) "mousemove";
   ServeFrame 0 16;
   Input (mouse "mouseup" 5) "mouseup"].

(** Another kind of handler: it is never active and returns a zoom delta on
    every render-frame tick, reset or not. *)
Inductive Ticker := ticker.

Global Instance tickerOps : HandlerOps Ticker := {|
  isEnabled := fun _ => true;
  isActive := fun _ => false;
  reset := fun h => h;
  callMethod := fun name _ _ h =>
    if String.eqb name "renderFrame"
    then Some (h, Some (set_zoomDelta (Some 1) emptyResult))
    else None
|}.

Definition tickingManager : @HandlerManager Ticker Translation :=
  _add "ticker" ticker None (newManager map 7).

Definition tickingStopped : @HandlerManager Ticker Translation :=
  default tickingManager (stop tickingManager).

Definition orElseManager (o : option (@HandlerManager MouseHandler Translation))
  : @HandlerManager MouseHandler Translation :=
  match o with
  | Some st => st
  | None => manager
  end.

End Sample.

(** * The rest of the manager *)

Definition isStop (c : MapCall) : bool :=
  match c with
  | Stop => true
  | _ => false
  end.

Definition isUpdate (c : MapCall) : bool :=
  match c with
  | Update => true
  | _ => false
  end.

Module Manager.

Section Queries.

Context {Handler Transform : Type}.
Context `{!HandlerOps Handler}.

(** [isActive()] of the manager: the loop over [this._handlers]. *)
Fixpoint anyActive (handlers : list (@HandlerEntry Handler)) : bool :=
  match handlers with
  | [] => false
  | entry :: rest => if isActive (handler entry) then true else anyActive rest
  end.

Definition isActive (st : @HandlerManager Handler Transform) : bool :=
  anyActive (_handlers st).

(** [isRotating()]. *)
Definition isRotating (st : @HandlerManager Handler Transform) : bool :=
  isSome (Eip.get rotate (_eventsInProgress st)).

End Queries.

End Manager.

Section ManagerMore.

Context {Handler Transform LngLat : Type}.
Context `{!Dom} `{!HandlerOps Handler} `{!TransformOps Transform LngLat}.
Context `{!InertiaTracker}.

(** Lines 278 to 316 of [_processInputEvent]: the loop over the handlers
    with the values it starts from. *)
Definition dispatchOf (e : Event) (eventName : option string)
  (st : @HandlerManager Handler Transform)
  : list (@HandlerEntry Handler) * @DispatchAcc Handler Transform :=
  let st := set_updatingCamera true st in
  dispatchLoop e (methodName e eventName)
    (if String.eqb (ev_type e) "renderFrame" then None else Some e)
    (if targetTouches e then TouchPoints (touchPos e) else MousePoint (mousePos e))
    (_handlers st) (initialResult, [], ∅, st).

(** What the loop leaves: the merged result, the events in progress of the
    dispatch and the handlers active in it. *)
Definition mergedOf (e : Event) (eventName : option string)
  (st : @HandlerManager Handler Transform) : HandlerResult :=
  (dispatchOf e eventName st).2.1.1.1.

Definition eventsOf (e : Event) (eventName : option string)
  (st : @HandlerManager Handler Transform) : EventsInProgress :=
  (dispatchOf e eventName st).2.1.1.2.

Definition activeOf (e : Event) (eventName : option string)
  (st : @HandlerManager Handler Transform) : gset string :=
  (dispatchOf e eventName st).2.1.2.

(** [_processInputEvent] up to [this._updatingCamera = false] (line 335). *)
Definition dispatched (e : Event) (eventName : option string)
  (st : @HandlerManager Handler Transform) : @HandlerManager Handler Transform :=
  let inputEvent := if String.eqb (ev_type e) "renderFrame" then None else Some e in
  let '(handlers, (mergedHandlerResult, eventsInProgress, activeHandlers, st)) :=
    dispatchOf e eventName st in
  let st := set_handlers handlers st in
  let deactivatedHandlers :=
    deactivated (_previousActiveHandlers st) activeHandlers inputEvent in
  let st := set_previousActiveHandlers activeHandlers st in
  let st :=
    if negb (size deactivatedHandlers =? 0)%nat || hasChange mergedHandlerResult
    then
      _triggerRenderFrame
        (set_changes
           (_changes st
              ++ [(mergedHandlerResult, eventsInProgress, deactivatedHandlers)]) st)
    else st in
  let st :=
    if negb (size activeHandlers =? 0)%nat || hasChange mergedHandlerResult
    then callMap Stop st else st in
  set_updatingCamera false st.

(** The names and the allow-lists of the registered handlers, in order. *)
Definition registry (st : @HandlerManager Handler Transform)
  : list (string * option (list string)) :=
  map (fun entry => (entryName entry, allowed entry)) (_handlers st).

(** The [<category>start] and [<category>end] notifications sent so far. *)
Definition categoryStarts (c : Category) (st : @HandlerManager Handler Transform)
  : nat :=
  countCalls (isFire (categoryName c +:+ "start")) (calls (_map st)).

Definition categoryEnds (c : Category) (st : @HandlerManager Handler Transform)
  : nat :=
  countCalls (isFire (categoryName c +:+ "end")) (calls (_map st)).

(** Every category has been started once more than ended when it is in
    progress, and as often as ended when it is not; and the
    events-in-progress object has each key once. *)
Definition bracketed (st : @HandlerManager Handler Transform) : Prop :=
  NoDup (map fst (_eventsInProgress st))
  /\ forall c,
       categoryStarts c st
       = (categoryEnds c st
          + if isSome (Eip.get c (_eventsInProgress st)) then 1 else 0)%nat.

(** Every frame callback among some actions serves a request that is
    outstanding when its turn comes. *)
Fixpoint servesOutstanding (actions : list Action)
  (st : @HandlerManager Handler Transform) : Prop :=
  match actions with
  | [] => True
  | a :: rest =>
      match a with
      | ServeFrame id _ => id ∈ frames (_map st)
      | _ => True
      end
      /\ match act a st with
         | Some st => servesOutstanding rest st
         | None => True
         end
  end.

End ManagerMore.

(** The calls [_fireEvents] makes: notifications, eases and resets to
    north. *)
Definition lifecycleCall (c : MapCall) : Prop :=
  match c with
  | Fire _ _ | EaseTo _ _ | ResetNorth => True
  | _ => False
  end.

(** The calls a dispatch makes besides those of [_fireEvents]. *)
Definition dispatchCall (c : MapCall) : Prop :=
  match c with
  | Stop | RequestRenderFrame _ => True
  | _ => False
  end.

(** A call that is not the start or the end notification of a category. *)
Definition plainCall (call : MapCall) : Prop :=
  forall c,
    isFire (categoryName c +:+ "start") call = false
    /\ isFire (categoryName c +:+ "end") call = false.

Section Emits.

Context {Handler Transform : Type}.

(** A step that adds to the record of the map only calls of some kind. *)
Definition emits (P : MapCall -> Prop) (st st' : @HandlerManager Handler Transform)
  : Prop :=
  exists added, calls (_map st') = calls (_map st) ++ added /\ Forall P added.

(** A step that leaves the transform, the events-in-progress object, the
    inertia buffer and the snap tolerance alone, and calls the map only to
    stop animations or to request a frame. *)
Definition dispatchOnly (st st' : @HandlerManager Handler Transform) : Prop :=
  transform (_map st') = transform (_map st)
  /\ now (_map st') = now (_map st)
  /\ _eventsInProgress st' = _eventsInProgress st
  /\ _inertia st' = _inertia st
  /\ _bearingSnap st' = _bearingSnap st
  /\ emits dispatchCall st st'.

End Emits.

(** * More of the small instance *)

Module Scene.

(** The manager of the small instance after the press, after the press and
    a move, and after the frame that follows. *)
Definition pressed : @HandlerManager Sample.MouseHandler Sample.Translation :=
  Sample.orElseManager
    (_processInputEvent (Sample.mouse "mousedown" 3) (Some "mousedown")
       Sample.manager).

Definition moved : @HandlerManager Sample.MouseHandler Sample.Translation :=
  Sample.orElseManager
    (_processInputEvent (Sample.mouse "mousemove" 4) (Some "mousemove") pressed).

Definition flushed : @HandlerManager Sample.MouseHandler Sample.Translation :=
  Sample.orElseManager (_applyChanges moved).

(** The manager with a second handler, which is disabled. *)
Definition boxZoom : @HandlerEntry Sample.MouseHandler :=
  mkEntry "boxZoom" (Sample.mkMouse false true) None.

Definition withDisabled : @HandlerManager Sample.MouseHandler Sample.Translation :=
  set_handlers (_handlers Sample.manager ++ [boxZoom]) Sample.manager.

Definition withDisabledMoved
  : @HandlerManager Sample.MouseHandler Sample.Translation :=
  Sample.orElseManager
    (_processInputEvent (Sample.mouse "mousemove" 4) (Some "mousemove")
       withDisabled).



(** The combined result of the instance with a null pinch anchor. *)
Definition pinchless : HandlerResult := set_pinchAround Null Sample.combined.

Definition recentred : @HandlerManager Sample.MouseHandler Sample.Translation :=
  Sample.orElseManager (_updateMapTransform pinchless [] ∅ Sample.zoomingManager).

(** The manager whose handler is held down, and a zoom it starts. *)
Definition held : @HandlerManager Sample.MouseHandler Sample.Translation :=
  set_handlers [mkEntry "scrollZoom" (Sample.mkMouse true true) None]
    Sample.manager.

Definition zoomStarted : @HandlerManager Sample.MouseHandler Sample.Translation :=
  Sample.orElseManager
    (_fireEvents [(zoom, mkEventData "scrollZoom" None)] ∅ held).

(** The zoom in progress ended. *)
Definition zoomEnded : @HandlerManager Sample.MouseHandler Sample.Translation :=
  Sample.orElseManager (_fireEvents [] ∅ Sample.zoomingManager).

(** Two handlers held down, the second of which allows the first. *)
Definition touchPan : @HandlerEntry Sample.MouseHandler :=
  mkEntry "touchPan" (Sample.mkMouse true true) None.

Definition touchZoom : @HandlerEntry Sample.MouseHandler :=
  mkEntry "touchZoom" (Sample.mkMouse true true) (Some ["touchPan"]).

Definition twoFingers : @HandlerManager Sample.MouseHandler Sample.Translation :=
  set_handlers [touchPan; touchZoom] (newManager Sample.map 7).

(** A third kind of handler: it answers a double click with a camera
    animation. *)
Inductive Flyer := flyer.

Global Instance flyerOps : HandlerOps Flyer := {|
  isEnabled := fun _ => true;
  isActive := fun _ => false;
  reset := fun h => h;
  callMethod := fun name _ _ h =>
    if String.eqb name "dblclick"
    then Some (h,
               Some (mkResult None None None None Undefined Undefined
                       (Some 7%nat) None None None))
    else None
|}.

Definition flying : @HandlerManager Flyer Sample.Translation :=
  set_changes [(set_zoomDelta (Some 1) emptyResult, [], ∅)]
    (_add "clickZoom" flyer None (newManager Sample.map 7)).

Definition flown : @HandlerManager Flyer Sample.Translation :=
  default flying
    (_processInputEvent (Sample.mouse "dblclick" 3) (Some "dblclick") flying).

(** The manager at the end of the run of the instance. *)
Definition played : @HandlerManager Sample.MouseHandler Sample.Translation :=
  Sample.orElseManager (run Sample.actions Sample.manager).

End Scene.

(** * Properties *)

(** ** Arbitration *)

Lemma indexOfFrom_lower (l : list string) (name : string) (i : Z) :
  0 <= i -> name ∈ l -> 0 <= indexOfFrom i l name.
Proof.
  revert i. induction l as [|s l IH]; intros i Hi Hin.
  - by apply elem_of_nil in Hin.
  - simpl. destruct (String.eqb_spec s name) as [->|Hne]; [lia|].
    apply IH; [lia|]. apply elem_of_cons in Hin as [->|]; [done|done].
Qed.

Lemma indexOfFrom_absent (l : list string) (name : string) (i : Z) :
  name ∉ l -> indexOfFrom i l name = -1.
Proof.
  revert i. induction l as [|s l IH]; intros i Hnin; [done|].
  simpl. apply not_elem_of_cons in Hnin as [Hne Hnin].
  destruct (String.eqb_spec s name) as [->|_]; [done|]. by apply IH.
Qed.

Lemma indexOf_negative (l : list string) (name : string) :
  (indexOf l name <? 0) = true <-> name ∉ l.
Proof.
  unfold indexOf. rewrite Z.ltb_lt. split.
  - intros Hlt Hin. pose proof (indexOfFrom_lower l name 0 ltac:(lia) Hin). lia.
  - intros Hnin. rewrite indexOfFrom_absent by done. lia.
Qed.

Lemma blockedLoop_spec (names : list string) (allowed : option (list string))
  (myName : string) :
  blockedLoop names allowed myName = true <->
  exists name, name ∈ names /\ name <> myName /\ absentFrom allowed name.
Proof.
  induction names as [|n names IH]; simpl.
  - split; [done|]. intros (name & Hin & _). by apply elem_of_nil in Hin.
  - destruct (String.eqb_spec n myName) as [->|Hne].
    + rewrite IH. split.
      * intros (name & Hin & Hne & Habs). exists name. by rewrite elem_of_cons; auto.
      * intros (name & Hin & Hne & Habs). exists name.
        apply elem_of_cons in Hin as [->|Hin]; [done|auto].
    + destruct allowed as [l|]; simpl.
      * destruct (indexOf l n <? 0) eqn:Hidx.
        -- split; [|done]. intros _. exists n.
           rewrite elem_of_cons. apply indexOf_negative in Hidx. auto.
        -- rewrite IH. split.
           ++ intros (name & Hin & Hn & Habs). exists name.
              rewrite elem_of_cons; auto.
           ++ intros (name & Hin & Hn & Habs). exists name.
              apply elem_of_cons in Hin as [->|Hin]; [|auto].
              simpl in Habs. apply indexOf_negative in Habs. congruence.
      * split; [|done]. intros _. exists n. rewrite elem_of_cons. auto.
Qed.

(** C4.  [_blockedByActive] answers true exactly when some active handler
    other than the candidate is absent from the allow-list. *)
Theorem blockedByActive_iff (activeHandlers : gset string)
  (allowed : option (list string)) (myName : string) :
  _blockedByActive activeHandlers allowed myName = true <->
  exists name, name ∈ activeHandlers /\ name <> myName /\ absentFrom allowed name.
Proof.
  unfold _blockedByActive. rewrite blockedLoop_spec.
  split; intros (name & Hin & H); exists name; split; try apply H;
    by apply elem_of_elements.
Qed.

(** C10.  Without an allow-list a handler is blocked exactly when some other
    handler is active; a handler is never blocked when no handler is active
    or when it is the only active one, whatever its allow-list. *)
Theorem blockedByActive_no_allow_list (activeHandlers : gset string)
  (allowed : option (list string)) (myName : string) :
  (_blockedByActive activeHandlers None myName = true <->
   exists name, name ∈ activeHandlers /\ name <> myName)
  /\ _blockedByActive ∅ allowed myName = false
  /\ _blockedByActive {[myName]} allowed myName = false.
Proof.
  split; [|split].
  - unfold _blockedByActive. rewrite blockedLoop_spec. simpl.
    split; intros (name & Hin & Hne); exists name.
    + split; [by apply elem_of_elements | apply Hne].
    + split; [by apply elem_of_elements | done].
  - apply not_true_is_false. unfold _blockedByActive. rewrite blockedLoop_spec.
    intros (name & Hin & _). rewrite elements_empty in Hin.
    by apply elem_of_nil in Hin.
  - apply not_true_is_false. unfold _blockedByActive. rewrite blockedLoop_spec.
    intros (name & Hin & Hne & _). rewrite elements_singleton in Hin.
    apply list_elem_of_singleton in Hin. done.
Qed.

(** ** The events-in-progress object *)

Lemma Eip_get_set_eq c v m : Eip.get c (Eip.set c v m) = Some v.
Proof.
  induction m as [|[k w] m IH]; simpl.
  - by rewrite decide_True.
  - destruct (decide (k = c)) as [->|Hne]; simpl.
    + by rewrite decide_True.
    + by rewrite decide_False.
Qed.

Lemma Eip_get_set_ne c c' v m : c <> c' -> Eip.get c' (Eip.set c v m) = Eip.get c' m.
Proof.
  intros Hne. induction m as [|[k w] m IH]; simpl.
  - by rewrite decide_False.
  - destruct (decide (k = c)) as [->|Hkc]; simpl.
    + by rewrite !decide_False.
    + destruct (decide (k = c')); [done|apply IH].
Qed.

Lemma Eip_get_set c c' v m :
  Eip.get c' (Eip.set c v m) = if decide (c = c') then Some v else Eip.get c' m.
Proof.
  destruct (decide (c = c')) as [->|Hne].
  - apply Eip_get_set_eq.
  - by apply Eip_get_set_ne.
Qed.

Lemma Eip_get_delete_eq c m : Eip.get c (Eip.delete c m) = None.
Proof.
  induction m as [|[k w] m IH]; simpl; [done|].
  destruct (decide (k = c)) as [->|Hne]; simpl; [done|].
  by rewrite decide_False.
Qed.

Lemma Eip_get_delete_ne c c' m : c <> c' -> Eip.get c' (Eip.delete c m) = Eip.get c' m.
Proof.
  intros Hne. induction m as [|[k w] m IH]; simpl; [done|].
  destruct (decide (k = c)) as [->|Hkc]; simpl.
  - by rewrite decide_False.
  - destruct (decide (k = c')); [done|apply IH].
Qed.

(** ** Merging within one dispatch *)

Lemma merge_records into eip from name e c :
  Eip.get c (mergeHandlerResult into eip (Some from) name e).2
  = if deltaPresent c from then Some (ownerOf from name e) else Eip.get c eip.
Proof.
  unfold mergeHandlerResult, ownerOf; simpl.
  destruct c; simpl;
    repeat match goal with
           | |- context [bool_decide ?P] => destruct (bool_decide P)
           end;
    rewrite ?Eip_get_set; repeat case_decide; try done.
Qed.

(** C3.  [mergeHandlerResult] overwrites each field of the merged result
    with the field of the handler result when the latter has it and keeps
    it otherwise, and for each delta field the handler result has it
    records the handler, with the originating event, as the owner of the
    category of that field; the other categories keep their owner. *)
Theorem mergeHandlerResult_spec (into from : HandlerResult)
  (eventsInProgress : EventsInProgress) (name : string) (e : option Event) :
  fieldOverwritten panDelta into from
    (mergeHandlerResult into eventsInProgress (Some from) name e).1
  /\ fieldOverwritten zoomDelta into from
    (mergeHandlerResult into eventsInProgress (Some from) name e).1
  /\ fieldOverwritten bearingDelta into from
    (mergeHandlerResult into eventsInProgress (Some from) name e).1
  /\ fieldOverwritten pitchDelta into from
    (mergeHandlerResult into eventsInProgress (Some from) name e).1
  /\ anchorOverwritten around into from
    (mergeHandlerResult into eventsInProgress (Some from) name e).1
  /\ anchorOverwritten pinchAround into from
    (mergeHandlerResult into eventsInProgress (Some from) name e).1
  /\ fieldOverwritten cameraAnimation into from
    (mergeHandlerResult into eventsInProgress (Some from) name e).1
  /\ fieldOverwritten originalEvent into from
    (mergeHandlerResult into eventsInProgress (Some from) name e).1
  /\ fieldOverwritten needsRenderFrame into from
    (mergeHandlerResult into eventsInProgress (Some from) name e).1
  /\ fieldOverwritten noInertia into from
    (mergeHandlerResult into eventsInProgress (Some from) name e).1
  /\ (forall c : Category,
        Eip.get c (mergeHandlerResult into eventsInProgress (Some from) name e).2
        = if deltaPresent c from
          then Some (mkEventData name (orElse (originalEvent from) e))
          else Eip.get c eventsInProgress).
Proof.
  repeat split;
    try (by intros v Hv; simpl; rewrite Hv);
    try (by intros Hv; simpl; rewrite Hv);
    try (by intros Hv; simpl; destruct (around from));
    try (by intros Hv; simpl; destruct (pinchAround from)).
  intros c. apply merge_records.
Qed.

(** Over the results of one dispatch, in registration order, a field of the
    merged result is the one of the last handler that set it. *)
Lemma mergeAll_last_wins {A} (field : HandlerResult -> option A)
  (results : list (string * HandlerResult)) e into eip :
  (forall dest src, field (extend dest src) = overwrite (field dest) (field src)) ->
  field (mergeAll results e (into, eip)).1
  = orElse (lastSet (map (fun named => field named.2) results)) (field into).
Proof.
  intros Hfield. revert into eip.
  induction results as [|[n r] results IH]; intros into eip; simpl.
  - by destruct (field into).
  - unfold mergeAll in *. simpl. 
    destruct (mergeHandlerResult into eip (Some r) n e) as [m' eip'] eqn:Hm.
    rewrite IH. assert (m' = extend into r) as -> by (by inversion Hm).
    rewrite Hfield.
    destruct (lastSet _); simpl; [done|]. by destruct (field r).
Qed.

(** ** Accumulation at a flush *)

Ltac combine_cases change :=
  unfold combineChange;
  destruct (panDelta change), (truthyNum (zoomDelta change)),
    (truthyNum (bearingDelta change)), (truthyNum (pitchDelta change)),
    (around change), (pinchAround change), (truthyBool (noInertia change));
  try reflexivity.

Lemma combineChange_panDelta combined change :
  panDelta (combineChange combined change)
  = match panDelta change with
    | Some d => Some (Point.add (pointOr0 (panDelta combined)) d)
    | None => panDelta combined
    end.
Proof. combine_cases change. Qed.

Lemma combineChange_zoomDelta combined change :
  zoomDelta (combineChange combined change)
  = if truthyNum (zoomDelta change)
    then Some (numOr0 (zoomDelta combined) + numOr0 (zoomDelta change))
    else zoomDelta combined.
Proof. combine_cases change. Qed.

Lemma combineChange_bearingDelta combined change :
  bearingDelta (combineChange combined change)
  = if truthyNum (bearingDelta change)
    then Some (numOr0 (bearingDelta combined) + numOr0 (bearingDelta change))
    else bearingDelta combined.
Proof. combine_cases change. Qed.

Lemma combineChange_pitchDelta combined change :
  pitchDelta (combineChange combined change)
  = if truthyNum (pitchDelta change)
    then Some (numOr0 (pitchDelta combined) + numOr0 (pitchDelta change))
    else pitchDelta combined.
Proof. combine_cases change. Qed.

Lemma combineChange_around combined change :
  around (combineChange combined change)
  = overwriteAround (around combined) (around change).
Proof. combine_cases change. Qed.

Lemma combineChange_pinchAround combined change :
  pinchAround (combineChange combined change)
  = overwriteAround (pinchAround combined) (pinchAround change).
Proof. combine_cases change. Qed.

Lemma combineChange_noInertia combined change :
  noInertia (combineChange combined change)
  = if truthyBool (noInertia change) then noInertia change else noInertia combined.
Proof. combine_cases change. Qed.

(** The combined result only depends on the results of the queue. *)
Lemma combineChanges_results (changes : list PendingChange) (acc : PendingChange) :
  (fold_left applyChange changes acc).1.1
  = fold_left combineChange (queuedResults changes) acc.1.1.
Proof.
  revert acc. induction changes as [|[[r eip] d] changes IH]; intros acc; [done|].
  simpl. rewrite IH. by destruct acc as [[c ceip] cd].
Qed.

Lemma Point_add_assoc p q r :
  Point.add (Point.add p q) r = Point.add p (Point.add q r).
Proof. destruct p, q, r. unfold Point.add; simpl. f_equal; lia. Qed.

Lemma Point_add_zero_l p : Point.add Point.zero p = p.
Proof. by destruct p. Qed.

Lemma Point_add_zero_r p : Point.add p Point.zero = p.
Proof. destruct p. unfold Point.add; simpl. f_equal; lia. Qed.

Lemma fold_combine_pan (results : list HandlerResult) combined :
  pointOr0 (panDelta (fold_left combineChange results combined))
  = Point.add (pointOr0 (panDelta combined))
      (Point.sum (map (fun r => pointOr0 (panDelta r)) results)).
Proof.
  revert combined. induction results as [|r results IH]; intros combined; simpl.
  - by rewrite Point_add_zero_r.
  - rewrite IH, combineChange_panDelta.
    destruct (panDelta r) as [d|]; simpl.
    + by rewrite Point_add_assoc.
    + by rewrite Point_add_zero_l.
Qed.

Lemma fold_combine_pan_absent (results : list HandlerResult) combined :
  panDelta (fold_left combineChange results combined) = None
  <-> panDelta combined = None /\ Forall (fun r => panDelta r = None) results.
Proof.
  revert combined. induction results as [|r results IH]; intros combined; simpl.
  - split; [by intros ->|by intros [-> _]].
  - rewrite IH, combineChange_panDelta, Forall_cons.
    destruct (panDelta r); intuition congruence.
Qed.

Section ScalarSum.

(** The three scalar deltas are accumulated in the same way. *)
Variable field : HandlerResult -> option Z.
Hypothesis combine_field : forall combined change,
  field (combineChange combined change)
  = if truthyNum (field change)
    then Some (numOr0 (field combined) + numOr0 (field change))
    else field combined.

Lemma numOr0_falsy v : truthyNum v = false -> numOr0 v = 0.
Proof.
  destruct v as [n|]; simpl; [|done].
  destruct (Z.eqb_spec n 0); [done|discriminate].
Qed.

Lemma fold_combine_scalar (results : list HandlerResult) combined :
  numOr0 (field (fold_left combineChange results combined))
  = numOr0 (field combined) + sumNum (map (fun r => numOr0 (field r)) results).
Proof.
  revert combined. induction results as [|r results IH]; intros combined; simpl.
  - lia.
  - rewrite IH, combine_field.
    destruct (truthyNum (field r)) eqn:Ht; simpl; [lia|].
    rewrite (numOr0_falsy _ Ht). lia.
Qed.

Lemma fold_combine_scalar_absent (results : list HandlerResult) combined :
  field (fold_left combineChange results combined) = None
  <-> field combined = None /\ Forall (fun r => truthyNum (field r) = false) results.
Proof.
  revert combined. induction results as [|r results IH]; intros combined; simpl.
  - split; [by intros ->|by intros [-> _]].
  - rewrite IH, combine_field, Forall_cons.
    destruct (truthyNum (field r)); intuition congruence.
Qed.

End ScalarSum.

Lemma fold_combine_anchor (field : HandlerResult -> Around)
  (results : list HandlerResult) combined :
  (forall combined change,
     field (combineChange combined change)
     = overwriteAround (field combined) (field change)) ->
  field (fold_left combineChange results combined)
  = overwriteAround (field combined) (lastDefined (map field results)).
Proof.
  intros Hfield. revert combined.
  induction results as [|r results IH]; intros combined; simpl; [done|].
  rewrite IH, Hfield.
  destruct (lastDefined (map field results)); simpl; try done.
Qed.

Lemma fold_combine_noInertia (results : list HandlerResult) combined :
  truthyBool (noInertia (fold_left combineChange results combined)) = true
  <-> truthyBool (noInertia combined) = true
      \/ Exists (fun r => truthyBool (noInertia r) = true) results.
Proof.
  revert combined. induction results as [|r results IH]; intros combined; simpl.
  - rewrite Exists_nil. tauto.
  - rewrite IH, combineChange_noInertia, Exists_cons.
    destruct (truthyBool (noInertia r)) eqn:Hr; [tauto|].
    split; [intros [?|?]; auto|intros [?|[?|?]]; auto; done].
Qed.

Lemma Point_sum_repeat (d : Point.t) (ps : list Point.t) :
  Forall (fun p => p = d) ps ->
  Point.sum ps = Point.scale (Z.of_nat (length ps)) d.
Proof.
  induction 1 as [|p ps -> _ IH].
  - unfold Point.scale; simpl. destruct d; unfold Point.zero; f_equal.
  - cbn [Point.sum length]. rewrite IH. destruct d as [dx dy].
    unfold Point.add, Point.scale; simpl Point.x; simpl Point.y. f_equal; lia.
Qed.

Lemma applyChanges_sums (changes : list PendingChange) :
  pointOr0 (panDelta (combinedResult changes))
    = Point.sum (map (fun r => pointOr0 (panDelta r)) (queuedResults changes))
  /\ numOr0 (zoomDelta (combinedResult changes))
     = sumNum (map (fun r => numOr0 (zoomDelta r)) (queuedResults changes))
  /\ numOr0 (bearingDelta (combinedResult changes))
     = sumNum (map (fun r => numOr0 (bearingDelta r)) (queuedResults changes))
  /\ numOr0 (pitchDelta (combinedResult changes))
     = sumNum (map (fun r => numOr0 (pitchDelta r)) (queuedResults changes)).
Proof.
  unfold combinedResult, combineChanges. rewrite combineChanges_results.
  cbn [fst]. split_and!.
  - by rewrite fold_combine_pan, Point_add_zero_l.
  - by rewrite (fold_combine_scalar zoomDelta combineChange_zoomDelta).
  - by rewrite (fold_combine_scalar bearingDelta combineChange_bearingDelta).
  - by rewrite (fold_combine_scalar pitchDelta combineChange_pitchDelta).
Qed.

(** *** The loop over any numbers *)

Section FlushSums.

Context {R : Type} `{!Arithmetic R}.

Lemma flush_pan (changes : list (Flush.Change R)) (acc : Flush.Change R) :
  Flush.panDelta (fold_left Flush.combineChange changes acc)
  = match pans changes with
    | [] => Flush.panDelta acc
    | ps => Some (fold_left Flush.addVec ps (Flush.vecOrZero (Flush.panDelta acc)))
    end.
Proof.
  revert acc. induction changes as [|change changes IH]; intros acc; [done|].
  cbn [fold_left]. rewrite IH. unfold pans. cbn [omap list_omap].
  cbn [Flush.combineChange Flush.panDelta].
  destruct (Flush.panDelta change) as [d|]; [|done].
  cbn [Flush.vecOrZero fold_left]. by destruct (omap Flush.panDelta changes).
Qed.

Lemma flush_scalar (field : Flush.Change R -> option R)
  (changes : list (Flush.Change R)) (acc : Flush.Change R) :
  (forall combined change,
     field (Flush.combineChange combined change)
     = Flush.addDelta (field combined) (field change)) ->
  field (fold_left Flush.combineChange changes acc)
  = match truthyDeltas field changes with
    | [] => field acc
    | d :: rest => Some (sumFrom (addR (Flush.orZero (field acc)) d) rest)
    end.
Proof.
  intros Hfield. revert acc.
  induction changes as [|change changes IH]; intros acc; [done|].
  cbn [fold_left truthyDeltas]. rewrite IH, Hfield. unfold Flush.addDelta.
  destruct (field change) as [n|]; [|done].
  destruct (truthyR n); [|done].
  by destruct (truthyDeltas field changes).
Qed.

Lemma flush_anchor (field : Flush.Change R -> Flush.Anchor R)
  (changes : list (Flush.Change R)) (acc : Flush.Change R) :
  (forall combined change,
     field (Flush.combineChange combined change)
     = Flush.setAnchor (field combined) (field change)) ->
  field (fold_left Flush.combineChange changes acc)
  = Flush.setAnchor (field acc) (lastAnchor (map field changes)).
Proof.
  intros Hfield. revert acc.
  induction changes as [|change changes IH]; intros acc; [done|].
  cbn [fold_left map lastAnchor]. rewrite IH, Hfield.
  by destruct (lastAnchor (map field changes)), (field change).
Qed.

Lemma flush_noInertia (changes : list (Flush.Change R)) (acc : Flush.Change R) :
  truthyBool (Flush.noInertia (fold_left Flush.combineChange changes acc)) = true
  <-> truthyBool (Flush.noInertia acc) = true
      \/ Exists (fun change => truthyBool (Flush.noInertia change) = true) changes.
Proof.
  revert acc. induction changes as [|change changes IH]; intros acc.
  - rewrite Exists_nil. simpl. tauto.
  - cbn [fold_left]. rewrite IH, Exists_cons.
    cbn [Flush.combineChange Flush.noInertia].
    destruct (truthyBool (Flush.noInertia change)) eqn:Hchange; [tauto|].
    intuition congruence.
Qed.

End FlushSums.

(** *** The first embedding is the loop over the integers *)

Lemma combineChange_exact (combined change : HandlerResult) :
  Flush.combineChange (changeOf combined) (changeOf change)
  = changeOf (combineChange combined change).
Proof.
  destruct combined as [cp cz cb cq ca cpa cc co cn ci],
    change as [p z b q a pa c o n i].
  unfold changeOf, Flush.combineChange, combineChange, Flush.addDelta,
    Flush.orZero. simpl.
  assert (Hnum : forall v w : option Z,
    match w with
    | Some m =>
        if negb (m =? 0)
        then Some (match v with
                   | Some k => if negb (k =? 0) then k else 0
                   | None => 0
                   end + m)
        else v
    | None => v
    end
    = if truthyNum w then Some (numOr0 v + numOr0 w) else v).
  { intros [k|] [m|]; simpl; try done;
      destruct (Z.eqb_spec m 0); simpl; try done;
      destruct (Z.eqb_spec k 0); simpl; subst; done. }
  destruct p as [p|], (truthyNum z) eqn:Hz, (truthyNum b) eqn:Hb,
    (truthyNum q) eqn:Hq, a, pa, (truthyBool i) eqn:Hi; simpl;
    rewrite ?Hi; f_equal;
    rewrite ?(Hnum cz z), ?(Hnum cb b), ?(Hnum cq q), ?Hz, ?Hb, ?Hq;
    try done; by destruct cp.
Qed.

Lemma combineChanges_exact (changes : list PendingChange) :
  Flush.combineChanges (map changeOf (queuedResults changes))
  = changeOf (combinedResult changes).
Proof.
  unfold Flush.combineChanges, combinedResult, combineChanges.
  rewrite combineChanges_results. cbn [fst].
  change (Flush.emptyChange (R := Z)) with (changeOf emptyResult).
  generalize emptyResult. induction (queuedResults changes) as [|r rs IH];
    intros acc; [done|].
  cbn [map fold_left]. by rewrite combineChange_exact, IH.
Qed.

Lemma default_truthyNum (v : option Z) : truthyNum v = false <-> default 0 v = 0.
Proof.
  destruct v as [n|]; simpl; [|done].
  destruct (Z.eqb_spec n 0); simpl; split; try done; congruence.
Qed.

Lemma Exists_not_Forall {A} (P Q : A -> Prop) (l : list A) :
  (forall x, P x -> Q x -> False) -> Exists P l -> ~ Forall Q l.
Proof.
  intros Hnot Hex Hall. induction Hex as [x l Hx|x l _ IH].
  - apply Forall_cons in Hall as [Hq _]. by apply (Hnot x).
  - apply Forall_cons in Hall as [_ Hall]. by apply IH.
Qed.

(** The sums of the first embedding, with nothing of it on the right. *)
Lemma exact_scalar (field : HandlerResult -> option Z)
  (changes : list PendingChange) :
  (forall combined change,
     field (combineChange combined change)
     = if truthyNum (field change)
       then Some (numOr0 (field combined) + numOr0 (field change))
       else field combined) ->
  field emptyResult = None ->
  (Forall (fun r => default 0 (field r) = 0) (queuedResults changes) ->
   field (combinedResult changes) = None)
  /\ (Exists (fun r => default 0 (field r) <> 0) (queuedResults changes) ->
      field (combinedResult changes)
      = Some (sumNum (map (fun r => default 0 (field r)) (queuedResults changes)))).
Proof.
  intros Hfield Hempty. unfold combinedResult, combineChanges.
  rewrite combineChanges_results. cbn [fst].
  pose proof (fold_combine_scalar field Hfield (queuedResults changes) emptyResult)
    as Hsum.
  pose proof (fold_combine_scalar_absent field Hfield (queuedResults changes)
                emptyResult) as Habsent.
  rewrite Hempty in Hsum, Habsent. split.
  - intros Hall. apply Habsent. split; [done|].
    eapply Forall_impl; [exact Hall|]. intros r. by rewrite default_truthyNum.
  - intros Hsome.
    destruct (field (fold_left combineChange (queuedResults changes) emptyResult))
      as [n|] eqn:Hn.
    + simpl in Hsum. rewrite Hsum. do 2 f_equal.
    + exfalso. destruct Habsent as [Habsent _].
      destruct (Habsent eq_refl) as [_ Hall]. revert Hall.
      apply (Exists_not_Forall _ _ _ (fun r Hr Hf =>
               Hr (proj1 (default_truthyNum (field r)) Hf)) Hsome).
Qed.

(** C2.  The combined result of a flush, first in any arithmetic, that of
    the program included: its pan delta is the queued pan deltas added from
    left to right from the zero vector, and is absent when none is queued;
    its zoom, bearing and pitch deltas are the queued deltas that are
    truthy added from left to right from 0, a running sum that is not
    truthy counting as 0, and each is absent when no queued one is truthy;
    its anchor and pinch anchor are the last queued ones that are not
    undefined; its suppress-inertia flag is set exactly when some queued
    result set it.  Then in exact arithmetic, for which the first embedding
    is that loop over the integers: the pan delta is the vector sum of the
    queued ones, the zoom, bearing and pitch deltas are the sums of the
    queued ones (absent when every queued one is absent or 0), and queued
    results that all carry the pan delta [d] combine to their number times
    [d]. *)
Theorem applyChanges_accumulates :
  (forall (R : Type) (A : Arithmetic R) (changes : list (Flush.Change R)),
     Flush.panDelta (Flush.combineChanges changes)
     = match pans changes with
       | [] => None
       | ps => Some (sumVec ps)
       end
     /\ Flush.zoomDelta (Flush.combineChanges changes)
        = match truthyDeltas Flush.zoomDelta changes with
          | [] => None
          | d :: rest => Some (sumFrom (addR zeroR d) rest)
          end
     /\ Flush.bearingDelta (Flush.combineChanges changes)
        = match truthyDeltas Flush.bearingDelta changes with
          | [] => None
          | d :: rest => Some (sumFrom (addR zeroR d) rest)
          end
     /\ Flush.pitchDelta (Flush.combineChanges changes)
        = match truthyDeltas Flush.pitchDelta changes with
          | [] => None
          | d :: rest => Some (sumFrom (addR zeroR d) rest)
          end
     /\ Flush.around (Flush.combineChanges changes)
        = lastAnchor (map Flush.around changes)
     /\ Flush.pinchAround (Flush.combineChanges changes)
        = lastAnchor (map Flush.pinchAround changes)
     /\ (truthyBool (Flush.noInertia (Flush.combineChanges changes)) = true
         <-> Exists (fun change => truthyBool (Flush.noInertia change) = true)
               changes))
  /\ (forall changes : list PendingChange,
        Flush.combineChanges (map changeOf (queuedResults changes))
        = changeOf (combinedResult changes)
        /\ (Forall (fun r => panDelta r = None) (queuedResults changes) ->
            panDelta (combinedResult changes) = None)
        /\ (Exists (fun r => panDelta r <> None) (queuedResults changes) ->
            panDelta (combinedResult changes)
            = Some
                (Point.sum
                   (map (fun r => default Point.zero (panDelta r))
                      (queuedResults changes))))
        /\ (Forall (fun r => default 0 (zoomDelta r) = 0) (queuedResults changes) ->
            zoomDelta (combinedResult changes) = None)
        /\ (Exists (fun r => default 0 (zoomDelta r) <> 0) (queuedResults changes) ->
            zoomDelta (combinedResult changes)
            = Some
                (sumNum
                   (map (fun r => default 0 (zoomDelta r)) (queuedResults changes))))
        /\ (Forall (fun r => default 0 (bearingDelta r) = 0)
              (queuedResults changes) ->
            bearingDelta (combinedResult changes) = None)
        /\ (Exists (fun r => default 0 (bearingDelta r) <> 0)
              (queuedResults changes) ->
            bearingDelta (combinedResult changes)
            = Some
                (sumNum
                   (map (fun r => default 0 (bearingDelta r))
                      (queuedResults changes))))
        /\ (Forall (fun r => default 0 (pitchDelta r) = 0) (queuedResults changes) ->
            pitchDelta (combinedResult changes) = None)
        /\ (Exists (fun r => default 0 (pitchDelta r) <> 0) (queuedResults changes) ->
            pitchDelta (combinedResult changes)
            = Some
                (sumNum
                   (map (fun r => default 0 (pitchDelta r)) (queuedResults changes))))
        /\ (forall d : Point.t,
              changes <> [] ->
              Forall (fun r => panDelta r = Some d) (queuedResults changes) ->
              panDelta (combinedResult changes)
              = Some (Point.scale (Z.of_nat (length changes)) d))).
Proof.
  split.
  - intros R A changes. unfold Flush.combineChanges. split_and!.
    + rewrite flush_pan. unfold sumVec. by destruct (pans changes).
    + by rewrite (flush_scalar Flush.zoomDelta).
    + by rewrite (flush_scalar Flush.bearingDelta).
    + by rewrite (flush_scalar Flush.pitchDelta).
    + rewrite (flush_anchor Flush.around) by done. simpl.
      by destruct (lastAnchor _).
    + rewrite (flush_anchor Flush.pinchAround) by done. simpl.
      by destruct (lastAnchor _).
    + rewrite flush_noInertia. simpl. split; [intros [?|?]|]; auto; done.
  - intros changes.
    assert (Hpan :
      pointOr0 (panDelta (combinedResult changes))
      = Point.sum (map (fun r => default Point.zero (panDelta r))
                     (queuedResults changes))).
    { unfold combinedResult, combineChanges. rewrite combineChanges_results.
      cbn [fst]. by rewrite fold_combine_pan, Point_add_zero_l. }
    assert (Hnone :
      panDelta (combinedResult changes) = None
      <-> Forall (fun r => panDelta r = None) (queuedResults changes)).
    { unfold combinedResult, combineChanges. rewrite combineChanges_results.
      cbn [fst]. rewrite fold_combine_pan_absent. simpl. tauto. }
    assert (Hsome :
      Exists (fun r => panDelta r <> None) (queuedResults changes) ->
      panDelta (combinedResult changes)
      = Some (Point.sum (map (fun r => default Point.zero (panDelta r))
                           (queuedResults changes)))).
    { intros Hex. destruct (panDelta (combinedResult changes)) as [p|] eqn:Hp.
      - by rewrite <- Hpan.
      - exfalso. revert Hex. intros Hex.
        apply (Exists_not_Forall _ _ _ (fun r Hr Hf => Hr Hf) Hex).
        by apply Hnone. }
    destruct (exact_scalar zoomDelta changes combineChange_zoomDelta eq_refl)
      as [Hz0 Hz].
    destruct (exact_scalar bearingDelta changes combineChange_bearingDelta eq_refl)
      as [Hb0 Hb].
    destruct (exact_scalar pitchDelta changes combineChange_pitchDelta eq_refl)
      as [Hq0 Hq].
    split_and!; try done.
    + apply combineChanges_exact.
    + by apply Hnone.
    + intros d Hne Hall. rewrite Hsome.
      * f_equal. rewrite (Point_sum_repeat d).
        -- unfold queuedResults. by rewrite !length_map.
        -- apply Forall_map. eapply Forall_impl; [exact Hall|]. by intros r ->.
      * destruct changes as [|change changes]; [done|].
        apply Forall_cons in Hall as [Hhead _].
        apply Exists_cons. left. by rewrite Hhead.
Qed.

(** The claim fails in the arithmetic of the program: ten queued results
    that each carry the pan delta (0.1, 0) combine to
    (0.99999999999999989, 0), which is not ten times (0.1, 0), that is
    (1, 0). *)
Lemma ten_tenths_fall_short : ~ panScales tenTenths.
Proof.
  intros Hscales.
  specialize (Hscales (Flush.mkVec tenth PrimFloat.zero)).
  assert (Hsum :
    Flush.panDelta (Flush.combineChanges tenTenths)
    = Some
        (Flush.mkVec (timesR (length tenTenths) tenth)
           (timesR (length tenTenths) PrimFloat.zero))).
  { apply Hscales; [done|]. unfold tenTenths. simpl. repeat constructor. }
  pose proof (f_equal
                (fun v =>
                   match v with
                   | Some p => PrimFloat.eqb (Flush.vx p) PrimFloat.one
                   | None => false
                   end) Hsum) as Hx.
  vm_compute in Hx. discriminate Hx.
Qed.

Lemma Point_sum_app ps qs :
  Point.sum (ps ++ qs) = Point.add (Point.sum ps) (Point.sum qs).
Proof.
  induction ps as [|p ps IH]; simpl.
  - by rewrite Point_add_zero_l.
  - by rewrite IH, Point_add_assoc.
Qed.

Lemma Point_sum_scalars (l : list Z) :
  Point.sum (map (fun n => Point.mk n 0) l) = Point.mk (sumNum l) 0.
Proof.
  induction l as [|n l IH]; simpl; [done|]. rewrite IH.
  unfold Point.add; simpl. f_equal.
Qed.

(** The delta of a category in the combined result, read as a number, is
    the sum of the queued deltas of that category. *)
Lemma combinedResult_delta (c : Category) (changes : list PendingChange) :
  deltaOr0 c (combinedResult changes)
  = Point.sum (map (deltaOr0 c) (queuedResults changes)).
Proof.
  pose proof (applyChanges_sums changes) as (Hpan & Hzoom & Hbearing & Hpitch).
  destruct c; simpl.
  - rewrite Hzoom, <- Point_sum_scalars, map_map. done.
  - done.
  - rewrite Hpitch, <- Point_sum_scalars, map_map. done.
  - rewrite Hbearing, <- Point_sum_scalars, map_map. done.
Qed.

Lemma deltaOr0_without c r : deltaOr0 c (withoutDelta c r) = Point.zero.
Proof. by destruct c. Qed.

Lemma deltaOr0_withZero c r : deltaOr0 c (withZeroDelta c r) = Point.zero.
Proof. by destruct c. Qed.

Lemma combinedResult_delta_insert (c : Category) (before after : list PendingChange)
  (change : PendingChange) :
  deltaOr0 c change.1.1 = Point.zero ->
  deltaOr0 c (combinedResult (before ++ change :: after))
  = deltaOr0 c (combinedResult (before ++ after)).
Proof.
  intros Hzero. rewrite !combinedResult_delta. unfold queuedResults.
  rewrite !map_app, !Point_sum_app. simpl. rewrite Hzero.
  by rewrite Point_add_zero_l.
Qed.

(** C9.  For each category: a result that lacks the delta of the category
    leaves the owner of the category as it was, while the same result with
    the delta set to an explicit zero makes its handler the owner; and at a
    flush a queued change of either kind adds nothing to the sum of the
    deltas of that category. *)
Theorem absent_versus_explicit_zero (c : Category) (r into : HandlerResult)
  (eventsInProgress : EventsInProgress) (name : string) (e : option Event)
  (before after : list PendingChange) (eip : EventsInProgress)
  (deactivatedHandlers : gmap string (option Event)) :
  Eip.get c
    (mergeHandlerResult into eventsInProgress (Some (withoutDelta c r)) name e).2
  = Eip.get c eventsInProgress
  /\ Eip.get c
       (mergeHandlerResult into eventsInProgress (Some (withZeroDelta c r)) name e).2
     = Some (mkEventData name (orElse (originalEvent r) e))
  /\ deltaOr0 c
       (combinedResult
          (before ++ (withoutDelta c r, eip, deactivatedHandlers) :: after))
     = deltaOr0 c (combinedResult (before ++ after))
  /\ deltaOr0 c
       (combinedResult
          (before ++ (withZeroDelta c r, eip, deactivatedHandlers) :: after))
     = deltaOr0 c (combinedResult (before ++ after))
  /\ deltaOr0 c (withoutDelta c r) = deltaOr0 c (withZeroDelta c r).
Proof.
  split_and!.
  - rewrite merge_records. by destruct c.
  - rewrite merge_records. by destruct c.
  - apply combinedResult_delta_insert, deltaOr0_without.
  - apply combinedResult_delta_insert, deltaOr0_withZero.
  - by rewrite deltaOr0_without, deltaOr0_withZero.
Qed.

(** ** The manager *)

Section ManagerProperties.

Context {Handler Transform LngLat : Type}.
Context `{!Dom} `{!HandlerOps Handler} `{!TransformOps Transform LngLat}.
Context `{!InertiaTracker}.

Implicit Types st : @HandlerManager Handler Transform.
Implicit Types handlers : list (@HandlerEntry Handler).

Lemma fold_left_invariant {A B} (P : A -> Prop) (body : A -> B -> A) l a :
  (forall a b, P a -> P (body a b)) -> P a -> P (fold_left body l a).
Proof.
  intros Hbody. revert a. induction l as [|b l IH]; intros a Ha; simpl; auto.
Qed.

Lemma foldThrow_invariant {A B} (P : A -> Prop) (body : A -> B -> option A) l a a' :
  (forall a b a', P a -> body a b = Some a' -> P a') ->
  P a -> foldThrow body l a = Some a' -> P a'.
Proof.
  intros Hbody. revert a. induction l as [|b l IH]; intros a Ha Hrun; simpl in Hrun.
  - by inversion Hrun; subst.
  - destruct (body a b) as [a1|] eqn:Hb; [|done]. eauto.
Qed.

(** *** What the lifecycle step leaves alone *)

Lemma untouched_refl (st : @HandlerManager Handler Transform) : untouched st st.
Proof. by repeat split. Qed.

Lemma untouched_trans (st1 st2 st3 : @HandlerManager Handler Transform) :
  untouched st1 st2 -> untouched st2 st3 -> untouched st1 st3.
Proof. unfold untouched. intuition congruence. Qed.

Lemma untouched_callMap c st : untouched st (callMap c st).
Proof. by repeat split. Qed.

Lemma untouched_set_eventsInProgress v st : untouched st (set_eventsInProgress v st).
Proof. by repeat split. Qed.

Lemma untouched_set_inertia v st : untouched st (set_inertia v st).
Proof. by repeat split. Qed.

Lemma untouched_set_updatingCamera v st : untouched st (set_updatingCamera v st).
Proof. by repeat split. Qed.

Lemma untouched_set_bearingChanged v st : untouched st (set_bearingChanged v st).
Proof. by repeat split. Qed.

Create HintDb untouched.

#[local] Hint Resolve untouched_refl untouched_callMap untouched_set_eventsInProgress
  untouched_set_inertia untouched_set_updatingCamera untouched_set_bearingChanged
  : untouched.

Lemma untouched_startStep st entry : untouched st (startStep st entry).
Proof.
  destruct entry as [c data]. unfold startStep, _fireEvent.
  destruct (negb _); eauto using untouched_trans with untouched.
Qed.

Lemma untouched_changeStep st entry : untouched st (changeStep st entry).
Proof. unfold changeStep, _fireEvent. auto with untouched. Qed.

Lemma untouched_fold_startStep new st : untouched st (fold_left startStep new st).
Proof.
  apply fold_left_invariant; [|apply untouched_refl].
  intros a b Ha. eapply untouched_trans; [exact Ha|apply untouched_startStep].
Qed.

Lemma untouched_fireMoveStart new st : untouched st (fireMoveStart new st).
Proof.
  unfold fireMoveStart, _fireEvent.
  destruct (isMoving (_eventsInProgress st)), (isMoving new); auto with untouched.
Qed.

Lemma untouched_fireChange new st : untouched st (fireChange new st).
Proof.
  unfold fireChange. apply fold_left_invariant.
  { intros a b Ha. eapply untouched_trans; [exact Ha|apply untouched_changeStep]. }
  destruct (isSome (Eip.get rotate new)), (isMoving new); unfold _fireEvent;
    eauto using untouched_trans with untouched.
Qed.

Lemma untouched_fireStart new st : untouched st (fireStart new st).
Proof.
  unfold fireStart.
  eauto using untouched_trans, untouched_fireMoveStart, untouched_fold_startStep,
    untouched_fireChange.
Qed.

Lemma untouched_endStep d st ev entry st' ev' :
  endStep d (st, ev) entry = Some (st', ev') -> untouched st st'.
Proof.
  destruct entry as [c data]. unfold endStep, _fireEvent.
  destruct (_handlersById _ _) as [h|]; [|done].
  destruct (negb (isActive h)); intros [= <- <-];
    eauto using untouched_trans with untouched.
Qed.

Lemma untouched_endLoop d l st ev st' ev' :
  foldThrow (endStep d) l (st, ev) = Some (st', ev') -> untouched st st'.
Proof.
  intros Hrun.
  change (untouched st (st', ev').1).
  eapply (foldThrow_invariant (fun acc => untouched st acc.1)); [| |exact Hrun].
  - intros [a ea] b [a' ea'] Ha Hb. simpl in *.
    eapply untouched_trans; [exact Ha|]. eapply untouched_endStep; exact Hb.
  - apply untouched_refl.
Qed.

Lemma untouched_gestureEnd ev st : untouched st (gestureEnd ev st).
Proof.
  unfold gestureEnd, Inertia._onMoveEnd. simpl.
  destruct (moveEnd _ _ _) as [[ease|] buffer]; simpl.
  - by repeat split.
  - destruct (shouldSnapToNorth _ _); by repeat split.
Qed.

Lemma untouched_fireEvents new d st st' :
  _fireEvents new d st = Some st' -> untouched st st'.
Proof.
  unfold _fireEvents.
  destruct (foldThrow _ _ _) as [[st1 ev]|] eqn:Hloop; [|done].
  apply untouched_endLoop in Hloop.
  pose proof (untouched_fireStart new st) as Hstart.
  destruct (_ && _); intros [= <-].
  - eauto using untouched_trans, untouched_gestureEnd.
  - eauto using untouched_trans.
Qed.

(** *** Histories of numbers *)

Lemma last_cons_any {A} (l : list A) (a b c : A) :
  List.last (c :: l) a = List.last (c :: l) b.
Proof.
  revert c. induction l as [|d l IH]; intros c; [done|].
  change (List.last (d :: l) a = List.last (d :: l) b). apply IH.
Qed.

Lemma last_cons_default {A} (l : list A) (a b : A) :
  List.last (b :: l) a = List.last l b.
Proof.
  destruct l as [|c l]; [done|].
  change (List.last (c :: l) a = List.last (c :: l) b). apply last_cons_any.
Qed.

Lemma chain_app R a l1 l2 :
  chain R a l1 -> chain R (List.last l1 a) l2 -> chain R a (l1 ++ l2).
Proof.
  revert a. induction l1 as [|b l1 IH]; intros a H1 H2; [done|].
  destruct H1 as [Hab H1]. split; [done|]. apply IH; [done|].
  by rewrite last_cons_default in H2.
Qed.

Lemma risingsFrom_app a l1 l2 :
  risingsFrom a (l1 ++ l2) = (risingsFrom a l1 + risingsFrom (List.last l1 a) l2)%nat.
Proof.
  revert a. induction l1 as [|b l1 IH]; intros a; [done|].
  rewrite last_cons_default. simpl. rewrite IH. lia.
Qed.

Lemma fallingsFrom_app a l1 l2 :
  fallingsFrom a (l1 ++ l2)
  = (fallingsFrom a l1 + fallingsFrom (List.last l1 a) l2)%nat.
Proof.
  revert a. induction l1 as [|b l1 IH]; intros a; [done|].
  rewrite last_cons_default. simpl. rewrite IH. lia.
Qed.

Lemma last_app_default {A} (l1 l2 : list A) (a : A) :
  List.last (l1 ++ l2) a = List.last l2 (List.last l1 a).
Proof.
  revert a. induction l1 as [|b l1 IH]; intros a; [done|].
  rewrite <- app_comm_cons, !last_cons_default. apply IH.
Qed.

(** A history that never goes down rises at most once, at its start. *)
Lemma chain_le_counts a l :
  chain le a l ->
  (a <= List.last l a)%nat
  /\ risingsFrom a l
     = (if (a =? 0)%nat && negb (List.last l a =? 0)%nat then 1 else 0)%nat
  /\ fallingsFrom a l = 0%nat.
Proof.
  revert a. induction l as [|b l IH]; intros a Hc.
  - simpl. split; [lia|]. split; [|done]. by destruct (a =? 0)%nat.
  - destruct Hc as [Hab Hc]. destruct (IH b Hc) as (Hle & Hr & Hf).
    rewrite last_cons_default. cbn [risingsFrom fallingsFrom]. rewrite Hr, Hf.
    split; [lia|].
    destruct (Nat.eqb_spec a 0), (Nat.eqb_spec b 0),
      (Nat.eqb_spec (List.last l b) 0); simpl; split; lia.
Qed.

(** A history that never goes up falls at most once, at its end. *)
Lemma chain_ge_counts a l :
  chain ge a l ->
  (List.last l a <= a)%nat
  /\ fallingsFrom a l
     = (if negb (a =? 0)%nat && (List.last l a =? 0)%nat then 1 else 0)%nat
  /\ risingsFrom a l = 0%nat.
Proof.
  revert a. induction l as [|b l IH]; intros a Hc.
  - simpl. split; [lia|]. split; [|done]. by destruct (a =? 0)%nat.
  - destruct Hc as [Hab Hc]. destruct (IH b Hc) as (Hle & Hr & Hf).
    rewrite last_cons_default. cbn [risingsFrom fallingsFrom]. rewrite Hr, Hf.
    split; [lia|].
    destruct (Nat.eqb_spec a 0), (Nat.eqb_spec b 0),
      (Nat.eqb_spec (List.last l b) 0); simpl; split; lia.
Qed.

(** *** Loops and their histories *)

Lemma scan_last {A B} (body : A -> B -> A) l a :
  List.last (scan body l a) a = fold_left body l a.
Proof.
  revert a. induction l as [|b l IH]; intros a; [done|].
  cbn [scan fold_left]. rewrite last_cons_default. apply IH.
Qed.

Lemma scanThrow_last {A B} (body : A -> B -> option A) l a a' :
  foldThrow body l a = Some a' -> List.last (scanThrow body l a) a = a'.
Proof.
  revert a. induction l as [|b l IH]; intros a Hrun; simpl in Hrun.
  - by inversion Hrun.
  - cbn [scanThrow]. destruct (body a b) as [a1|]; [|done].
    rewrite last_cons_default. by apply IH.
Qed.

Lemma scan_chain {A B} (R : nat -> nat -> Prop) (f : A -> nat)
  (body : A -> B -> A) l a :
  (forall a b, R (f a) (f (body a b))) ->
  chain R (f a) (map f (scan body l a)).
Proof.
  intros Hbody. revert a. induction l as [|b l IH]; intros a; [done|].
  cbn [scan map chain]. split; [exact (Hbody a b)|apply IH].
Qed.

Lemma scanThrow_chain {A B} (R : nat -> nat -> Prop) (f : A -> nat)
  (body : A -> B -> option A) l a :
  (forall a b a', body a b = Some a' -> R (f a) (f a')) ->
  chain R (f a) (map f (scanThrow body l a)).
Proof.
  intros Hbody. revert a. induction l as [|b l IH]; intros a; [done|].
  cbn [scanThrow]. destruct (body a b) as [a1|] eqn:Hb; [|done].
  cbn [map chain]. split; [exact (Hbody a b a1 Hb)|apply IH].
Qed.

Lemma last_map {A B} (f : A -> B) (l : list A) (a : A) :
  List.last (map f l) (f a) = f (List.last l a).
Proof.
  revert a. induction l as [|b l IH]; intros a; [done|].
  change (map f (b :: l)) with (f b :: map f l).
  rewrite !last_cons_default. apply IH.
Qed.

(** *** Counting the active categories *)

Lemma activeCategories_set c v m :
  (activeCategories m <= activeCategories (Eip.set c v m))%nat
  /\ (0 < activeCategories (Eip.set c v m))%nat.
Proof.
  unfold activeCategories. cbn [List.filter]. rewrite !Eip_get_set.
  destruct c; repeat case_decide; try done;
    destruct (Eip.get zoom m), (Eip.get drag m), (Eip.get pitch m),
      (Eip.get rotate m); simpl; lia.
Qed.

Lemma Eip_get_delete c c' m :
  Eip.get c' (Eip.delete c m) = if decide (c = c') then None else Eip.get c' m.
Proof.
  destruct (decide (c = c')) as [->|Hne].
  - apply Eip_get_delete_eq.
  - by apply Eip_get_delete_ne.
Qed.

Lemma activeCategories_delete c m :
  (activeCategories (Eip.delete c m) <= activeCategories m)%nat.
Proof.
  unfold activeCategories. cbn [List.filter]. rewrite !Eip_get_delete.
  destruct c; repeat case_decide; try done;
    destruct (Eip.get zoom m), (Eip.get drag m), (Eip.get pitch m),
      (Eip.get rotate m); simpl; lia.
Qed.

Lemma isMoving_activeCategories m :
  isSome (isMoving m) = negb (activeCategories m =? 0)%nat.
Proof.
  unfold isMoving, activeCategories. cbn [List.filter].
  destruct (Eip.get zoom m), (Eip.get drag m), (Eip.get pitch m),
    (Eip.get rotate m); done.
Qed.

Lemma isMoving_nonempty m : isSome (isMoving m) = negb (bool_decide (m = [])).
Proof.
  destruct m as [|[c v] m]; [done|].
  unfold isMoving. cbn [Eip.get].
  destruct c; repeat (case_decide; try done); simpl;
    repeat match goal with
           | |- context [Eip.get ?k m] => destruct (Eip.get k m)
           end; done.
Qed.

(** *** Counting the notifications *)

Lemma countCalls_app p l c :
  countCalls p (l ++ [c]) = (countCalls p l + if p c then 1 else 0)%nat.
Proof. induction l as [|d l IH]; simpl; [lia|]. rewrite IH. lia. Qed.

Lemma count_callMap p c st :
  countCalls p (calls (_map (callMap c st)))
  = (countCalls p (calls (_map st)) + if p c then 1 else 0)%nat.
Proof. apply countCalls_app. Qed.

Lemma quiet_refl (st : @HandlerManager Handler Transform) : quiet st st.
Proof. done. Qed.

Lemma quiet_trans (st1 st2 st3 : @HandlerManager Handler Transform) :
  quiet st1 st2 -> quiet st2 st3 -> quiet st1 st3.
Proof. unfold quiet. intuition congruence. Qed.

Lemma quiet_callMap c st :
  isFire "movestart" c = false -> isFire "moveend" c = false -> isEaseTo c = false ->
  quiet st (callMap c st).
Proof.
  intros H1 H2 H3. unfold quiet, movestarts, moveends.
  rewrite !count_callMap, H1, H2, H3. simpl. lia.
Qed.

Lemma quiet_startStep st entry : quiet st (startStep st entry).
Proof.
  destruct entry as [c data]. unfold startStep, _fireEvent.
  destruct (negb _); [|done].
  eapply quiet_trans; [|apply quiet_callMap; by destruct c]. done.
Qed.

Lemma eip_startStep st entry :
  _eventsInProgress (startStep st entry)
  = Eip.set entry.1 entry.2 (_eventsInProgress st).
Proof. destruct entry as [c data]. unfold startStep. by destruct (negb _). Qed.

Lemma quiet_changeStep st entry : quiet st (changeStep st entry).
Proof.
  destruct entry as [c data]. unfold changeStep, _fireEvent.
  apply quiet_callMap; by destruct c.
Qed.

Lemma eip_changeStep st entry :
  _eventsInProgress (changeStep st entry) = _eventsInProgress st.
Proof. done. Qed.

Lemma fireChange_quiet new st :
  quiet st (fireChange new st)
  /\ _eventsInProgress (fireChange new st) = _eventsInProgress st.
Proof.
  unfold fireChange.
  apply (fold_left_invariant
           (fun s => quiet st s /\ _eventsInProgress s = _eventsInProgress st)).
  - intros a b [Hq He]. split.
    + eapply quiet_trans; [exact Hq|apply quiet_changeStep].
    + by rewrite eip_changeStep.
  - destruct (isSome (Eip.get rotate new)), (isMoving new); unfold _fireEvent;
      (split; [|done]); try done;
      by (eapply quiet_trans; [|apply quiet_callMap]).
Qed.

Lemma fireMoveStart_counts new st :
  movestarts (fireMoveStart new st)
  = (movestarts st
     + if negb (isSome (isMoving (_eventsInProgress st))) && isSome (isMoving new)
       then 1 else 0)%nat
  /\ moveends (fireMoveStart new st) = moveends st
  /\ _eventsInProgress (fireMoveStart new st) = _eventsInProgress st.
Proof.
  unfold fireMoveStart, _fireEvent, movestarts, moveends.
  destruct (isMoving (_eventsInProgress st)), (isMoving new);
    rewrite ?count_callMap; simpl; split_and!; try done; lia.
Qed.

Lemma endStep_quiet d st ev entry st' ev' :
  endStep d (st, ev) entry = Some (st', ev') ->
  quiet st st'
  /\ (_eventsInProgress st' = _eventsInProgress st
      \/ _eventsInProgress st' = Eip.delete entry.1 (_eventsInProgress st)).
Proof.
  destruct entry as [c data]. unfold endStep, _fireEvent.
  destruct (_handlersById _ _) as [h|]; [|done].
  destruct (negb (isActive h)); intros [= <- <-].
  - split; [|by right].
    eapply quiet_trans; [|apply quiet_callMap; by destruct c]. done.
  - split; [done|by left].
Qed.

Lemma endLoop_quiet d l st ev st' ev' :
  foldThrow (endStep d) l (st, ev) = Some (st', ev') -> quiet st st'.
Proof.
  intros Hrun. change (quiet st (st', ev').1).
  eapply (foldThrow_invariant (fun acc => quiet st acc.1)); [| |exact Hrun].
  - intros [a ea] b [a' ea'] Ha Hb. simpl in *.
    eapply quiet_trans; [exact Ha|]. eapply endStep_quiet; exact Hb.
  - apply quiet_refl.
Qed.

Lemma gestureEnd_counts ev st :
  movestarts (gestureEnd ev st) = movestarts st
  /\ moveends (gestureEnd ev st) = S (moveends st)
  /\ _eventsInProgress (gestureEnd ev st) = _eventsInProgress st.
Proof.
  unfold gestureEnd, Inertia._onMoveEnd, movestarts, moveends. simpl.
  destruct (moveEnd _ _ _) as [[ease|] buffer]; simpl.
  - rewrite !countCalls_app. simpl. split_and!; try done; lia.
  - destruct (shouldSnapToNorth _ _); simpl;
      rewrite !countCalls_app; simpl; split_and!; try done; lia.
Qed.

(** *** The history of one call *)

Lemma startLoop_history new st :
  quiet st (fold_left startStep new st)
  /\ chain le (activeCategories (_eventsInProgress st))
       (map activeCategories (map _eventsInProgress (scan startStep new st)))
  /\ (new <> [] ->
      (0 < activeCategories (_eventsInProgress (fold_left startStep new st)))%nat)
  /\ (new = [] -> fold_left startStep new st = st).
Proof.
  split_and!.
  - apply fold_left_invariant; [|apply quiet_refl].
    intros a b Ha. eapply quiet_trans; [exact Ha|apply quiet_startStep].
  - rewrite map_map.
    apply (scan_chain le (fun s => activeCategories (_eventsInProgress s))).
    intros a b. cbv beta. rewrite eip_startStep. apply activeCategories_set.
  - intros Hne. rewrite <- scan_last.
    destruct new as [|b new]; [done|]. cbn [scan].
    rewrite last_cons_default.
    pose proof (scan_chain le (fun s => activeCategories (_eventsInProgress s))
                  startStep new (startStep st b)) as Hc.
    specialize (Hc ltac:(intros a' b'; cbv beta; rewrite eip_startStep;
                         apply activeCategories_set)).
    apply chain_le_counts in Hc as [Hle _].
    rewrite (last_map (fun s => activeCategories (_eventsInProgress s))) in Hle.
    pose proof (activeCategories_set b.1 b.2 (_eventsInProgress st)) as [_ Hpos].
    rewrite <- eip_startStep in Hpos. lia.
  - by intros ->.
Qed.

Lemma endLoop_history d l st ev st' ev' :
  foldThrow (endStep d) l (st, ev) = Some (st', ev') ->
  chain ge (activeCategories (_eventsInProgress st))
    (map activeCategories
       (map (fun acc => _eventsInProgress acc.1) (scanThrow (endStep d) l (st, ev))))
  /\ List.last
       (map activeCategories
          (map (fun acc => _eventsInProgress acc.1)
             (scanThrow (endStep d) l (st, ev))))
       (activeCategories (_eventsInProgress st))
     = activeCategories (_eventsInProgress st').
Proof.
  intros Hrun. rewrite map_map. split.
  - apply (scanThrow_chain ge
             (fun acc : HandlerManager * option Event =>
                activeCategories (_eventsInProgress acc.1))
             (endStep d) l (st, ev)).
    intros [a ea] b [a' ea'] Hb. cbv beta. simpl.
    apply endStep_quiet in Hb as [_ [->| ->]]; [lia|].
    apply activeCategories_delete.
  - rewrite (last_map
               (fun acc : HandlerManager * option Event =>
                  activeCategories (_eventsInProgress acc.1)) _ (st, ev)).
    by rewrite (scanThrow_last _ _ _ _ Hrun).
Qed.

(** One call of [_fireEvents]: the [movestart] notifications it sends are
    the rises of the history of the events-in-progress object during the
    call, and the ends of move it sends are the falls. *)
Lemma fireEvents_history new d st st' :
  _fireEvents new d st = Some st' ->
  movestarts st'
  = (movestarts st
     + risingsFrom (activeCategories (_eventsInProgress st))
         (map activeCategories (fireSteps new d st)))%nat
  /\ moveends st'
     = (moveends st
        + fallingsFrom (activeCategories (_eventsInProgress st))
            (map activeCategories (fireSteps new d st)))%nat
  /\ List.last (map activeCategories (fireSteps new d st))
       (activeCategories (_eventsInProgress st))
     = activeCategories (_eventsInProgress st').
Proof.
  unfold _fireEvents, fireSteps, fireStart.
  pose proof (fireMoveStart_counts new st) as (Hms1 & Hme1 & He1).
  set (st1 := fireMoveStart new st) in *.
  pose proof (startLoop_history new st1) as ([Hms2 Hme2] & Hc2 & Hpos2 & Hnil2).
  pose proof (scan_last startStep new st1) as Hlast2.
  set (st2 := fold_left startStep new st1) in *.
  pose proof (fireChange_quiet new st2) as ([Hms3 Hme3] & He3).
  set (st3 := fireChange new st2) in *.
  destruct (foldThrow _ _ (st3, None)) as [[st4 ev]|] eqn:Hloop; [|done].
  pose proof (endLoop_quiet _ _ _ _ _ _ Hloop) as [Hms4 Hme4].
  pose proof (endLoop_history _ _ _ _ _ _ Hloop) as [Hc4 Hlast4].
  set (T2 := map activeCategories
               (map (fun acc : HandlerManager * option Event =>
                       _eventsInProgress acc.1) _)) in *.
  rewrite He3 in Hc4, Hlast4.
  set (a0 := activeCategories (_eventsInProgress st)) in *.
  set (a1 := activeCategories (_eventsInProgress st2)) in *.
  set (a2 := activeCategories (_eventsInProgress st4)) in *.
  set (T1 := map activeCategories (map _eventsInProgress (scan startStep new st1)))
    in *.
  rewrite He1 in Hc2. fold a0 in Hc2.
  assert (Hl1 : List.last T1 a0 = a1).
  { unfold T1, a0, a1. rewrite <- He1. rewrite map_map.
    rewrite (last_map (fun s => activeCategories (_eventsInProgress s))).
    by rewrite Hlast2. }
  apply chain_le_counts in Hc2 as (Hle1 & Hr1 & Hf1).
  apply chain_ge_counts in Hc4 as (Hle2 & Hf2 & Hr2).
  rewrite Hl1 in Hle1, Hr1. rewrite Hlast4 in Hle2, Hf2.
  rewrite map_app. fold T1. fold T2.
  rewrite risingsFrom_app, fallingsFrom_app, last_app_default, Hl1.
  rewrite Hr1, Hf1, Hr2, Hf2, Hlast4.
  assert (Hwas : isSome (isMoving (_eventsInProgress st)) = negb (a0 =? 0)%nat)
    by apply isMoving_activeCategories.
  assert (Hnow : isSome (isMoving new) = negb (bool_decide (new = [])))
    by apply isMoving_nonempty.
  assert (Ha1 : (a1 =? 0)%nat = (a0 =? 0)%nat && bool_decide (new = [])).
  { destruct (decide (new = [])) as [Hn|Hn].
    - rewrite (bool_decide_eq_true_2 _ Hn), andb_true_r.
      unfold a1. rewrite (Hnil2 Hn), He1. done.
    - rewrite (bool_decide_eq_false_2 _ Hn), andb_false_r.
      specialize (Hpos2 Hn). fold a1 in Hpos2.
      destruct (Nat.eqb_spec a1 0); [lia|done]. }
  assert (Hcond :
    (isSome (isMoving (_eventsInProgress st)) || isSome (isMoving new))
    && negb (isSome (isMoving (_eventsInProgress st4)))
    = negb (a1 =? 0)%nat && (a2 =? 0)%nat).
  { rewrite Hwas, Hnow, Ha1, (isMoving_activeCategories (_eventsInProgress st4)).
    fold a2. destruct (a0 =? 0)%nat, (bool_decide (new = [])), (a2 =? 0)%nat; done. }
  rewrite Hcond.
  assert (Hstart :
    (if negb (isSome (isMoving (_eventsInProgress st))) && isSome (isMoving new)
     then 1 else 0)%nat
    = (if (a0 =? 0)%nat && negb (a1 =? 0)%nat then 1 else 0)%nat).
  { rewrite Hwas, Hnow, Ha1.
    destruct (a0 =? 0)%nat, (bool_decide (new = [])); done. }
  rewrite Hstart in Hms1.
  destruct (negb (a1 =? 0)%nat && (a2 =? 0)%nat) eqn:Hend; intros [= <-].
  - pose proof (gestureEnd_counts ev st4) as (Hms5 & Hme5 & He5).
    rewrite Hms5, Hme5, He5. fold a2. split_and!; [lia|lia|done].
  - fold a2. split_and!; [lia|lia|done].
Qed.

Lemma countCalls_app_list p l1 l2 :
  countCalls p (l1 ++ l2) = (countCalls p l1 + countCalls p l2)%nat.
Proof. induction l1 as [|c l1 IH]; simpl; [done|]. rewrite IH. lia. Qed.

Lemma countCalls_other p (others : list OtherCall) :
  (forall o, p (otherCall o) = false) ->
  countCalls p (map otherCall others) = 0%nat.
Proof.
  intros Hp. induction others as [|o others IH]; simpl; [done|].
  by rewrite Hp, IH.
Qed.

Lemma resume_counts fc st :
  movestarts (resume fc st) = movestarts st
  /\ moveends (resume fc st) = moveends st
  /\ _eventsInProgress (resume fc st) = _eventsInProgress st.
Proof.
  unfold movestarts, moveends, resume. simpl.
  rewrite !countCalls_app_list, !countCalls_other by (by intros []).
  split_and!; [lia|lia|done].
Qed.

Lemma fireCalls_history fcs st st' :
  fireCalls fcs st = Some st' ->
  movestarts st'
  = (movestarts st
     + risingsFrom (activeCategories (_eventsInProgress st))
         (map activeCategories (fireCallsSteps fcs st)))%nat
  /\ moveends st'
     = (moveends st
        + fallingsFrom (activeCategories (_eventsInProgress st))
            (map activeCategories (fireCallsSteps fcs st)))%nat.
Proof.
  revert st. induction fcs as [|fc fcs IH]; intros st Hrun.
  - inversion Hrun; subst. simpl. split; lia.
  - unfold fireCalls in Hrun. cbn [foldThrow] in Hrun. cbn [fireCallsSteps].
    destruct (fireCall st fc) as [st1|] eqn:Hcall; [|done].
    apply IH in Hrun as [Hms Hme].
    unfold fireCall in Hcall.
    apply fireEvents_history in Hcall as (Hms1 & Hme1 & Hlast).
    destruct (resume_counts fc st) as (Hrs & Hre & Hri).
    rewrite Hrs, Hre, Hri in *.
    rewrite map_app, risingsFrom_app, fallingsFrom_app, Hlast.
    split; lia.
Qed.

(** C5.  Over a run of calls of [_fireEvents] that complete, each made in
    an arbitrary manager apart from the events-in-progress object, which the
    calls hand on, and from the record of the map, which grows in between
    by the other calls of the manager only: the [movestart] notifications
    sent are as many as the steps of the events-in-progress object from no
    category to one or more, and the ends of move sent (a [moveend]
    notification or an ease, never both) are as many as its steps back to
    no category. *)
Theorem lifecycle_transitions (fcs : list (@FireCall Handler Transform))
  (st st' : @HandlerManager Handler Transform) :
  fireCalls fcs st = Some st' ->
  movestarts st' = (movestarts st + risings (fireCallsTrace fcs st))%nat
  /\ moveends st' = (moveends st + fallings (fireCallsTrace fcs st))%nat.
Proof. apply fireCalls_history. Qed.

(** *** The lifecycle step does not throw on registered owners *)

Lemma foldThrow_succeeds {A B} (P : A -> Prop) (Q : B -> Prop)
  (body : A -> B -> option A) l a :
  (forall a b, P a -> Q b -> exists a', body a b = Some a' /\ P a') ->
  P a -> Forall Q l -> exists a', foldThrow body l a = Some a' /\ P a'.
Proof.
  intros Hbody. revert a. induction l as [|b l IH]; intros a Ha Hl.
  - exists a. done.
  - apply Forall_cons in Hl as [Hb Hl].
    destruct (Hbody a b Ha Hb) as (a1 & Hstep & Ha1).
    simpl. rewrite Hstep. by apply IH.
Qed.

Lemma ownersRegistered_set handlers c v m :
  is_Some (_handlersById handlers (handlerName v)) ->
  ownersRegistered handlers m -> ownersRegistered handlers (Eip.set c v m).
Proof.
  intros Hv. unfold ownersRegistered.
  induction m as [|[k w] m IH]; intros Hm; simpl.
  - by apply Forall_cons.
  - apply Forall_cons in Hm as [Hw Hm].
    destruct (decide (k = c)); apply Forall_cons; auto.
Qed.

Lemma ownersRegistered_delete handlers c m :
  ownersRegistered handlers m -> ownersRegistered handlers (Eip.delete c m).
Proof.
  unfold ownersRegistered. induction m as [|[k w] m IH]; intros Hm; simpl; [done|].
  apply Forall_cons in Hm as [Hw Hm].
  destruct (decide (k = c)); [auto|apply Forall_cons; auto].
Qed.

Lemma fireStart_registered new st :
  ownersRegistered (_handlers st) (_eventsInProgress st) ->
  ownersRegistered (_handlers st) new ->
  ownersRegistered (_handlers (fireStart new st)) (_eventsInProgress (fireStart new st)).
Proof.
  intros Hst Hnew.
  destruct (untouched_fireStart new st) as (-> & _).
  unfold fireStart.
  destruct (fireChange_quiet new (fold_left startStep new (fireMoveStart new st)))
    as [_ ->].
  destruct (fireMoveStart_counts new st) as (_ & _ & He).
  rewrite <- He in Hst. revert Hst. generalize (fireMoveStart new st) as st1.
  clear He. induction new as [|b new IH]; intros st1 Hst; [done|].
  apply Forall_cons in Hnew as [Hb Hnew]. cbn [fold_left].
  apply IH; [done|]. rewrite eip_startStep. by apply ownersRegistered_set.
Qed.

Lemma endLoop_succeeds d l st ev :
  ownersRegistered (_handlers st) l ->
  ownersRegistered (_handlers st) (_eventsInProgress st) ->
  exists st' ev',
    foldThrow (endStep d) l (st, ev) = Some (st', ev')
    /\ ownersRegistered (_handlers st') (_eventsInProgress st').
Proof.
  intros Hl Hst.
  destruct (foldThrow_succeeds
    (fun acc : HandlerManager * option Event =>
       _handlers acc.1 = _handlers st
       /\ ownersRegistered (_handlers st) (_eventsInProgress acc.1))
    (fun entry : Category * EventData =>
       is_Some (_handlersById (_handlers st) (handlerName entry.2)))
    (endStep d) l (st, ev)) as ([st' ev'] & Hrun & Hh & Hreg); [| |exact Hl|].
  - intros [a ea] [c data] [Hh Hreg] [h Hb]. simpl in *.
    unfold endStep. rewrite Hh, Hb.
    destruct (negb (isActive h)); eexists; (split; [done|]); simpl; split;
      auto using ownersRegistered_delete.
  - done.
  - exists st', ev'. simpl in *. by rewrite Hh.
Qed.

Lemma gestureEnd_registered ev st :
  _handlers (gestureEnd ev st) = _handlers st
  /\ _eventsInProgress (gestureEnd ev st) = _eventsInProgress st.
Proof.
  split; [apply untouched_gestureEnd|apply gestureEnd_counts].
Qed.

Lemma fireEvents_succeeds new d st :
  ownersRegistered (_handlers st) (_eventsInProgress st) ->
  ownersRegistered (_handlers st) new ->
  exists st',
    _fireEvents new d st = Some st'
    /\ ownersRegistered (_handlers st') (_eventsInProgress st').
Proof.
  intros Hst Hnew. unfold _fireEvents.
  pose proof (fireStart_registered new st Hst Hnew) as Hreg.
  destruct (endLoop_succeeds d _ _ None Hreg Hreg) as (st1 & ev & -> & Hreg1).
  destruct (_ && _); eexists; (split; [done|]); [|done].
  destruct (gestureEnd_registered ev st1) as [-> ->]. done.
Qed.

(** *** Bearing snap at the end of a gesture *)

Lemma calm_refl (st : @HandlerManager Handler Transform) : calm st st.
Proof. done. Qed.

Lemma calm_trans (st1 st2 st3 : @HandlerManager Handler Transform) :
  calm st1 st2 -> calm st2 st3 -> calm st1 st3.
Proof. unfold calm. intuition congruence. Qed.

Lemma calm_fire type e st : calm st (_fireEvent type e st).
Proof.
  unfold calm, _fireEvent. rewrite !count_callMap. simpl. split_and!; [done|lia|lia].
Qed.

Lemma calm_startStep st entry : calm st (startStep st entry).
Proof.
  destruct entry as [c data]. unfold startStep.
  destruct (negb _); [|done].
  eapply calm_trans; [|apply calm_fire]. done.
Qed.

Lemma calm_fireStart new st : calm st (fireStart new st).
Proof.
  unfold fireStart, fireChange.
  apply fold_left_invariant.
  { intros a b Ha. eapply calm_trans; [exact Ha|apply calm_fire]. }
  assert (H1 : calm st (fold_left startStep new (fireMoveStart new st))).
  { apply fold_left_invariant.
    - intros a b Ha. eapply calm_trans; [exact Ha|apply calm_startStep].
    - unfold fireMoveStart.
      destruct (isMoving (_eventsInProgress st)), (isMoving new);
        auto using calm_refl, calm_fire. }
  revert H1. generalize (fold_left startStep new (fireMoveStart new st)).
  intros st2 H2.
  destruct (isSome (Eip.get rotate new)), (isMoving new);
    (eapply calm_trans; [exact H2|]);
    first [ done | apply calm_fire | eapply calm_trans; [|apply calm_fire]; done ].
Qed.

Lemma calm_endLoop d l st ev st' ev' :
  foldThrow (endStep d) l (st, ev) = Some (st', ev') -> calm st st'.
Proof.
  intros Hrun. change (calm st (st', ev').1).
  eapply (foldThrow_invariant (fun acc => calm st acc.1)); [| |exact Hrun].
  - intros [a ea] [c data] [a' ea'] Ha Hb. simpl in *.
    eapply calm_trans; [exact Ha|]. unfold endStep in Hb.
    destruct (_handlersById _ _) as [h|]; [|done].
    destruct (negb (isActive h)); injection Hb as <- <-; [|done].
    eapply calm_trans; [|apply calm_fire]. done.
  - apply calm_refl.
Qed.

Lemma shouldSnapToNorth_spec bearingSnap b :
  shouldSnapToNorth bearingSnap b = bool_decide (withinSnap bearingSnap b).
Proof.
  unfold shouldSnapToNorth, withinSnap.
  destruct (Z.eqb_spec b 0), (Z.ltb_spec (- bearingSnap) b),
    (Z.ltb_spec b bearingSnap); simpl; symmetry;
    first [ apply bool_decide_eq_true_2; lia | apply bool_decide_eq_false_2; lia ].
Qed.

(** The calls of the body of the gesture end. *)
Lemma gestureEnd_calls ev st :
  calls (_map (gestureEnd ev st))
  = calls (_map st)
    ++ match (Inertia._onMoveEnd (inertiaOptions (_map st)) (now (_map st))
                (_inertia st)).1 with
       | Some ease =>
           [EaseTo
              (if decide
                    (withinSnap (_bearingSnap st)
                       (finalBearing (Some ease) (getBearing (transform (_map st)))))
               then mkEase (Some 0) (ease_rest ease)
               else ease)
              ev]
       | None =>
           Fire "moveend" ev
           :: (if decide
                    (withinSnap (_bearingSnap st)
                       (finalBearing None (getBearing (transform (_map st)))))
               then [ResetNorth]
               else [])
       end.
Proof.
  unfold gestureEnd, Inertia._onMoveEnd. cbn [fst].
  destruct (moveEnd _ _ _) as [[ease|] buffer]; simpl.
  - f_equal. f_equal. f_equal.
    rewrite shouldSnapToNorth_spec. unfold easeBearingOr.
    destruct ease as [[b|] rest]; simpl.
    + destruct (Z.eqb_spec b 0) as [->|Hb].
      * rewrite (decide_False (P := withinSnap _ 0)) by (unfold withinSnap; lia).
        by destruct (bool_decide _).
      * by destruct (decide _);
          [rewrite bool_decide_eq_true_2|rewrite bool_decide_eq_false_2].
    + by destruct (decide _);
        [rewrite bool_decide_eq_true_2|rewrite bool_decide_eq_false_2].
  - rewrite shouldSnapToNorth_spec.
    destruct (decide _);
      [rewrite bool_decide_eq_true_2 by done|rewrite bool_decide_eq_false_2 by done];
      simpl; by rewrite <- ?app_assoc.
Qed.

(** C7.  When a call of [_fireEvents] ends a gesture, the map receives
    after the calls made so far either one ease, when the tracker yields a
    target: towards the target with the bearing 0 and the rest of it as the
    tracker gave it when the final bearing (the bearing of the target, or
    that of the map when the target has none) is not 0 but less than the
    tolerance away from it, and towards the target as it is otherwise; or,
    when the tracker yields no target, [moveend] followed by one
    [resetNorth] when the bearing of the map is not 0 but less than the
    tolerance away from it, and [moveend] alone otherwise.  Nothing before
    that is an ease or a [resetNorth] of this call. *)
Theorem bearing_snap_at_gesture_end (new : EventsInProgress)
  (d : gmap string (option Event)) (st st' : @HandlerManager Handler Transform) :
  _fireEvents new d st = Some st' ->
  isSome (isMoving (_eventsInProgress st)) || isSome (isMoving new) = true ->
  isMoving (_eventsInProgress st') = None ->
  exists (before : list MapCall) (ev : option Event),
    countCalls isEaseTo before = countCalls isEaseTo (calls (_map st))
    /\ countCalls isResetNorth before = countCalls isResetNorth (calls (_map st))
    /\ calls (_map st')
       = before
         ++ match (Inertia._onMoveEnd (inertiaOptions (_map st)) (now (_map st))
                     (_inertia st)).1 with
            | Some ease =>
                [EaseTo
                   (if decide
                         (withinSnap (_bearingSnap st)
                            (finalBearing (Some ease)
                               (getBearing (transform (_map st)))))
                    then mkEase (Some 0) (ease_rest ease)
                    else ease)
                   ev]
            | None =>
                Fire "moveend" ev
                :: (if decide
                         (withinSnap (_bearingSnap st)
                            (finalBearing None (getBearing (transform (_map st)))))
                    then [ResetNorth]
                    else [])
            end.
Proof.
  unfold _fireEvents. intros Hrun Hmoving Hstill.
  destruct (foldThrow _ _ _) as [[st4 ev]|] eqn:Hloop; [|done].
  pose proof (untouched_fireStart new st) as Hu1.
  pose proof (untouched_endLoop _ _ _ _ _ _ Hloop) as Hu2.
  pose proof (untouched_trans _ _ _ Hu1 Hu2)
    as (_ & _ & _ & _ & Hsnap & Htr & _ & _ & Hnow & Hopt).
  pose proof (calm_trans _ _ _ (calm_fireStart new st)
                (calm_endLoop _ _ _ _ _ _ Hloop)) as (Hin & Hease & Hnorth).
  rewrite Hmoving in Hrun. simpl in Hrun.
  destruct (isSome (isMoving (_eventsInProgress st4))) eqn:H4; simpl in Hrun;
    injection Hrun as <-.
  - rewrite Hstill in H4. done.
  - exists (calls (_map st4)), ev. split_and!; [done|done|].
    rewrite gestureEnd_calls, Hsnap, Htr, Hnow, Hopt, Hin. done.
Qed.

(** *** The anchor of the transform update *)

Lemma mag_zero p : Point.mag p = 0 -> p = Point.zero.
Proof.
  destruct p as [px py]. unfold Point.mag, Point.zero. simpl. intros Hmag.
  assert (px * px + py * py <= 0) as Hsq.
  { destruct (Z.sqrt_spec_alt (px * px + py * py)) as (r & Hr & Hrr); [nia|].
    rewrite Hmag in *. lia. }
  assert (px = 0) by nia. assert (py = 0) by nia. by subst.
Qed.

Lemma Point_sub_zero p : Point.sub p Point.zero = p.
Proof. destruct p. unfold Point.sub, Point.zero. simpl. f_equal; lia. Qed.

(** Under the anchor the transform update puts the location that was under
    the anchor less the pan delta. *)
Lemma updateTransform_anchor (combined : HandlerResult) (tr : Transform) :
  (forall tr loc q, pointLocation (setLocationAtPoint loc q tr) q = loc) ->
  pointLocation (updateTransform combined tr) (anchorPoint combined tr)
  = pointLocation tr
      match panDelta combined with
      | Some d => Point.sub (anchorPoint combined tr) d
      | None => anchorPoint combined tr
      end.
Proof. intros Hinverse. unfold updateTransform. by rewrite Hinverse. Qed.

(** C1.  Given that [pointLocation] gives back the location
    [setLocationAtPoint] has put under a point: when the pinch anchor of the
    combined result of a flush is the point [p], whatever its anchor is, or
    it has no pinch anchor and its anchor is the point [p],
    [_updateMapTransform] completes, and the location under [p] after it is
    the location that was under [p] before it, or under [p] less the pan
    delta when there is one. *)
Theorem anchor_preserved (combined : HandlerResult)
  (combinedEventsInProgress : EventsInProgress)
  (deactivatedHandlers : gmap string (option Event))
  (st : @HandlerManager Handler Transform) (p : Point.t) :
  (forall (tr : Transform) (loc : LngLat) (q : Point.t),
     pointLocation (setLocationAtPoint loc q tr) q = loc) ->
  pinchAround combined = At p
  \/ (pinchAround combined = Undefined /\ around combined = At p) ->
  ownersRegistered (_handlers st) (_eventsInProgress st) ->
  ownersRegistered (_handlers st) combinedEventsInProgress ->
  exists st',
    _updateMapTransform combined combinedEventsInProgress deactivatedHandlers st
    = Some st'
    /\ pointLocation (transform (_map st')) p
       = pointLocation (transform (_map st))
           match panDelta combined with
           | Some d => Point.sub p d
           | None => p
           end.
Proof.
  intros Hinverse Hgiven Hst Hnew.
  assert (Hp : resolveAround combined = At p).
  { unfold resolveAround. by destruct Hgiven as [->|[-> ->]]. }
  unfold _updateMapTransform.
  destruct (hasChange combined) eqn:Hchange; simpl.
  - match goal with
    | |- exists st', _fireEvents _ _ ?s = _ /\ _ =>
        destruct (fireEvents_succeeds combinedEventsInProgress deactivatedHandlers s)
          as (st' & Hrun & _)
    end.
    { by destruct (truthyBool (noInertia combined)). }
    { by destruct (truthyBool (noInertia combined)). }
    exists st'. split; [done|].
    apply untouched_fireEvents in Hrun as (_ & _ & _ & _ & _ & -> & _).
    assert (Hanchor : forall tr : Transform, anchorPoint combined tr = p).
    { intros tr. unfold anchorPoint. by rewrite Hp. }
    destruct (truthyBool (noInertia combined)); simpl;
      rewrite <- (Hanchor (transform (_map st))) at 1;
      rewrite (updateTransform_anchor _ _ Hinverse), Hanchor; done.
  - destruct (fireEvents_succeeds combinedEventsInProgress deactivatedHandlers st
                Hst Hnew) as (st' & Hrun & _).
    exists st'. split; [done|].
    apply untouched_fireEvents in Hrun as (_ & _ & _ & _ & _ & -> & _).
    destruct (panDelta combined) as [d|] eqn:Hpan; [|done].
    unfold hasChange in Hchange. rewrite Hpan in Hchange.
    apply orb_false_elim in Hchange as [Hchange _].
    apply orb_false_elim in Hchange as [Hchange _].
    apply orb_false_elim in Hchange as [Hchange _].
    apply negb_false_iff, Z.eqb_eq, mag_zero in Hchange. subst d.
    by rewrite Point_sub_zero.
Qed.

(** *** Frame requests *)

Lemma frameNeutral_refl (st : @HandlerManager Handler Transform) : frameNeutral st st.
Proof. done. Qed.

Lemma frameNeutral_trans (st1 st2 st3 : @HandlerManager Handler Transform) :
  frameNeutral st1 st2 -> frameNeutral st2 st3 -> frameNeutral st1 st3.
Proof. unfold frameNeutral. intuition congruence. Qed.

Lemma frameNeutral_callMap c st :
  isRequestRenderFrame c = false -> frameNeutral st (callMap c st).
Proof.
  intros Hc. unfold frameNeutral, requests. rewrite count_callMap, Hc.
  split_and!; [done|done|lia].
Qed.

Lemma frameNeutral_startStep st entry : frameNeutral st (startStep st entry).
Proof.
  destruct entry as [c data]. unfold startStep, _fireEvent.
  destruct (negb _); [|done].
  eapply frameNeutral_trans; [|by apply frameNeutral_callMap]. done.
Qed.

Lemma frameNeutral_fireStart new st : frameNeutral st (fireStart new st).
Proof.
  unfold fireStart, fireChange.
  apply fold_left_invariant.
  { intros a b Ha. eapply frameNeutral_trans; [exact Ha|].
    by apply frameNeutral_callMap. }
  assert (H1 : frameNeutral st (fold_left startStep new (fireMoveStart new st))).
  { apply fold_left_invariant.
    - intros a b Ha. eapply frameNeutral_trans; [exact Ha|].
      apply frameNeutral_startStep.
    - unfold fireMoveStart, _fireEvent.
      destruct (isMoving (_eventsInProgress st)), (isMoving new);
        first [done | by apply frameNeutral_callMap]. }
  revert H1. generalize (fold_left startStep new (fireMoveStart new st)).
  intros st2 H2. unfold _fireEvent.
  destruct (isSome (Eip.get rotate new)), (isMoving new);
    (eapply frameNeutral_trans; [exact H2|]);
    first [ done
          | by apply frameNeutral_callMap
          | eapply frameNeutral_trans; [|by apply frameNeutral_callMap]; done ].
Qed.

Lemma frameNeutral_endLoop d l st ev st' ev' :
  foldThrow (endStep d) l (st, ev) = Some (st', ev') -> frameNeutral st st'.
Proof.
  intros Hrun. change (frameNeutral st (st', ev').1).
  eapply (foldThrow_invariant (fun acc => frameNeutral st acc.1)); [| |exact Hrun].
  - intros [a ea] [c data] [a' ea'] Ha Hb. simpl in *.
    eapply frameNeutral_trans; [exact Ha|]. unfold endStep, _fireEvent in Hb.
    destruct (_handlersById _ _) as [h|]; [|done].
    destruct (negb (isActive h)); injection Hb as <- <-; [|done].
    eapply frameNeutral_trans; [|by apply frameNeutral_callMap]. done.
  - apply frameNeutral_refl.
Qed.

Lemma frameNeutral_gestureEnd ev st : frameNeutral st (gestureEnd ev st).
Proof.
  unfold gestureEnd, Inertia._onMoveEnd, frameNeutral, requests. simpl.
  destruct (moveEnd _ _ _) as [[ease|] buffer]; simpl.
  - rewrite countCalls_app. simpl. split_and!; [done|done|lia].
  - destruct (shouldSnapToNorth _ _); simpl; rewrite !countCalls_app; simpl;
      split_and!; try done; lia.
Qed.

Lemma frameNeutral_fireEvents new d st st' :
  _fireEvents new d st = Some st' -> frameNeutral st st'.
Proof.
  unfold _fireEvents.
  destruct (foldThrow _ _ _) as [[st1 ev]|] eqn:Hloop; [|done].
  apply frameNeutral_endLoop in Hloop.
  pose proof (frameNeutral_fireStart new st) as Hstart.
  destruct (_ && _); intros [= <-];
    eauto using frameNeutral_trans, frameNeutral_gestureEnd.
Qed.

Lemma frameStep_neutral (st st' : @HandlerManager Handler Transform) :
  frameNeutral st st' -> frameStep st st'.
Proof.
  intros (Hid & Hframes & Hreq). unfold frameStep, frameInvariant.
  rewrite Hid, Hframes, Hreq. split; [done|lia].
Qed.

Lemma frameStep_trans (st1 st2 st3 : @HandlerManager Handler Transform) :
  frameStep st1 st2 -> frameStep st2 st3 -> frameStep st1 st3.
Proof. unfold frameStep. intros [Hi1 Hr1] [Hi2 Hr2]. split; [auto|lia]. Qed.

(** [_triggerRenderFrame] makes a request only when the token is unset. *)
Lemma triggerRenderFrame_spec st :
  match _frameId st with
  | Some _ => _triggerRenderFrame st = st
  | None =>
      _frameId (_triggerRenderFrame st) = Some (nextFrame (_map st))
      /\ frames (_map (_triggerRenderFrame st))
         = frames (_map st) ++ [nextFrame (_map st)]
      /\ requests (_triggerRenderFrame st) = S (requests st)
  end.
Proof.
  unfold _triggerRenderFrame, requests. destruct (_frameId st); [done|].
  simpl. rewrite countCalls_app. simpl. split_and!; [done|done|lia].
Qed.

Lemma frameStep_trigger st : frameStep st (_triggerRenderFrame st).
Proof.
  pose proof (triggerRenderFrame_spec st) as Hspec.
  unfold frameStep, frameInvariant.
  destruct (_frameId st) as [id|] eqn:Hid.
  - rewrite Hspec, Hid. split; [done|lia].
  - destruct Hspec as (-> & -> & ->). split.
    + by intros ->.
    + rewrite length_app. simpl. lia.
Qed.

Lemma frameStep_refl (st : @HandlerManager Handler Transform) : frameStep st st.
Proof. apply frameStep_neutral, frameNeutral_refl. Qed.

Lemma triggerRenderFrame_idempotent st :
  _triggerRenderFrame (_triggerRenderFrame st) = _triggerRenderFrame st.
Proof.
  unfold _triggerRenderFrame. destruct (_frameId st) eqn:Hid; simpl.
  - by rewrite Hid.
  - done.
Qed.

(** The loop over the handlers touches the manager only by requesting a
    frame. *)
Lemma dispatchStep_manager e method inputEvent points entry merged eip active st :
  let st' := (dispatchStep e method inputEvent points entry
                (merged, eip, active, st)).2.2 in
  st' = st \/ st' = _triggerRenderFrame st.
Proof.
  unfold dispatchStep. destruct (negb (isEnabled (handler entry))); [by left|].
  destruct (_blockedByActive _ _ _); [by left|].
  destruct (callMethod _ _ _ _) as [[h [r|]]|]; simpl.
  - destruct (truthyBool (needsRenderFrame r)); simpl; auto.
  - by left.
  - by left.
Qed.

Lemma dispatchLoop_manager e method inputEvent points entries merged eip active st :
  let st' := (dispatchLoop e method inputEvent points entries
                (merged, eip, active, st)).2.2 in
  st' = st \/ st' = _triggerRenderFrame st.
Proof.
  revert merged eip active st.
  induction entries as [|entry entries IH]; intros merged eip active st; [by left|].
  cbn [dispatchLoop].
  pose proof (dispatchStep_manager e method inputEvent points entry merged eip
                active st) as Hstep.
  destruct (dispatchStep _ _ _ _ _ _) as [entry' [[[m1 e1] a1] st1]].
  pose proof (IH m1 e1 a1 st1) as Hloop.
  destruct (dispatchLoop _ _ _ _ _ _) as [rest [[[m2 e2] a2] st2]].
  simpl in *. destruct Hstep as [->| ->], Hloop as [->| ->]; auto.
  right. apply triggerRenderFrame_idempotent.
Qed.

Ltac frame_chain :=
  repeat match goal with
    | |- frameStep ?s ?s => apply frameStep_refl
    | H : frameStep ?s ?t |- frameStep ?s ?t => exact H
    | |- frameStep ?s (_triggerRenderFrame ?t) =>
        apply (frameStep_trans s t); [|apply frameStep_trigger]
    | |- frameStep ?s (callMap ?c ?t) =>
        apply (frameStep_trans s t);
        [|apply frameStep_neutral; by apply frameNeutral_callMap]
    | |- frameStep ?s (set_updatingCamera ?v ?t) =>
        apply (frameStep_trans s t); [|apply frameStep_neutral; done]
    | |- frameStep ?s (set_handlers ?v ?t) =>
        apply (frameStep_trans s t); [|apply frameStep_neutral; done]
    | |- frameStep ?s (set_previousActiveHandlers ?v ?t) =>
        apply (frameStep_trans s t); [|apply frameStep_neutral; done]
    | |- frameStep ?s (set_changes ?v ?t) =>
        apply (frameStep_trans s t); [|apply frameStep_neutral; done]
    | |- frameStep ?s (set_inertia ?v ?t) =>
        apply (frameStep_trans s t); [|apply frameStep_neutral; done]
    | |- frameStep ?s (set_eventsInProgress ?v ?t) =>
        apply (frameStep_trans s t); [|apply frameStep_neutral; done]
    | |- frameStep ?s (set_bearingChanged ?v ?t) =>
        apply (frameStep_trans s t); [|apply frameStep_neutral; done]
    end.

Lemma processInputEvent_frameStep e eventName st st' :
  _processInputEvent e eventName st = Some st' -> frameStep st st'.
Proof.
  unfold _processInputEvent.
  pose proof (dispatchLoop_manager e (methodName e eventName)
                (if String.eqb (ev_type e) "renderFrame" then None else Some e)
                (if targetTouches e then TouchPoints (touchPos e)
                 else MousePoint (mousePos e))
                (_handlers (set_updatingCamera true st))
                (mkResult None None None None Undefined Undefined None None
                   (Some false) None) [] ∅ (set_updatingCamera true st)) as Hloop.
  destruct (dispatchLoop _ _ _ _ _ _) as [handlers [[[merged eip] active] st1]].
  simpl in Hloop.
  assert (H1 : frameStep st st1).
  { destruct Hloop as [->| ->]; frame_chain. }
  clear Hloop. revert H1. generalize st1. clear st1. intros st1 H1.
  destruct (negb _ || hasChange merged); destruct (negb _ || hasChange merged);
    destruct (cameraAnimation merged) as [c|];
    try (destruct (_fireEvents _ _ _) as [st2|] eqn:Hfire; [|done];
         apply frameNeutral_fireEvents, frameStep_neutral in Hfire);
    intros [= <-]; frame_chain;
    (eapply frameStep_trans; [|exact Hfire]); frame_chain.
Qed.

Lemma updateMapTransform_frameNeutral combined eip d st st' :
  _updateMapTransform combined eip d st = Some st' -> frameNeutral st st'.
Proof.
  unfold _updateMapTransform. destruct (negb (hasChange combined)).
  - apply frameNeutral_fireEvents.
  - intros Hfire. apply frameNeutral_fireEvents in Hfire.
    eapply frameNeutral_trans; [|exact Hfire].
    unfold frameNeutral, requests.
    destruct (negb (truthyBool (noInertia combined))); simpl;
      rewrite !countCalls_app; simpl; split_and!; try done; lia.
Qed.

Lemma applyChanges_frameNeutral st st' :
  _applyChanges st = Some st' -> frameNeutral st st'.
Proof.
  unfold _applyChanges. destruct (combineChanges _) as [[combined eip] d].
  destruct (_updateMapTransform _ _ _ _) as [st1|] eqn:Hupdate; [|done].
  intros [= <-]. apply updateMapTransform_frameNeutral in Hupdate.
  eapply frameNeutral_trans; [exact Hupdate|done].
Qed.

Lemma stop_frameNeutral st st' : stop st = Some st' -> frameNeutral st st'.
Proof.
  unfold stop. destruct (_updatingCamera st); [by intros [= <-]|].
  destruct (_fireEvents _ _ _) as [st1|] eqn:Hfire; [|done].
  intros [= <-]. apply frameNeutral_fireEvents in Hfire.
  eapply frameNeutral_trans; [|eapply frameNeutral_trans; [exact Hfire|done]].
  done.
Qed.

(** When the map serves the outstanding request, the tick is dispatched
    with the token unset and no request outstanding. *)
Lemma serveFrame_clears id st :
  frameInvariant st -> id ∈ frames (_map st) ->
  frames (_map st) = [id]
  /\ _frameId (set_frameId None (set_map (serveFrame id (_map st)) st)) = None
  /\ frames (_map (set_frameId None (set_map (serveFrame id (_map st)) st))) = [].
Proof.
  unfold frameInvariant. intros Hinv Hin.
  destruct (_frameId st) as [id'|]; rewrite Hinv in Hin.
  - apply list_elem_of_singleton in Hin as ->. rewrite Hinv.
    split_and!; [done|done|]. simpl. rewrite Hinv.
    rewrite filter_cons_False by (intros Hne; by apply Hne). done.
  - by apply elem_of_nil in Hin.
Qed.

Lemma act_frames a st st' :
  frameInvariant st -> act a st = Some st' ->
  frameInvariant st'
  /\ (requests st' + length (frames (_map st))
      = requests st + length (frames (_map st'))
        + if isServeFrame a then 1 else 0)%nat.
Proof.
  intros Hinv. destruct a as [e name|id ts|]; simpl.
  - intros Hrun. apply processInputEvent_frameStep in Hrun as [Hi Hr].
    split; [auto|lia].
  - case_bool_decide as Hin; [|done].
    destruct (serveFrame_clears id st Hinv Hin) as (Hframes & Hid & Hnone).
    unfold frameCallback.
    set (st0 := set_frameId None (set_map (serveFrame id (_map st)) st)) in *.
    assert (Hinv0 : frameInvariant st0).
    { unfold frameInvariant. rewrite (Hid : _frameId st0 = None). exact Hnone. }
    assert (Hreq0 : requests st0 = requests st) by done.
    replace (set_frameId None st0) with st0 by done.
    destruct (_processInputEvent _ _ st0) as [st1|] eqn:Hproc; [|done].
    intros Happly. apply processInputEvent_frameStep in Hproc as [Hi Hr].
    apply applyChanges_frameNeutral, frameStep_neutral in Happly as [Hi2 Hr2].
    split; [auto|]. rewrite Hframes, Hnone, Hreq0 in *. simpl in *. lia.
  - intros Hrun. apply stop_frameNeutral, frameStep_neutral in Hrun as [Hi Hr].
    split; [auto|lia].
Qed.

Lemma frameInvariant_length (st : @HandlerManager Handler Transform) :
  frameInvariant st -> (length (frames (_map st)) <= 1)%nat.
Proof.
  unfold frameInvariant. destruct (_frameId st); intros ->; simpl; lia.
Qed.

Lemma run_frames actions st st' :
  frameInvariant st -> run actions st = Some st' ->
  frameInvariant st'
  /\ (requests st' + length (frames (_map st))
      = requests st + length (frames (_map st')) + serves actions)%nat.
Proof.
  revert st. induction actions as [|a actions IH]; intros st Hinv Hrun.
  - injection Hrun as <-. split; [done|simpl; lia].
  - unfold run in Hrun. cbn [foldThrow] in Hrun.
    destruct (act a st) as [st1|] eqn:Hact; [|done].
    destruct (act_frames a st st1 Hinv Hact) as [Hinv1 Hr1].
    destruct (IH st1 Hinv1 Hrun) as [Hinv' Hr']. split; [done|].
    cbn [serves]. lia.
Qed.

(** C8.  From a manager whose token [_frameId] is set exactly when a frame
    request is outstanding, every run of input events, frame callbacks and
    stops ends in such a manager, with at most one request outstanding;
    the requests made during the run are the frame callbacks served plus
    the change of the outstanding ones, so a run without frame callback
    makes at most one request, and so does a frame callback followed by any
    number of dispatches.  [_triggerRenderFrame] does nothing while the
    token is set and makes one request and sets the token otherwise; a
    frame callback starts with the token unset and no request outstanding;
    a new manager has the token unset. *)
Theorem frame_coalescing (actions : list Action)
  (st st' : @HandlerManager Handler Transform) :
  frameInvariant st ->
  run actions st = Some st' ->
  frameInvariant st'
  /\ (length (frames (_map st')) <= 1)%nat
  /\ (requests st' + length (frames (_map st))
      = requests st + length (frames (_map st')) + serves actions)%nat
  /\ (serves actions = 0%nat -> (requests st' <= requests st + 1)%nat)
  /\ (forall id ts rest,
        actions = ServeFrame id ts :: rest -> serves rest = 0%nat ->
        (requests st' <= requests st + 1)%nat)
  /\ (forall s : @HandlerManager Handler Transform,
        match _frameId s with
        | Some _ => _triggerRenderFrame s = s
        | None =>
            _frameId (_triggerRenderFrame s) = Some (nextFrame (_map s))
            /\ frames (_map (_triggerRenderFrame s))
               = frames (_map s) ++ [nextFrame (_map s)]
            /\ requests (_triggerRenderFrame s) = S (requests s)
        end)
  /\ (forall (s : @HandlerManager Handler Transform) id,
        frameInvariant s -> id ∈ frames (_map s) ->
        frames (_map s) = [id]
        /\ _frameId (set_frameId None (set_map (serveFrame id (_map s)) s)) = None
        /\ frames (_map (set_frameId None (set_map (serveFrame id (_map s)) s)))
           = [])
  /\ (forall (map : @Map Transform) bearingSnap,
        frames map = [] ->
        frameInvariant (newManager (Handler := Handler) map bearingSnap)).
Proof.
  intros Hinv Hrun.
  destruct (run_frames actions st st' Hinv Hrun) as [Hinv' Hr].
  pose proof (frameInvariant_length st' Hinv') as Hlen.
  split_and!; try done.
  - intros Hs. lia.
  - intros id ts rest -> Hs. cbn [serves isServeFrame] in Hr.
    unfold run in Hrun. cbn [foldThrow act] in Hrun.
    case_bool_decide as Hin; [|done].
    destruct (serveFrame_clears id st Hinv Hin) as (Hframes & _).
    rewrite Hframes in Hr. simpl in Hr. lia.
  - apply triggerRenderFrame_spec.
  - intros s id. apply serveFrame_clears.
Qed.

(** *** Cancellation *)

Lemma handlersById_reset handlers name :
  _handlersById (map resetEntry handlers) name
  = reset <$> _handlersById handlers name.
Proof.
  induction handlers as [|entry handlers IH]; [done|].
  cbn [map _handlersById]. rewrite IH.
  destruct (_handlersById handlers name); [done|]. simpl.
  by destruct (String.eqb (entryName entry) name).
Qed.

Lemma handlersById_in handlers name h :
  _handlersById handlers name = Some h ->
  exists entry, entry ∈ handlers /\ handler entry = h.
Proof.
  induction handlers as [|entry handlers IH]; [done|]. cbn [_handlersById].
  destruct (_handlersById handlers name) as [h'|].
  - intros [= <-]. destruct (IH eq_refl) as (entry' & Hin & Hh).
    exists entry'. split; [by apply elem_of_cons; right|done].
  - destruct (String.eqb _ _); [|done]. intros [= <-].
    exists entry. split; [by apply elem_of_cons; left|done].
Qed.

Lemma ownersRegistered_reset handlers m :
  ownersRegistered handlers m -> ownersRegistered (map resetEntry handlers) m.
Proof.
  unfold ownersRegistered. intros Hm. eapply Forall_impl; [exact Hm|].
  intros entry [h Hh]. simpl. rewrite handlersById_reset, Hh. by eexists.
Qed.

Lemma gestureEnd_inertia ev st : _inertia st = [] -> _inertia (gestureEnd ev st) = [].
Proof.
  intros Hempty. unfold gestureEnd, Inertia._onMoveEnd. simpl.
  rewrite Hempty.
  pose proof (moveEnd_nil (inertiaOptions (_map st)) (now (_map st))) as Hnil.
  destruct (moveEnd _ _ _) as [[ease|] buffer]; simpl in *; subst buffer; [done|].
  by destruct (shouldSnapToNorth _ _).
Qed.

Lemma fireEvents_inertia new d st st' :
  _fireEvents new d st = Some st' -> _inertia st = [] -> _inertia st' = [].
Proof.
  unfold _fireEvents. intros Hrun Hempty.
  destruct (foldThrow _ _ _) as [[st1 ev]|] eqn:Hloop; [|done].
  pose proof (calm_trans _ _ _ (calm_fireStart new st)
                (calm_endLoop _ _ _ _ _ _ Hloop)) as (Hin & _).
  rewrite Hempty in Hin.
  destruct (_ && _); injection Hrun as <-; [|done].
  by apply gestureEnd_inertia.
Qed.

Lemma stop_guarded st : _updatingCamera st = true -> stop st = Some st.
Proof. unfold stop. by intros ->. Qed.

Lemma stop_clears_unguarded st :
  _updatingCamera st = false ->
  ownersRegistered (_handlers st) (_eventsInProgress st) ->
  stopClears st.
Proof.
  intros Hguard Hreg. unfold stopClears, stop. rewrite Hguard.
  match goal with
  | |- context [_fireEvents [] ∅ ?s] =>
      destruct (fireEvents_succeeds [] ∅ s) as (st1 & Hfire & _)
  end.
  { simpl. by apply ownersRegistered_reset. }
  { by apply Forall_nil. }
  rewrite Hfire. eexists. split; [done|].
  pose proof (untouched_fireEvents _ _ _ _ Hfire) as (Hh & _).
  pose proof (fireEvents_inertia _ _ _ _ Hfire eq_refl) as Hin.
  simpl. split_and!; [exact Hh|done|exact Hin].
Qed.

Lemma fireStart_nil st : fireStart [] st = st.
Proof.
  unfold fireStart, fireMoveStart, fireChange. simpl.
  by destruct (isMoving (_eventsInProgress st)).
Qed.

Lemma Eip_all_None m : (forall c, Eip.get c m = None) -> m = [].
Proof.
  destruct m as [|[k v] m]; [done|]. intros Hall. specialize (Hall k).
  simpl in Hall. by rewrite decide_True in Hall.
Qed.

Lemma Eip_get_not_key c m : c ∉ map fst m -> Eip.get c m = None.
Proof.
  induction m as [|[k v] m IH]; [done|]. simpl. intros Hnin.
  apply not_elem_of_cons in Hnin as [Hne Hnin].
  rewrite decide_False by done. by apply IH.
Qed.

(** The end loop deletes every category whose owner is not active. *)
Lemma endLoop_all_inactive d l st ev st' ev' :
  (forall entry h,
     entry ∈ l ->
     _handlersById (_handlers st) (handlerName entry.2) = Some h ->
     isActive h = false) ->
  foldThrow (endStep d) l (st, ev) = Some (st', ev') ->
  forall c,
    Eip.get c (_eventsInProgress st')
    = if bool_decide (c ∈ map fst l) then None
      else Eip.get c (_eventsInProgress st).
Proof.
  revert st ev. induction l as [|[k data] l IH]; intros st ev Hidle Hrun c.
  - injection Hrun as <- <-. done.
  - cbn [foldThrow] in Hrun.
    destruct (endStep d (st, ev) (k, data)) as [[st1 ev1]|] eqn:Hstep; [|done].
    pose proof (untouched_endStep _ _ _ _ _ _ Hstep) as (Hh & _).
    assert (Hidle1 : forall entry h,
              entry ∈ l ->
              _handlersById (_handlers st1) (handlerName entry.2) = Some h ->
              isActive h = false).
    { intros entry h Hin Hb. rewrite Hh in Hb. apply (Hidle entry h); [|exact Hb].
      apply elem_of_cons. by right. }
    rewrite (IH _ _ Hidle1 Hrun c).
    unfold endStep in Hstep.
    destruct (_handlersById _ _) as [h|] eqn:Hby; [|done].
    assert (Hact : isActive h = false).
    { apply (Hidle (k, data) h); [|exact Hby]. apply elem_of_cons. by left. }
    rewrite Hact in Hstep. simpl in Hstep. injection Hstep as <- <-.
    simpl. rewrite Eip_get_delete.
    destruct (decide (k = c)) as [->|Hne].
    + rewrite (bool_decide_eq_true_2 (c ∈ c :: map fst l))
        by (apply elem_of_cons; by left).
      by destruct (bool_decide _).
    + destruct (decide (c ∈ map fst l)) as [Hin|Hnin].
      * rewrite !bool_decide_eq_true_2; [done| |done].
        apply elem_of_cons. by right.
      * rewrite !bool_decide_eq_false_2; [done| |done].
        intros [?|?]%elem_of_cons; [congruence|done].
Qed.

Lemma stop_idle st st' :
  _updatingCamera st = false ->
  Forall (fun entry => idleOnceReset (handler entry)) (_handlers st) ->
  stop st = Some st' ->
  _eventsInProgress st' = []
  /\ Forall (fun entry => noTickData (handler entry)) (_handlers st').
Proof.
  intros Hguard Hidle. unfold stop. rewrite Hguard. cbv zeta.
  set (s0 := set_inertia _ (set_handlers (map resetEntry (_handlers st)) st)).
  assert (Hinactive : forall (entry : Category * EventData) (h : Handler),
            entry ∈ _eventsInProgress s0 ->
            _handlersById (_handlers s0) (handlerName entry.2) = Some h ->
            isActive h = false).
  { intros entry h _. change (_handlers s0) with (map resetEntry (_handlers st)).
    rewrite handlersById_reset.
    destruct (_handlersById (_handlers st) _) as [h0|] eqn:Hby; [|done].
    intros [= <-]. apply handlersById_in in Hby as (entry0 & Hin & <-).
    rewrite Forall_forall in Hidle. by apply Hidle. }
  destruct (_fireEvents [] ∅ s0) as [st1|] eqn:Hfire; [|done]. intros [= <-].
  pose proof (untouched_fireEvents _ _ _ _ Hfire) as (Hh & _).
  split.
  - change (_eventsInProgress st1 = []).
    unfold _fireEvents in Hfire. rewrite fireStart_nil in Hfire.
    destruct (foldThrow _ _ _) as [[st2 ev]|] eqn:Hloop; [|done].
    assert (He : _eventsInProgress st1 = _eventsInProgress st2).
    { destruct (_ && _); injection Hfire as <-; [|done].
      apply gestureEnd_counts. }
    rewrite He. apply Eip_all_None. intros c.
    rewrite (endLoop_all_inactive _ _ _ _ _ _ Hinactive Hloop c).
    destruct (decide (c ∈ map fst (_eventsInProgress s0))) as [Hin|Hnin].
    + by rewrite bool_decide_eq_true_2.
    + rewrite bool_decide_eq_false_2 by done. by apply Eip_get_not_key.
  - change (Forall (fun entry => noTickData (handler entry)) (_handlers st1)).
    rewrite Hh. change (_handlers s0) with (map resetEntry (_handlers st)).
    rewrite Forall_forall in Hidle. apply Forall_forall.
    intros entry [entry0 [-> Hin]]%list_elem_of_fmap. simpl.
    by apply Hidle.
Qed.

(** A tick on which no handler returns a result leaves the merged result,
    the events in progress of the dispatch and the manager as they were. *)
Lemma dispatchStep_idle e inputEvent points entry merged eip active st :
  noTickData (handler entry) ->
  exists entry' active',
    dispatchStep e "renderFrame" inputEvent points entry (merged, eip, active, st)
    = (entry', (merged, eip, active', st)).
Proof.
  intros Hidle. unfold dispatchStep.
  destruct (negb (isEnabled (handler entry))); [by eexists _, _|].
  destruct (_blockedByActive _ _ _); [by eexists _, _|].
  specialize (Hidle e points).
  destruct (callMethod _ _ _ _) as [[h [r|]]|]; [done| |]; by eexists _, _.
Qed.

Lemma dispatchLoop_idle e inputEvent points entries merged eip active st :
  Forall (fun entry => noTickData (handler entry)) entries ->
  exists entries' active',
    dispatchLoop e "renderFrame" inputEvent points entries (merged, eip, active, st)
    = (entries', (merged, eip, active', st)).
Proof.
  revert active. induction entries as [|entry entries IH]; intros active Hidle.
  - by eexists _, _.
  - apply Forall_cons in Hidle as [Hentry Hidle]. cbn [dispatchLoop].
    destruct (dispatchStep_idle e inputEvent points entry merged eip active st
                Hentry) as (entry' & active1 & ->).
    destruct (IH active1 Hidle) as (entries' & active' & ->).
    by eexists _, _.
Qed.

Lemma cameraCalls_callMap c st :
  cameraCalls (callMap c st)
  = (cameraCalls st
     + if isEaseTo c || isResetNorth c || isRunCameraAnimation c then 1 else 0)%nat.
Proof. apply countCalls_app. Qed.

Lemma trigger_camera st :
  transform (_map (_triggerRenderFrame st)) = transform (_map st)
  /\ cameraCalls (_triggerRenderFrame st) = cameraCalls st
  /\ _eventsInProgress (_triggerRenderFrame st) = _eventsInProgress st
  /\ _changes (_triggerRenderFrame st) = _changes st.
Proof.
  unfold _triggerRenderFrame, cameraCalls. destruct (_frameId st); [done|].
  simpl. rewrite countCalls_app. simpl. split_and!; try done; lia.
Qed.

Lemma cameraSame_refl (st : @HandlerManager Handler Transform) : cameraSame st st.
Proof. done. Qed.

Lemma cameraSame_trans (st1 st2 st3 : @HandlerManager Handler Transform) :
  cameraSame st1 st2 -> cameraSame st2 st3 -> cameraSame st1 st3.
Proof. unfold cameraSame. intuition congruence. Qed.

Lemma cameraSame_callMap c st :
  isEaseTo c || isResetNorth c || isRunCameraAnimation c = false ->
  cameraSame st (callMap c st).
Proof.
  intros Hc. unfold cameraSame. rewrite cameraCalls_callMap, Hc.
  split_and!; [done|lia|done].
Qed.

Lemma cameraSame_trigger st : cameraSame st (_triggerRenderFrame st).
Proof. destruct (trigger_camera st) as (? & ? & ? & _). by split_and!. Qed.

Ltac camera_chain :=
  repeat match goal with
    | |- cameraSame ?s ?s => apply cameraSame_refl
    | H : cameraSame ?s ?t |- cameraSame ?s ?t => exact H
    | |- cameraSame ?s (_triggerRenderFrame ?t) =>
        apply (cameraSame_trans s t); [|apply cameraSame_trigger]
    | |- cameraSame ?s (callMap ?c ?t) =>
        apply (cameraSame_trans s t); [|by apply cameraSame_callMap]
    | |- cameraSame ?s (set_updatingCamera ?v ?t) =>
        apply (cameraSame_trans s t); [|done]
    | |- cameraSame ?s (set_handlers ?v ?t) =>
        apply (cameraSame_trans s t); [|done]
    | |- cameraSame ?s (set_previousActiveHandlers ?v ?t) =>
        apply (cameraSame_trans s t); [|done]
    | |- cameraSame ?s (set_changes ?v ?t) =>
        apply (cameraSame_trans s t); [|done]
    | |- cameraSame ?s (set_inertia ?v ?t) =>
        apply (cameraSame_trans s t); [|done]
    | |- cameraSame ?s (set_frameId ?v ?t) =>
        apply (cameraSame_trans s t); [|done]
    end.

(** The tick dispatched when no handler returns a result: it changes
    neither the camera nor the events-in-progress object, and queues at
    most a change without deltas. *)
Lemma processInputEvent_idle ts st :
  Forall (fun entry => noTickData (handler entry)) (_handlers st) ->
  exists st',
    _processInputEvent (RenderFrameEvent ts) None st = Some st'
    /\ cameraSame st st'
    /\ (_changes st' = _changes st
        \/ exists d, _changes st' = _changes st ++ [(initialResult, [], d)]).
Proof.
  intros Hidle. unfold _processInputEvent. cbv zeta.
  change (methodName (RenderFrameEvent ts) None) with "renderFrame".
  change (String.eqb (ev_type (RenderFrameEvent ts)) "renderFrame") with true.
  cbv iota.
  destruct (dispatchLoop_idle (RenderFrameEvent ts) None
              (if targetTouches (RenderFrameEvent ts)
               then TouchPoints (touchPos (RenderFrameEvent ts))
               else MousePoint (mousePos (RenderFrameEvent ts)))
              (_handlers (set_updatingCamera true st)) initialResult [] ∅
              (set_updatingCamera true st) Hidle) as (handlers & active & Hloop).
  match goal with
  | |- context [dispatchLoop ?a ?b ?c ?d ?e ?f] =>
      assert (Hloop' : dispatchLoop a b c d e f
                = (handlers, (initialResult, [], active, set_updatingCamera true st)))
        by exact Hloop;
      rewrite Hloop'
  end.
  cbv iota beta. cbn [cameraAnimation initialResult].
  change (hasChange _) with false. rewrite !orb_false_r.
  destruct (negb (size (deactivated _ _ _) =? 0)%nat);
    destruct (negb (size active =? 0)%nat);
    (eexists; split; [reflexivity|]); (split; [camera_chain|]).
  - right. cbn [_changes set_updatingCamera callMap set_map].
    rewrite (proj2 (proj2 (proj2 (trigger_camera _)))). simpl. eauto.
  - right. cbn [_changes set_updatingCamera].
    rewrite (proj2 (proj2 (proj2 (trigger_camera _)))). simpl. eauto.
  - by left.
  - by left.
Qed.

Lemma fireEvents_idle d st :
  _eventsInProgress st = [] -> _fireEvents [] d st = Some st.
Proof.
  intros Hempty. unfold _fireEvents. rewrite fireStart_nil, Hempty. done.
Qed.

(** A flush of at most one queued change without deltas, with no category
    in progress, leaves the camera alone. *)
Lemma applyChanges_idle st :
  _eventsInProgress st = [] ->
  (_changes st = [] \/ exists d, _changes st = [(initialResult, [], d)]) ->
  exists st',
    _applyChanges st = Some st' /\ cameraSame st st' /\ _changes st' = [].
Proof.
  intros Hempty Hchanges. unfold _applyChanges.
  assert (Hcombined : exists d, combineChanges (_changes st) = (emptyResult, [], d)).
  { destruct Hchanges as [->|[d ->]]; by eexists. }
  destruct Hcombined as [d ->]. unfold _updateMapTransform.
  change (hasChange emptyResult) with false. simpl.
  rewrite (fireEvents_idle d st Hempty). eexists. split; [done|]. done.
Qed.

(** C6, as the code has it.  [stop()] does nothing while the manager is
    updating the camera.  Otherwise, on a manager whose categories in
    progress are owned by registered handlers, it completes with every
    handler reset, the queue of changes empty and the inertia buffer empty;
    and when every handler, once reset, is inactive and returns no result
    for the render-frame tick, a frame callback that fires next completes
    without changing the transform and without any ease, reset to north or
    camera animation. *)
Theorem stop_clears_unless_updating (st : @HandlerManager Handler Transform) :
  _updatingCamera st = false ->
  ownersRegistered (_handlers st) (_eventsInProgress st) ->
  (forall s : @HandlerManager Handler Transform,
     _updatingCamera s = true -> stop s = Some s)
  /\ exists st',
       stop st = Some st'
       /\ _handlers st' = map resetEntry (_handlers st)
       /\ _changes st' = []
       /\ _inertia st' = []
       /\ (Forall (fun entry => idleOnceReset (handler entry)) (_handlers st) ->
           forall ts,
           exists st'',
             frameCallback ts st' = Some st''
             /\ transform (_map st'') = transform (_map st')
             /\ cameraCalls st'' = cameraCalls st').
Proof.
  intros Hguard Hreg. split; [apply stop_guarded|].
  destruct (stop_clears_unguarded st Hguard Hreg) as (st' & Hstop & Hh & Hc & Hi).
  exists st'. split_and!; try done.
  intros Hidle ts.
  destruct (stop_idle st st' Hguard Hidle Hstop) as [Hempty Hquiet].
  unfold frameCallback.
  destruct (processInputEvent_idle ts (set_frameId None st') Hquiet)
    as (st1 & -> & Hsame1 & Hchanges).
  destruct (applyChanges_idle st1) as (st2 & -> & Hsame2 & _).
  - destruct Hsame1 as (_ & _ & ->). exact Hempty.
  - simpl in Hchanges. rewrite Hc in Hchanges. simpl in Hchanges. exact Hchanges.
  - exists st2. split; [done|].
    destruct (cameraSame_trans _ _ _ Hsame1 Hsame2) as (Ht & Hcalls & _).
    split; [exact Ht|exact Hcalls].
Qed.

(** *** The manager does not throw *)

Lemma handlersById_is_Some handlers name :
  is_Some (_handlersById handlers name) <-> name ∈ map entryName handlers.
Proof.
  induction handlers as [|entry handlers IH]; simpl.
  - split; [by intros [? ?]|by intros ?%elem_of_nil].
  - rewrite elem_of_cons, <- IH.
    destruct (_handlersById handlers name) as [h|].
    + split; [right|]; by eexists.
    + destruct (String.eqb_spec (entryName entry) name) as [->|Hne].
      * split; [by left|by eexists].
      * split; [by intros [? ?]|]. intros [?|[? ?]]; [congruence|done].
Qed.

Lemma ownersRegistered_names handlers handlers' m :
  map entryName handlers' = map entryName handlers ->
  ownersRegistered handlers m -> ownersRegistered handlers' m.
Proof.
  intros Hnames Hm. unfold ownersRegistered in *.
  eapply Forall_impl; [exact Hm|]. intros entry. simpl.
  by rewrite !handlersById_is_Some, Hnames.
Qed.

Lemma merge_registered handlers merged eip data name e :
  name ∈ map entryName handlers ->
  ownersRegistered handlers eip ->
  ownersRegistered handlers (mergeHandlerResult merged eip data name e).2.
Proof.
  intros Hname Heip. destruct data as [r|]; [|done].
  unfold mergeHandlerResult. cbn [snd].
  repeat match goal with
         | |- context [bool_decide ?P] => destruct (bool_decide P)
         end;
    repeat (apply ownersRegistered_set; [by apply handlersById_is_Some|]);
    exact Heip.
Qed.

Lemma dispatchStep_registered handlers e method inputEvent points entry merged eip
  active st :
  entryName entry ∈ map entryName handlers ->
  ownersRegistered handlers eip ->
  entryName
    (dispatchStep e method inputEvent points entry (merged, eip, active, st)).1
  = entryName entry
  /\ ownersRegistered handlers
       (dispatchStep e method inputEvent points entry
          (merged, eip, active, st)).2.1.1.2.
Proof.
  intros Hname Heip. unfold dispatchStep.
  destruct (negb (isEnabled (handler entry))); [done|].
  destruct (_blockedByActive _ _ _); [done|].
  destruct (callMethod _ _ _ _) as [[h data]|]; [|done].
  pose proof (merge_registered handlers merged eip data (entryName entry)
                inputEvent Hname Heip) as Hmerge.
  destruct (mergeHandlerResult _ _ _ _ _) as [merged' eip']. done.
Qed.

Lemma dispatchLoop_registered handlers e method inputEvent points entries merged
  eip active st :
  Forall (fun entry => entryName entry ∈ map entryName handlers) entries ->
  ownersRegistered handlers eip ->
  map entryName
    (dispatchLoop e method inputEvent points entries (merged, eip, active, st)).1
  = map entryName entries
  /\ ownersRegistered handlers
       (dispatchLoop e method inputEvent points entries
          (merged, eip, active, st)).2.1.1.2.
Proof.
  revert merged eip active st.
  induction entries as [|entry entries IH]; intros merged eip active st Hin Heip;
    [done|].
  apply Forall_cons in Hin as [Hentry Hin]. cbn [dispatchLoop].
  pose proof (dispatchStep_registered handlers e method inputEvent points entry
                merged eip active st Hentry Heip) as [Hname Hreg].
  destruct (dispatchStep _ _ _ _ _ _) as [entry' [[[m1 e1] a1] st1]].
  pose proof (IH m1 e1 a1 st1 Hin Hreg) as [Hnames Hreg'].
  destruct (dispatchLoop _ _ _ _ _ _) as [rest [[[m2 e2] a2] st2]].
  simpl in *. split; [by rewrite Hname, Hnames|done].
Qed.

Lemma wellFormed_same (st st' : @HandlerManager Handler Transform) :
  map entryName (_handlers st') = map entryName (_handlers st) ->
  _eventsInProgress st' = _eventsInProgress st ->
  _changes st' = _changes st ->
  wellFormed st -> wellFormed st'.
Proof.
  intros Hh He Hc [Hreg Hqueue]. unfold wellFormed. rewrite He, Hc. split.
  - by apply (ownersRegistered_names (_handlers st)).
  - eapply Forall_impl; [exact Hqueue|]. intros change.
    by apply ownersRegistered_names.
Qed.

Lemma trigger_handlers st : _handlers (_triggerRenderFrame st) = _handlers st.
Proof. unfold _triggerRenderFrame. by destruct (_frameId st). Qed.

Lemma wellFormed_trigger st : wellFormed st -> wellFormed (_triggerRenderFrame st).
Proof.
  destruct (trigger_camera st) as (_ & _ & He & Hc).
  apply wellFormed_same; [by rewrite trigger_handlers|done|done].
Qed.

Lemma fireEvents_wellFormed new d st :
  wellFormed st -> ownersRegistered (_handlers st) new ->
  exists st', _fireEvents new d st = Some st' /\ wellFormed st'.
Proof.
  intros [Hreg Hqueue] Hnew.
  destruct (fireEvents_succeeds new d st Hreg Hnew) as (st' & Hrun & Hreg').
  exists st'. split; [done|]. split; [done|].
  destruct (untouched_fireEvents _ _ _ _ Hrun) as (-> & _ & -> & _). done.
Qed.

Lemma wellFormed_queue (st : @HandlerManager Handler Transform)
  (change : PendingChange) :
  wellFormed st -> ownersRegistered (_handlers st) change.1.2 ->
  wellFormed (set_changes (_changes st ++ [change]) st).
Proof.
  intros [Hreg Hqueue] Hchange. split; [exact Hreg|].
  simpl. apply Forall_app. split; [exact Hqueue|]. by constructor.
Qed.

Lemma wellFormed_flushed (st : @HandlerManager Handler Transform) :
  wellFormed st -> wellFormed (set_changes [] st).
Proof. intros [Hreg _]. split; [exact Hreg|constructor]. Qed.

Lemma processInputEvent_wellFormed e eventName st :
  wellFormed st ->
  exists st', _processInputEvent e eventName st = Some st' /\ wellFormed st'.
Proof.
  intros Hwf. unfold _processInputEvent. cbv zeta.
  set (st0 := set_updatingCamera true st).
  set (inputEvent := if String.eqb (ev_type e) "renderFrame" then None else Some e).
  set (points := if targetTouches e then TouchPoints (touchPos e)
                 else MousePoint (mousePos e)).
  set (merged0 := mkResult None None None None Undefined Undefined None None
                    (Some false) None).
  pose proof (dispatchLoop_manager e (methodName e eventName) inputEvent points
                (_handlers st0) merged0 [] ∅ st0) as Hst.
  pose proof (dispatchLoop_registered (_handlers st) e (methodName e eventName)
                inputEvent points (_handlers st0) merged0 [] ∅ st0) as Hregs.
  destruct (dispatchLoop _ _ _ _ _ _) as [handlers [[[merged eip] active] st1]].
  simpl in Hst.
  destruct Hregs as [Hnames Heip].
  { apply Forall_forall. intros entry Hin.
    apply (list_elem_of_fmap_2 entryName) in Hin. exact Hin. }
  { constructor. }
  simpl in Hnames, Heip.
  assert (Hwf2 : wellFormed (set_previousActiveHandlers active
                               (set_handlers handlers st1))
                 /\ ownersRegistered
                      (_handlers (set_previousActiveHandlers active
                                    (set_handlers handlers st1))) eip).
  { split; [|by apply (ownersRegistered_names (_handlers st))].
    destruct Hst as [->| ->].
    - by apply (wellFormed_same st).
    - apply (wellFormed_same (_triggerRenderFrame st0)).
      + by rewrite trigger_handlers.
      + done.
      + done.
      + apply wellFormed_trigger. by apply (wellFormed_same st). }
  revert Hwf2. generalize (set_previousActiveHandlers active
                             (set_handlers handlers st1)).
  intros st2 [Hwf2 Heip2].
  match goal with
  | |- context [if ?c then _triggerRenderFrame ?s else st2] =>
      assert (Hwf3 : wellFormed (if c then _triggerRenderFrame s else st2));
      [destruct c; [apply wellFormed_trigger, wellFormed_queue; done|done]|];
      revert Hwf3; generalize (if c then _triggerRenderFrame s else st2)
  end.
  intros st3 Hwf3.
  match goal with
  | |- context [if ?c then callMap Stop st3 else st3] =>
      assert (Hwf4 : wellFormed (set_updatingCamera false
                                   (if c then callMap Stop st3 else st3)));
      [destruct c; by apply (wellFormed_same st3)|];
      revert Hwf4;
      generalize (set_updatingCamera false (if c then callMap Stop st3 else st3))
  end.
  intros st4 Hwf4.
  destruct (cameraAnimation merged) as [c|]; [|by exists st4].
  destruct (fireEvents_wellFormed [] ∅
              (set_inertia (Inertia.clear (_inertia st4)) st4))
    as (st5 & -> & Hwf5).
  { by apply (wellFormed_same st4). }
  { constructor. }
  eexists. split; [done|].
  apply (wellFormed_same (set_changes [] st5)); [done|done|done|].
  by apply wellFormed_flushed.
Qed.

Lemma ownersRegistered_extend handlers dest src :
  ownersRegistered handlers dest -> ownersRegistered handlers src ->
  ownersRegistered handlers (Eip.extend dest src).
Proof.
  unfold Eip.extend. revert dest.
  induction src as [|[c v] src IH]; intros dest Hdest Hsrc; [done|].
  apply Forall_cons in Hsrc as [Hv Hsrc]. cbn [fold_left].
  apply IH; [|done]. by apply ownersRegistered_set.
Qed.

Lemma combineChanges_registered handlers (changes : list PendingChange)
  (acc : PendingChange) :
  ownersRegistered handlers acc.1.2 ->
  Forall (fun change : PendingChange => ownersRegistered handlers change.1.2)
    changes ->
  ownersRegistered handlers (fold_left applyChange changes acc).1.2.
Proof.
  revert acc. induction changes as [|[[r eip] d] changes IH]; intros acc Hacc Hall;
    [done|].
  apply Forall_cons in Hall as [Hchange Hall]. cbn [fold_left].
  apply IH; [|done]. destruct acc as [[c ceip] cd]. simpl in *.
  by apply ownersRegistered_extend.
Qed.

Lemma updateMapTransform_wellFormed combined eip d st :
  wellFormed st -> ownersRegistered (_handlers st) eip ->
  exists st', _updateMapTransform combined eip d st = Some st' /\ wellFormed st'.
Proof.
  intros Hwf Heip. unfold _updateMapTransform.
  destruct (negb (hasChange combined)); [by apply fireEvents_wellFormed|].
  apply fireEvents_wellFormed.
  - destruct (negb (truthyBool (noInertia combined)));
      by apply (wellFormed_same st).
  - by destruct (negb (truthyBool (noInertia combined))).
Qed.

Lemma applyChanges_wellFormed st :
  wellFormed st -> exists st', _applyChanges st = Some st' /\ wellFormed st'.
Proof.
  intros Hwf. unfold _applyChanges.
  pose proof (combineChanges_registered (_handlers st) (_changes st)
                (emptyResult, [], ∅) ltac:(constructor) (proj2 Hwf)) as Heip.
  fold (combineChanges (_changes st)) in Heip.
  destruct (combineChanges (_changes st)) as [[combined eip] d]. simpl in Heip.
  destruct (updateMapTransform_wellFormed combined eip d st Hwf Heip)
    as (st1 & -> & Hwf1).
  eexists. split; [done|]. by apply wellFormed_flushed.
Qed.

Lemma stop_wellFormed st :
  wellFormed st -> exists st', stop st = Some st' /\ wellFormed st'.
Proof.
  intros Hwf. unfold stop. destruct (_updatingCamera st); [by exists st|].
  cbv zeta.
  match goal with
  | |- context [_fireEvents [] ∅ ?s] =>
      destruct (fireEvents_wellFormed [] ∅ s) as (st1 & -> & Hwf1)
  end.
  - apply (wellFormed_same st); [|done|done|done].
    simpl. rewrite map_map. done.
  - constructor.
  - eexists. split; [done|]. by apply wellFormed_flushed.
Qed.

Lemma frameCallback_wellFormed ts st :
  wellFormed st -> exists st', frameCallback ts st = Some st' /\ wellFormed st'.
Proof.
  intros Hwf. unfold frameCallback. cbv zeta.
  destruct (processInputEvent_wellFormed (RenderFrameEvent ts) None
              (set_frameId None st)) as (st1 & -> & Hwf1).
  { by apply (wellFormed_same st). }
  by apply applyChanges_wellFormed.
Qed.

(** On a manager whose owners are registered no action throws: an input
    event, a stop, and a frame callback for an outstanding request all
    complete, in a manager whose owners are registered. *)
Lemma act_wellFormed a st :
  wellFormed st ->
  (forall id ts, a = ServeFrame id ts -> id ∈ frames (_map st)) ->
  exists st', act a st = Some st' /\ wellFormed st'.
Proof.
  intros Hwf Hserved. destruct a as [e name|id ts|]; simpl.
  - by apply processInputEvent_wellFormed.
  - rewrite bool_decide_eq_true_2 by eauto.
    apply frameCallback_wellFormed. by apply (wellFormed_same st).
  - by apply stop_wellFormed.
Qed.

Lemma newManager_wellFormed (map : @Map Transform) bearingSnap :
  wellFormed (newManager (Handler := Handler) map bearingSnap).
Proof. split; constructor. Qed.

Lemma add_wellFormed name h allow st : wellFormed st -> wellFormed (_add name h allow st).
Proof.
  assert (Hmore : forall m,
            ownersRegistered (_handlers st) m ->
            ownersRegistered (_handlers st ++ [mkEntry name h allow]) m).
  { intros m Hm. unfold ownersRegistered in *. eapply Forall_impl; [exact Hm|].
    intros entry. simpl. rewrite !handlersById_is_Some, map_app, elem_of_app.
    by left. }
  intros [Hreg Hqueue]. split; [by apply Hmore|].
  simpl. eapply Forall_impl; [exact Hqueue|]. intros change. apply Hmore.
Qed.

End ManagerProperties.

(** * The properties on the small instance *)

Lemma translation_inverse (tr : Sample.Translation) (loc q : Point.t) :
  pointLocation (setLocationAtPoint loc q tr) q = loc.
Proof.
  destruct loc as [lx ly], q as [qx qy]. unfold pointLocation, setLocationAtPoint.
  simpl. unfold Point.add, Point.sub. simpl. f_equal; lia.
Qed.

Lemma sample_registered :
  ownersRegistered (_handlers Sample.zoomingManager)
    (_eventsInProgress Sample.zoomingManager).
Proof.
  constructor; [|constructor].
  exists (Sample.mkMouse true false). reflexivity.
Defined.

(** The zoom by 1 with a pan by (5, 0) around (10, 20): the location that
    was under (5, 20) is under (10, 20) afterwards.  With the pinch anchor
    (30, 40) besides, the location that was under (25, 40) is under (30, 40)
    afterwards. *)
Lemma anchor_preserved_witness :
  (pinchAround Sample.combined = Undefined
   /\ around Sample.combined = At (Point.mk 10 20))
  /\ pinchAround Sample.pinched = At (Point.mk 30 40)
  /\ ownersRegistered (_handlers Sample.zoomingManager)
       (_eventsInProgress Sample.zoomingManager)
  /\ (exists st',
        _updateMapTransform Sample.combined [] ∅ Sample.zoomingManager = Some st'
        /\ pointLocation (transform (_map st')) (Point.mk 10 20)
           = pointLocation (transform (_map Sample.zoomingManager))
               (Point.sub (Point.mk 10 20) (Point.mk 5 0)))
  /\ (exists st',
        _updateMapTransform Sample.pinched [] ∅ Sample.zoomingManager = Some st'
        /\ pointLocation (transform (_map st')) (Point.mk 30 40)
           = pointLocation (transform (_map Sample.zoomingManager))
               (Point.sub (Point.mk 30 40) (Point.mk 5 0))).
Proof.
  split; [split; reflexivity|]. split; [reflexivity|].
  split; [exact sample_registered|]. split.
  - apply (anchor_preserved Sample.combined [] ∅ Sample.zoomingManager
             (Point.mk 10 20)).
    + exact translation_inverse.
    + right. split; reflexivity.
    + exact sample_registered.
    + constructor.
  - apply (anchor_preserved Sample.pinched [] ∅ Sample.zoomingManager
             (Point.mk 30 40)).
    + exact translation_inverse.
    + left. reflexivity.
    + exact sample_registered.
    + constructor.
Defined.

(** A zoom that starts and ends: one rise and one fall of the number of
    categories, one [movestart] and one [moveend]. *)
Lemma lifecycle_transitions_witness :
  fireCalls Sample.fireCallsOfZoom Sample.manager
  = Some (Sample.orElseManager (fireCalls Sample.fireCallsOfZoom Sample.manager))
  /\ movestarts
       (Sample.orElseManager (fireCalls Sample.fireCallsOfZoom Sample.manager))
     = (movestarts Sample.manager
        + risings (fireCallsTrace Sample.fireCallsOfZoom Sample.manager))%nat
  /\ moveends
       (Sample.orElseManager (fireCalls Sample.fireCallsOfZoom Sample.manager))
     = (moveends Sample.manager
        + fallings (fireCallsTrace Sample.fireCallsOfZoom Sample.manager))%nat.
Proof.
  assert (Hrun :
    fireCalls Sample.fireCallsOfZoom Sample.manager
    = Some (Sample.orElseManager
              (fireCalls Sample.fireCallsOfZoom Sample.manager))).
  { vm_compute. reflexivity. }
  split; [exact Hrun|].
  exact (lifecycle_transitions Sample.fireCallsOfZoom Sample.manager _ Hrun).
Defined.

Example sample_lifecycle_counts :
  risings (fireCallsTrace Sample.fireCallsOfZoom Sample.manager) = 1%nat
  /\ fallings (fireCallsTrace Sample.fireCallsOfZoom Sample.manager) = 1%nat
  /\ movestarts
       (Sample.orElseManager (fireCalls Sample.fireCallsOfZoom Sample.manager))
     = 1%nat.
Proof. vm_compute. auto. Qed.

(** The claim on [stop()] as the spec words it fails on a manager that is
    updating the camera: the call returns with the queue as it was. *)
Lemma stop_ignored_while_updating : ~ stopClears Sample.busyManager.
Proof.
  intros (st' & Hstop & _ & Hchanges & _).
  vm_compute in Hstop. injection Hstop as <-. discriminate Hchanges.
Qed.

(** With a handler that returns a delta on the tick even when reset, the
    frame callback that fires after [stop()] changes the transform. *)
Example stale_frame_of_ticking_handler :
  stop Sample.tickingManager = Some Sample.tickingStopped
  /\ _changes Sample.tickingStopped = []
  /\ getZoom (transform (_map Sample.tickingStopped)) = 10
  /\ (getZoom <$> (transform <$> (_map <$> frameCallback 16 Sample.tickingStopped)))
     = Some 11.
Proof. vm_compute. split_and!; reflexivity. Qed.

Lemma stop_clears_unless_updating_witness :
  _updatingCamera Sample.zoomingManager = false
  /\ ownersRegistered (_handlers Sample.zoomingManager)
       (_eventsInProgress Sample.zoomingManager)
  /\ (forall s : @HandlerManager Sample.MouseHandler Sample.Translation,
        _updatingCamera s = true -> stop s = Some s)
  /\ exists st',
       stop Sample.zoomingManager = Some st'
       /\ _handlers st' = map resetEntry (_handlers Sample.zoomingManager)
       /\ _changes st' = []
       /\ _inertia st' = []
       /\ (Forall (fun entry => idleOnceReset (handler entry))
             (_handlers Sample.zoomingManager) ->
           forall ts,
           exists st'',
             frameCallback ts st' = Some st''
             /\ transform (_map st'') = transform (_map st')
             /\ cameraCalls st'' = cameraCalls st').
Proof.
  split; [reflexivity|]. split; [exact sample_registered|].
  exact (stop_clears_unless_updating Sample.zoomingManager eq_refl
           sample_registered).
Defined.

(** The zoom ends on a map turned 3 degrees with the tolerance 7.  Without
    samples the tracker yields no target: [moveend], then one [resetNorth].
    With two recent samples it yields a target without a bearing: one ease
    towards that target with the bearing 0. *)
Lemma bearing_snap_at_gesture_end_witness :
  (_fireEvents [] ∅ Sample.zoomingManager
   = Some (Sample.orElseManager (_fireEvents [] ∅ Sample.zoomingManager))
   /\ isSome (isMoving (_eventsInProgress Sample.zoomingManager))
      || isSome (isMoving []) = true
   /\ isMoving
        (_eventsInProgress
           (Sample.orElseManager (_fireEvents [] ∅ Sample.zoomingManager)))
      = None
   /\ exists (before : list MapCall) (ev : option Event),
        countCalls isEaseTo before
        = countCalls isEaseTo (calls (_map Sample.zoomingManager))
        /\ countCalls isResetNorth before
           = countCalls isResetNorth (calls (_map Sample.zoomingManager))
        /\ calls
             (_map (Sample.orElseManager (_fireEvents [] ∅ Sample.zoomingManager)))
           = before ++ [Fire "moveend" ev; ResetNorth])
  /\ (_fireEvents [] ∅ Sample.coastingManager
      = Some (Sample.orElseManager (_fireEvents [] ∅ Sample.coastingManager))
      /\ isSome (isMoving (_eventsInProgress Sample.coastingManager))
         || isSome (isMoving []) = true
      /\ isMoving
           (_eventsInProgress
              (Sample.orElseManager (_fireEvents [] ∅ Sample.coastingManager)))
         = None
      /\ exists (before : list MapCall) (ev : option Event),
           countCalls isEaseTo before
           = countCalls isEaseTo (calls (_map Sample.coastingManager))
           /\ countCalls isResetNorth before
              = countCalls isResetNorth (calls (_map Sample.coastingManager))
           /\ calls
                (_map
                   (Sample.orElseManager (_fireEvents [] ∅ Sample.coastingManager)))
              = before ++ [EaseTo (mkEase (Some 0) 0) ev]).
Proof.
  assert (Hstop :
    _fireEvents [] ∅ Sample.zoomingManager
    = Some (Sample.orElseManager (_fireEvents [] ∅ Sample.zoomingManager))).
  { vm_compute. reflexivity. }
  assert (Hcoast :
    _fireEvents [] ∅ Sample.coastingManager
    = Some (Sample.orElseManager (_fireEvents [] ∅ Sample.coastingManager))).
  { vm_compute. reflexivity. }
  split.
  - split; [exact Hstop|]. split; [reflexivity|]. split; [reflexivity|].
    exact (bearing_snap_at_gesture_end [] ∅ Sample.zoomingManager _ Hstop
             eq_refl eq_refl).
  - split; [exact Hcoast|]. split; [reflexivity|]. split; [reflexivity|].
    exact (bearing_snap_at_gesture_end [] ∅ Sample.coastingManager _ Hcoast
             eq_refl eq_refl).
Defined.

(** Press, two moves, the frame and the release: two requests for one frame
    served and one request outstanding. *)
Lemma frame_coalescing_witness :
  frameInvariant Sample.manager
  /\ run Sample.actions Sample.manager
     = Some (Sample.orElseManager (run Sample.actions Sample.manager))
  /\ frameInvariant (Sample.orElseManager (run Sample.actions Sample.manager))
  /\ (length
        (frames (_map (Sample.orElseManager (run Sample.actions Sample.manager))))
      <= 1)%nat.
Proof.
  assert (Hinv : frameInvariant Sample.manager) by reflexivity.
  assert (Hrun :
    run Sample.actions Sample.manager
    = Some (Sample.orElseManager (run Sample.actions Sample.manager))).
  { vm_compute. reflexivity. }
  split; [exact Hinv|]. split; [exact Hrun|].
  destruct (frame_coalescing Sample.actions Sample.manager _ Hinv Hrun)
    as (Hinv' & Hlen & _).
  split; [exact Hinv'|exact Hlen].
Defined.

Example sample_run_requests :
  requests (Sample.orElseManager (run Sample.actions Sample.manager)) = 2%nat
  /\ serves Sample.actions = 1%nat
  /\ frames (_map (Sample.orElseManager (run Sample.actions Sample.manager)))
     = [1%nat].
Proof. vm_compute. auto. Qed.

(** * Properties of the rest of the manager *)

Section ManagerExtras.

Context {Handler Transform LngLat : Type}.
Context `{!Dom} `{!HandlerOps Handler} `{!TransformOps Transform LngLat}.
Context `{!InertiaTracker}.

Implicit Types st : @HandlerManager Handler Transform.

(** ** The calls a step makes *)

Lemma emits_refl P (st : @HandlerManager Handler Transform) : emits P st st.
Proof. exists []. by rewrite app_nil_r. Qed.

Lemma emits_trans P (st1 st2 st3 : @HandlerManager Handler Transform) :
  emits P st1 st2 -> emits P st2 st3 -> emits P st1 st3.
Proof.
  intros (a1 & H1 & Hp1) (a2 & H2 & Hp2). exists (a1 ++ a2).
  rewrite H2, H1, app_assoc. split; [done|]. by apply Forall_app.
Qed.

Lemma emits_callMap (P : MapCall -> Prop) c st : P c -> emits P st (callMap c st).
Proof. intros Hc. exists [c]. split; [done|]. by constructor. Qed.

Lemma emits_same P (st st' : @HandlerManager Handler Transform) :
  calls (_map st') = calls (_map st) -> emits P st st'.
Proof. intros Hsame. exists []. by rewrite app_nil_r. Qed.

Lemma emits_weaken (P Q : MapCall -> Prop) (st st' : @HandlerManager Handler Transform) :
  (forall c, P c -> Q c) -> emits P st st' -> emits Q st st'.
Proof.
  intros Hpq (added & Hcalls & Hall). exists added. split; [done|].
  eapply Forall_impl; [exact Hall|exact Hpq].
Qed.

Lemma emits_count (P : MapCall -> Prop) (p : MapCall -> bool)
  (st st' : @HandlerManager Handler Transform) :
  (forall c, P c -> p c = false) -> emits P st st' ->
  countCalls p (calls (_map st')) = countCalls p (calls (_map st)).
Proof.
  intros Hp (added & -> & Hall). rewrite countCalls_app_list.
  assert (countCalls p added = 0%nat) as ->; [|lia].
  induction Hall as [|c added Hc _ IH]; [done|]. simpl. by rewrite (Hp c Hc), IH.
Qed.

Lemma emits_startStep st entry : emits lifecycleCall st (startStep st entry).
Proof.
  destruct entry as [c data]. unfold startStep, _fireEvent.
  destruct (negb _); [by apply emits_trans with
    (set_eventsInProgress (Eip.set c data (_eventsInProgress st)) st);
    [apply emits_same|apply emits_callMap]|by apply emits_same].
Qed.

Lemma emits_fireStart new st : emits lifecycleCall st (fireStart new st).
Proof.
  unfold fireStart, fireChange.
  apply fold_left_invariant.
  { intros a b Ha. eapply emits_trans; [exact Ha|]. by apply emits_callMap. }
  assert (H1 : emits lifecycleCall st (fold_left startStep new (fireMoveStart new st))).
  { apply fold_left_invariant.
    - intros a b Ha. eapply emits_trans; [exact Ha|apply emits_startStep].
    - unfold fireMoveStart, _fireEvent.
      destruct (isMoving (_eventsInProgress st)), (isMoving new);
        first [apply emits_refl | by apply emits_callMap]. }
  revert H1. generalize (fold_left startStep new (fireMoveStart new st)).
  intros st2 H2. unfold _fireEvent.
  destruct (isSome (Eip.get rotate new)), (isMoving new);
    (eapply emits_trans; [exact H2|]);
    first [ apply emits_refl
          | by apply emits_same
          | by apply emits_callMap
          | eapply emits_trans; [|by apply emits_callMap]; by apply emits_same ].
Qed.

Lemma emits_endLoop d l st ev st' ev' :
  foldThrow (endStep d) l (st, ev) = Some (st', ev') -> emits lifecycleCall st st'.
Proof.
  intros Hrun. change (emits lifecycleCall st (st', ev').1).
  eapply (foldThrow_invariant (fun acc => emits lifecycleCall st acc.1));
    [| |exact Hrun].
  - intros [a ea] [c data] [a' ea'] Ha Hb. simpl in *.
    eapply emits_trans; [exact Ha|]. unfold endStep, _fireEvent in Hb.
    destruct (_handlersById _ _) as [h|]; [|done].
    destruct (negb (isActive h)); injection Hb as <- <-; [|apply emits_refl].
    eapply emits_trans; [|by apply emits_callMap]. by apply emits_same.
  - apply emits_refl.
Qed.

Lemma emits_gestureEnd ev st : emits lifecycleCall st (gestureEnd ev st).
Proof.
  unfold gestureEnd, Inertia._onMoveEnd. simpl.
  destruct (moveEnd _ _ _) as [[ease|] buffer]; simpl.
  - eexists [_]. split; [done|]. by constructor.
  - destruct (shouldSnapToNorth _ _); simpl.
    + exists [Fire "moveend" ev; ResetNorth].
      split; [simpl; by rewrite <- app_assoc|by repeat constructor].
    + eexists [_]. split; [done|]. by constructor.
Qed.

Lemma emits_fireEvents new d st st' :
  _fireEvents new d st = Some st' -> emits lifecycleCall st st'.
Proof.
  unfold _fireEvents.
  destruct (foldThrow _ _ _) as [[st1 ev]|] eqn:Hloop; [|done].
  apply emits_endLoop in Hloop.
  pose proof (emits_fireStart new st) as Hstart.
  destruct (_ && _); intros [= <-];
    eauto using emits_trans, emits_gestureEnd.
Qed.



(** ** The dispatch in two parts *)

Lemma processInputEvent_split e eventName st :
  _processInputEvent e eventName st
  = match cameraAnimation (mergedOf e eventName st) with
    | Some c =>
        match _fireEvents [] ∅
                (set_inertia (Inertia.clear (_inertia (dispatched e eventName st)))
                   (dispatched e eventName st)) with
        | Some st' => Some (callMap (RunCameraAnimation c) (set_changes [] st'))
        | None => None
        end
    | None => Some (dispatched e eventName st)
    end.
Proof.
  unfold _processInputEvent, dispatched, mergedOf, dispatchOf, initialResult.
  cbv zeta.
  destruct (dispatchLoop _ _ _ _ _ _) as [handlers [[[merged eip] active] st1]].
  reflexivity.
Qed.

Lemma dispatchOf_manager e eventName st :
  (dispatchOf e eventName st).2.2 = set_updatingCamera true st
  \/ (dispatchOf e eventName st).2.2
     = _triggerRenderFrame (set_updatingCamera true st).
Proof. unfold dispatchOf. cbv zeta. apply dispatchLoop_manager. Qed.

Lemma dispatchOnly_refl (st : @HandlerManager Handler Transform) : dispatchOnly st st.
Proof. split_and!; try done. apply emits_refl. Qed.

Lemma dispatchOnly_trans (st1 st2 st3 : @HandlerManager Handler Transform) :
  dispatchOnly st1 st2 -> dispatchOnly st2 st3 -> dispatchOnly st1 st3.
Proof.
  intros (? & ? & ? & ? & ? & ?) (? & ? & ? & ? & ? & ?).
  split_and!; try congruence. by eapply emits_trans.
Qed.

Lemma dispatchOnly_same (st st' : @HandlerManager Handler Transform) :
  _map st' = _map st -> _eventsInProgress st' = _eventsInProgress st ->
  _inertia st' = _inertia st -> _bearingSnap st' = _bearingSnap st ->
  dispatchOnly st st'.
Proof.
  intros Hm He Hi Hb. split_and!; try done; try by rewrite Hm.
  apply emits_same. by rewrite Hm.
Qed.

Lemma dispatchOnly_trigger st : dispatchOnly st (_triggerRenderFrame st).
Proof.
  unfold _triggerRenderFrame. destruct (_frameId st); [apply dispatchOnly_refl|].
  simpl. split_and!; try done. eexists [_]. split; [done|]. by constructor.
Qed.

Lemma dispatchOnly_stop st : dispatchOnly st (callMap Stop st).
Proof. split_and!; try done. by apply emits_callMap. Qed.

Ltac dispatch_chain :=
  repeat match goal with
    | |- dispatchOnly ?s ?s => apply dispatchOnly_refl
    | H : dispatchOnly ?s ?t |- dispatchOnly ?s ?t => exact H
    | |- dispatchOnly ?s (_triggerRenderFrame ?t) =>
        apply (dispatchOnly_trans s t); [|apply dispatchOnly_trigger]
    | |- dispatchOnly ?s (callMap Stop ?t) =>
        apply (dispatchOnly_trans s t); [|apply dispatchOnly_stop]
    | |- dispatchOnly ?s (set_updatingCamera ?v ?t) =>
        apply (dispatchOnly_trans s t); [|by apply dispatchOnly_same]
    | |- dispatchOnly ?s (set_handlers ?v ?t) =>
        apply (dispatchOnly_trans s t); [|by apply dispatchOnly_same]
    | |- dispatchOnly ?s (set_previousActiveHandlers ?v ?t) =>
        apply (dispatchOnly_trans s t); [|by apply dispatchOnly_same]
    | |- dispatchOnly ?s (set_changes ?v ?t) =>
        apply (dispatchOnly_trans s t); [|by apply dispatchOnly_same]
    end.

Lemma trigger_fields st :
  _handlers (_triggerRenderFrame st) = _handlers st
  /\ _previousActiveHandlers (_triggerRenderFrame st) = _previousActiveHandlers st
  /\ _updatingCamera (_triggerRenderFrame st) = _updatingCamera st
  /\ _changes (_triggerRenderFrame st) = _changes st.
Proof. unfold _triggerRenderFrame. by destruct (_frameId st). Qed.

(** The first part of a dispatch. *)
Lemma dispatched_spec e eventName st :
  dispatchOnly st (dispatched e eventName st)
  /\ _updatingCamera (dispatched e eventName st) = false
  /\ _handlers (dispatched e eventName st) = (dispatchOf e eventName st).1
  /\ _previousActiveHandlers (dispatched e eventName st) = activeOf e eventName st
  /\ (_changes (dispatched e eventName st) = _changes st
      \/ _changes (dispatched e eventName st)
         = _changes st
           ++ [(mergedOf e eventName st, eventsOf e eventName st,
                deactivated (_previousActiveHandlers st) (activeOf e eventName st)
                  (if String.eqb (ev_type e) "renderFrame" then None else Some e))]).
Proof.
  unfold dispatched, activeOf, mergedOf, eventsOf.
  pose proof (dispatchOf_manager e eventName st) as Hst.
  destruct (dispatchOf e eventName st) as [handlers [[[merged eip] active] st1]].
  cbn [fst snd] in *. cbv zeta.
  assert (H1 : dispatchOnly st st1).
  { destruct Hst as [->| ->]; dispatch_chain. }
  assert (Hfields : _previousActiveHandlers st1 = _previousActiveHandlers st
                    /\ _changes st1 = _changes st).
  { destruct Hst as [->| ->]; [done|].
    destruct (trigger_fields (set_updatingCamera true st)) as (_ & -> & _ & ->).
    done. }
  destruct Hfields as [Hprev Hchanges].
  cbn [_previousActiveHandlers set_handlers set_previousActiveHandlers _changes].
  rewrite Hprev, Hchanges.
  destruct (negb (size (deactivated _ _ _) =? 0)%nat || hasChange merged);
    destruct (negb (size active =? 0)%nat || hasChange merged);
    (split; [dispatch_chain|]); (split; [done|]);
    cbn [_handlers _previousActiveHandlers _changes set_updatingCamera callMap
         set_map];
    repeat match goal with
           | |- context [_triggerRenderFrame ?s] =>
               destruct (trigger_fields s) as (-> & -> & _ & ->)
           end;
    simpl; auto.
Qed.

(** ** The loop over the handlers *)

Lemma Eip_set_Forall (P : Category * EventData -> Prop) c v m :
  P (c, v) -> Forall P m -> Forall P (Eip.set c v m).
Proof.
  intros Hv. induction m as [|[k w] m IH]; intros Hm; simpl.
  - by constructor.
  - apply Forall_cons in Hm as [Hw Hm].
    destruct (decide (k = c)) as [->|_]; constructor; auto.
Qed.

Lemma merge_Forall (P : Category * EventData -> Prop) merged eip r name e :
  (forall c, P (c, mkEventData name (orElse (originalEvent r) e))) ->
  Forall P eip ->
  Forall P (mergeHandlerResult merged eip (Some r) name e).2.
Proof.
  intros Hname Heip. unfold mergeHandlerResult. cbn [snd].
  repeat match goal with
         | |- context [bool_decide ?Q] => destruct (bool_decide Q)
         end;
    repeat (apply Eip_set_Forall; [apply Hname|]); exact Heip.
Qed.

(** What a turn of the loop keeps: the name and the allow-list of the entry,
    the handlers already active, and that every owner recorded so far is
    active and every active handler is one of [names]. *)
Lemma dispatchStep_invariant (names : gset string) e method inputEvent points
  entry merged eip active st :
  entryName entry ∈ names ->
  active ⊆ names ->
  Forall (fun kv : Category * EventData => handlerName kv.2 ∈ active) eip ->
  let result :=
    dispatchStep e method inputEvent points entry (merged, eip, active, st) in
  entryName result.1 = entryName entry
  /\ allowed result.1 = allowed entry
  /\ active ⊆ result.2.1.2
  /\ result.2.1.2 ⊆ names
  /\ Forall (fun kv : Category * EventData => handlerName kv.2 ∈ result.2.1.2)
       result.2.1.1.2.
Proof.
  intros Hname Hactive Howners. unfold dispatchStep.
  destruct (negb (isEnabled (handler entry))); [by split_and!|].
  destruct (_blockedByActive _ _ _).
  - cbn [isSome orb].
    destruct (isActive (reset (handler entry))); simpl; split_and!; try done;
      try set_solver.
    eapply Forall_impl; [exact Howners|]. intros kv. set_solver.
  - destruct (callMethod _ _ _ _) as [[h [r|]]|].
    + pose proof (merge_Forall
                    (fun kv => handlerName kv.2 ∈ {[entryName entry]} ∪ active)
                    merged eip r (entryName entry) inputEvent) as Hmerge.
      destruct (mergeHandlerResult merged eip (Some r) (entryName entry) inputEvent)
        as [merged' eip'].
      cbn [isSome orb fst snd]. split_and!; try done; try set_solver.
      apply Hmerge; [intros c; set_solver|].
      eapply Forall_impl; [exact Howners|]. intros kv. set_solver.
    + cbn [mergeHandlerResult isSome orb].
      destruct (isActive h); simpl; split_and!; try done; try set_solver.
      eapply Forall_impl; [exact Howners|]. intros kv. set_solver.
    + cbn [isSome orb].
      destruct (isActive (handler entry)); simpl; split_and!; try done;
        try set_solver.
      eapply Forall_impl; [exact Howners|]. intros kv. set_solver.
Qed.

Lemma dispatchLoop_invariant (names : gset string) e method inputEvent points
  entries merged eip active st :
  Forall (fun entry => entryName entry ∈ names) entries ->
  active ⊆ names ->
  Forall (fun kv : Category * EventData => handlerName kv.2 ∈ active) eip ->
  let result :=
    dispatchLoop e method inputEvent points entries (merged, eip, active, st) in
  map (fun entry => (entryName entry, allowed entry)) result.1
  = map (fun entry => (entryName entry, allowed entry)) entries
  /\ active ⊆ result.2.1.2
  /\ result.2.1.2 ⊆ names
  /\ Forall (fun kv : Category * EventData => handlerName kv.2 ∈ result.2.1.2)
       result.2.1.1.2.
Proof.
  revert merged eip active st.
  induction entries as [|entry entries IH];
    intros merged eip active st Hnames Hactive Howners; [by split_and!|].
  apply Forall_cons in Hnames as [Hname Hnames]. cbn [dispatchLoop].
  pose proof (dispatchStep_invariant names e method inputEvent points entry merged
                eip active st Hname Hactive Howners) as Hstep.
  destruct (dispatchStep _ _ _ _ _ _) as [entry' [[[m1 e1] a1] st1]].
  cbn [fst snd] in Hstep. destruct Hstep as (Hn & Ha & Hsub & Hin & Hown).
  pose proof (IH m1 e1 a1 st1 Hnames Hin Hown) as Hloop.
  destruct (dispatchLoop _ _ _ _ _ _) as [rest [[[m2 e2] a2] st2]].
  cbn [fst snd] in *. destruct Hloop as (Hreg & Hsub2 & Hin2 & Hown2).
  split_and!; [simpl; by rewrite Hn, Ha, Hreg|set_solver|done|done].
Qed.

(** A dispatch leaves a disabled handler as it is. *)
Lemma dispatchLoop_disabled e method inputEvent points entries
  (acc : @DispatchAcc Handler Transform) i entry :
  entries !! i = Some entry ->
  isEnabled (handler entry) = false ->
  (dispatchLoop e method inputEvent points entries acc).1 !! i = Some entry.
Proof.
  revert acc i. induction entries as [|first entries IH]; intros acc i Hi Hoff;
    [done|].
  cbn [dispatchLoop].
  destruct (dispatchStep e method inputEvent points first acc) as [first' acc1]
    eqn:Hstep.
  specialize (IH acc1).
  destruct (dispatchLoop e method inputEvent points entries acc1) as [rest acc2].
  destruct i as [|i]; simpl in *.
  - injection Hi as ->. unfold dispatchStep in Hstep.
    destruct acc as [[[m ei] a] s]. rewrite Hoff in Hstep. simpl in Hstep.
    by injection Hstep as <- _.
  - by apply IH.
Qed.

Lemma names_elem (handlers : list (@HandlerEntry Handler)) :
  Forall (fun entry => entryName entry ∈ (list_to_set (map entryName handlers)
                                            : gset string)) handlers.
Proof.
  apply Forall_forall. intros entry Hin. apply elem_of_list_to_set.
  by apply (list_elem_of_fmap_2 entryName).
Qed.

Lemma dispatchOf_invariant e eventName st :
  map (fun entry => (entryName entry, allowed entry)) (dispatchOf e eventName st).1
  = registry st
  /\ (forall name, name ∈ activeOf e eventName st ->
                   name ∈ map entryName (_handlers st))
  /\ Forall (fun kv : Category * EventData =>
               handlerName kv.2 ∈ activeOf e eventName st)
       (eventsOf e eventName st).
Proof.
  unfold activeOf, eventsOf, dispatchOf, registry. cbv zeta.
  match goal with
  | |- context [dispatchLoop ?e ?m ?i ?p ?hs (?r, ?ei, ?a, ?s)] =>
      pose proof (dispatchLoop_invariant
                    (list_to_set (map entryName (_handlers st)))
                    e m i p hs r ei a s (names_elem _)
                    ltac:(set_solver) ltac:(constructor)) as Hloop;
      destruct (dispatchLoop e m i p hs (r, ei, a, s))
        as [handlers [[[merged eip] active] st1]]
  end.
  cbn [fst snd] in *. destruct Hloop as (Hreg & _ & Hin & Hown).
  split_and!; [done| |done].
  intros name Hname. apply Hin in Hname. by apply elem_of_list_to_set in Hname.
Qed.

(** ** The guard and the registry *)

Lemma endLoop_guard d l st ev st' ev' :
  foldThrow (endStep d) l (st, ev) = Some (st', ev') ->
  _updatingCamera st' = _updatingCamera st.
Proof.
  revert st ev. induction l as [|[k data] l IH]; intros st ev Hl.
  - by injection Hl as <- <-.
  - cbn [foldThrow] in Hl.
    destruct (endStep d (st, ev) (k, data)) as [[s1 ev1]|] eqn:Hs; [|done].
    rewrite (IH _ _ Hl). unfold endStep in Hs.
    destruct (_handlersById _ _) as [h|]; [|done].
    by destruct (negb (isActive h)); injection Hs as <- <-.
Qed.

Lemma fireStart_guard new st :
  _updatingCamera (fireStart new st) = _updatingCamera st.
Proof.
  unfold fireStart, fireChange.
  apply (fold_left_invariant
           (fun s => _updatingCamera s = _updatingCamera st)); [by intros a b <-|].
  assert (H1 : _updatingCamera (fold_left startStep new (fireMoveStart new st))
               = _updatingCamera st).
  { apply (fold_left_invariant (fun s => _updatingCamera s = _updatingCamera st)).
    - intros a [c data] <-. unfold startStep. by destruct (negb _).
    - unfold fireMoveStart.
      by destruct (isMoving (_eventsInProgress st)), (isMoving new). }
  revert H1. generalize (fold_left startStep new (fireMoveStart new st)).
  intros st2 <-. by destruct (isSome (Eip.get rotate new)), (isMoving new).
Qed.

Lemma gestureEnd_guard ev st : _updatingCamera (gestureEnd ev st) = false.
Proof.
  unfold gestureEnd.
  by destruct (Inertia._onMoveEnd _ _ _) as [[ease|] buffer].
Qed.

(** [_fireEvents] holds the guard only while it ends a gesture. *)
Lemma fireEvents_guard new d st st' :
  _fireEvents new d st = Some st' ->
  _updatingCamera st' = false \/ _updatingCamera st' = _updatingCamera st.
Proof.
  unfold _fireEvents.
  destruct (foldThrow _ _ _) as [[st1 ev]|] eqn:Hloop; [|done].
  apply endLoop_guard in Hloop. rewrite fireStart_guard in Hloop.
  destruct (_ && _); intros [= <-]; [left; apply gestureEnd_guard|by right].
Qed.

(** ** What a dispatch does and does not do *)

Lemma processInputEvent_cases e eventName st st' :
  _processInputEvent e eventName st = Some st' ->
  (cameraAnimation (mergedOf e eventName st) = None
   /\ st' = dispatched e eventName st)
  \/ (exists c st1,
        cameraAnimation (mergedOf e eventName st) = Some c
        /\ _fireEvents [] ∅
             (set_inertia (Inertia.clear (_inertia (dispatched e eventName st)))
                (dispatched e eventName st)) = Some st1
        /\ st' = callMap (RunCameraAnimation c) (set_changes [] st1)).
Proof.
  rewrite processInputEvent_split.
  destruct (cameraAnimation (mergedOf e eventName st)) as [c|].
  - destruct (_fireEvents _ _ _) as [st1|] eqn:Hfire; [|done].
    intros [= <-]. right. by exists c, st1.
  - intros [= <-]. by left.
Qed.

(** X1.  A dispatch in which no handler returns a camera animation never
    changes the transform and never asks the map to update: it calls the map
    only to stop animations or to request a frame, and leaves the
    events-in-progress object and the inertia buffer as they were. *)
Theorem dispatch_never_moves_camera (e : Event) (eventName : option string)
  (st st' : @HandlerManager Handler Transform) :
  _processInputEvent e eventName st = Some st' ->
  cameraAnimation (mergedOf e eventName st) = None ->
  transform (_map st') = transform (_map st)
  /\ countCalls isUpdate (calls (_map st')) = countCalls isUpdate (calls (_map st))
  /\ emits dispatchCall st st'
  /\ _eventsInProgress st' = _eventsInProgress st
  /\ _inertia st' = _inertia st.
Proof.
  intros Hrun Hnone.
  destruct (dispatched_spec e eventName st)
    as ((Htr & _ & He & Hi & _ & Hemits) & _).
  destruct (processInputEvent_cases _ _ _ _ Hrun)
    as [[_ ->]|(c & st1 & Hsome & _)]; [|congruence].
  split_and!; [done| |done|done|done].
  apply (emits_count dispatchCall); [by intros []|done].
Qed.

(** X2.  After a dispatch the previous-active set is the set of handlers the
    dispatch found active; each of them is a registered handler, and every
    category the dispatch recorded is owned by one of them. *)
Theorem dispatch_active_handlers (e : Event) (eventName : option string)
  (st st' : @HandlerManager Handler Transform) :
  _processInputEvent e eventName st = Some st' ->
  _previousActiveHandlers st' = activeOf e eventName st
  /\ (forall name, name ∈ _previousActiveHandlers st' ->
                   name ∈ map entryName (_handlers st))
  /\ (forall c data, Eip.get c (eventsOf e eventName st) = Some data ->
                     handlerName data ∈ _previousActiveHandlers st').
Proof.
  intros Hrun.
  destruct (dispatched_spec e eventName st) as (_ & _ & _ & Hprev & _).
  destruct (dispatchOf_invariant e eventName st) as (_ & Hnames & Hown).
  assert (Hactive : _previousActiveHandlers st' = activeOf e eventName st).
  { destruct (processInputEvent_cases _ _ _ _ Hrun)
      as [[_ ->]|(c & st1 & _ & Hfire & ->)]; [done|].
    pose proof (untouched_fireEvents _ _ _ _ Hfire) as (_ & _ & _ & Hp & _).
    simpl. rewrite Hp. exact Hprev. }
  rewrite Hactive. split_and!; [done|exact Hnames|].
  intros c data Hget. rewrite Forall_forall in Hown.
  apply (Hown (c, data)).
  clear -Hget. induction (eventsOf e eventName st) as [|[k v] m IH]; [done|].
  simpl in Hget. destruct (decide (k = c)) as [->|_].
  - injection Hget as ->. apply elem_of_cons. by left.
  - apply elem_of_cons. right. by apply IH.
Qed.

(** X3.  A dispatch leaves every disabled handler exactly as it was: it is
    neither called nor reset. *)
Theorem dispatch_skips_disabled (e : Event) (eventName : option string)
  (st st' : @HandlerManager Handler Transform) (i : nat)
  (entry : @HandlerEntry Handler) :
  _processInputEvent e eventName st = Some st' ->
  _handlers st !! i = Some entry ->
  isEnabled (handler entry) = false ->
  _handlers st' !! i = Some entry.
Proof.
  intros Hrun Hi Hoff.
  destruct (dispatched_spec e eventName st) as (_ & _ & Hh & _).
  assert (Hhandlers : _handlers st' = (dispatchOf e eventName st).1).
  { destruct (processInputEvent_cases _ _ _ _ Hrun)
      as [[_ ->]|(c & st1 & _ & Hfire & ->)]; [done|].
    pose proof (untouched_fireEvents _ _ _ _ Hfire) as (Hp & _).
    simpl. rewrite Hp. exact Hh. }
  rewrite Hhandlers. unfold dispatchOf. cbv zeta.
  by apply dispatchLoop_disabled.
Qed.

(** X4.  When a handler returns a camera animation, the dispatch ends with
    the queue of changes empty and the inertia buffer empty, the guard
    released, and the animation run as the last call to the map. *)
Theorem camera_animation_takes_priority (e : Event) (eventName : option string)
  (st st' : @HandlerManager Handler Transform) (c : CameraAnimation) :
  _processInputEvent e eventName st = Some st' ->
  cameraAnimation (mergedOf e eventName st) = Some c ->
  _changes st' = []
  /\ _inertia st' = []
  /\ _updatingCamera st' = false
  /\ exists before, calls (_map st') = before ++ [RunCameraAnimation c].
Proof.
  intros Hrun Hsome.
  destruct (processInputEvent_cases _ _ _ _ Hrun)
    as [[Hnone _]|(c' & st1 & Hsome' & Hfire & ->)]; [congruence|].
  assert (c' = c) as -> by congruence.
  split_and!; [done| | |by eexists].
  - simpl. by apply (fireEvents_inertia _ _ _ _ Hfire).
  - simpl. destruct (dispatched_spec e eventName st) as (_ & Hguard & _).
    destruct (fireEvents_guard _ _ _ _ Hfire) as [->| ->]; [done|exact Hguard].
Qed.

Lemma processInputEvent_guard e eventName st st' :
  _processInputEvent e eventName st = Some st' -> _updatingCamera st' = false.
Proof.
  intros Hrun. destruct (dispatched_spec e eventName st) as (_ & Hguard & _).
  destruct (processInputEvent_cases _ _ _ _ Hrun)
    as [[_ ->]|(c & st1 & _ & Hfire & ->)]; [done|].
  simpl. destruct (fireEvents_guard _ _ _ _ Hfire) as [->| ->]; [done|exact Hguard].
Qed.

Lemma updateMapTransform_kept combined eip d st st' :
  _updateMapTransform combined eip d st = Some st' ->
  _handlers st' = _handlers st
  /\ _bearingSnap st' = _bearingSnap st
  /\ _previousActiveHandlers st' = _previousActiveHandlers st
  /\ (_updatingCamera st' = false \/ _updatingCamera st' = _updatingCamera st).
Proof.
  unfold _updateMapTransform. destruct (negb (hasChange combined)).
  - intros Hfire.
    pose proof (untouched_fireEvents _ _ _ _ Hfire) as (? & _ & _ & ? & ? & _).
    pose proof (fireEvents_guard _ _ _ _ Hfire). done.
  - intros Hfire.
    pose proof (untouched_fireEvents _ _ _ _ Hfire) as (Hh & _ & _ & Hp & Hb & _).
    pose proof (fireEvents_guard _ _ _ _ Hfire) as Hg.
    destruct (negb (truthyBool (noInertia combined))); simpl in *; done.
Qed.

Lemma applyChanges_kept st st' :
  _applyChanges st = Some st' ->
  _handlers st' = _handlers st
  /\ _bearingSnap st' = _bearingSnap st
  /\ _previousActiveHandlers st' = _previousActiveHandlers st
  /\ (_updatingCamera st' = false \/ _updatingCamera st' = _updatingCamera st)
  /\ _changes st' = [].
Proof.
  unfold _applyChanges. destruct (combineChanges _) as [[combined eip] d].
  destruct (_updateMapTransform _ _ _ _) as [st1|] eqn:Hupdate; [|done].
  intros [= <-]. apply updateMapTransform_kept in Hupdate. simpl. tauto.
Qed.

Lemma registry_reset (handlers : list (@HandlerEntry Handler)) :
  map (fun entry => (entryName entry, allowed entry)) (map resetEntry handlers)
  = map (fun entry => (entryName entry, allowed entry)) handlers.
Proof. by rewrite map_map. Qed.

Lemma stop_kept st st' :
  stop st = Some st' ->
  registry st' = registry st
  /\ _bearingSnap st' = _bearingSnap st
  /\ (_updatingCamera st = false -> _updatingCamera st' = false).
Proof.
  unfold stop. destruct (_updatingCamera st) eqn:Hguard; [by intros [= <-]|].
  cbv zeta. destruct (_fireEvents _ _ _) as [st1|] eqn:Hfire; [|done].
  intros [= <-].
  pose proof (untouched_fireEvents _ _ _ _ Hfire) as (Hh & _ & _ & _ & Hb & _).
  pose proof (fireEvents_guard _ _ _ _ Hfire) as Hg.
  unfold registry. simpl in *. rewrite Hh, registry_reset. split_and!; try done.
  intros _. destruct Hg as [->| ->]; [done|exact Hguard].
Qed.

Lemma processInputEvent_kept e eventName st st' :
  _processInputEvent e eventName st = Some st' ->
  registry st' = registry st /\ _bearingSnap st' = _bearingSnap st.
Proof.
  intros Hrun.
  destruct (dispatched_spec e eventName st)
    as ((_ & _ & _ & _ & Hb & _) & _ & Hh & _).
  destruct (dispatchOf_invariant e eventName st) as (Hreg & _).
  destruct (processInputEvent_cases _ _ _ _ Hrun)
    as [[_ ->]|(c & st1 & _ & Hfire & ->)].
  - unfold registry at 1. by rewrite Hh.
  - pose proof (untouched_fireEvents _ _ _ _ Hfire) as (Hh1 & _ & _ & _ & Hb1 & _).
    unfold registry at 1. simpl in *. by rewrite Hh1, Hh, Hb1.
Qed.

Lemma act_kept a st st' :
  act a st = Some st' ->
  registry st' = registry st
  /\ _bearingSnap st' = _bearingSnap st
  /\ (_updatingCamera st = false -> _updatingCamera st' = false)
  /\ (wellFormed st -> wellFormed st').
Proof.
  intros Hact.
  assert (Hwf : wellFormed st -> wellFormed st').
  { intros Hwf. destruct (act_wellFormed a st Hwf) as (st2 & Hact2 & Hwf2).
    - intros id ts ->. simpl in Hact. by case_bool_decide.
    - congruence. }
  destruct a as [e name|id ts|]; simpl in Hact.
  - destruct (processInputEvent_kept _ _ _ _ Hact) as [Hr Hb].
    pose proof (processInputEvent_guard _ _ _ _ Hact). by split_and!.
  - case_bool_decide; [|done]. unfold frameCallback in Hact. cbv zeta in Hact.
    destruct (_processInputEvent _ _ _) as [st1|] eqn:Hproc; [|done].
    destruct (processInputEvent_kept _ _ _ _ Hproc) as [Hr Hb].
    pose proof (processInputEvent_guard _ _ _ _ Hproc) as Hg.
    destruct (applyChanges_kept _ _ Hact) as (Hh2 & Hb2 & _ & Hg2 & _).
    split_and!; [|by rewrite Hb2, Hb| |done].
    + unfold registry in *. by rewrite Hh2, Hr.
    + intros _. destruct Hg2 as [->| ->]; [done|exact Hg].
  - destruct (stop_kept _ _ Hact) as (Hr & Hb & Hg). by split_and!.
Qed.

(** X5.  No input event, frame callback or stop registers, removes or
    renames a handler, changes an allow-list or the order of the handlers,
    or changes the snap tolerance. *)
Theorem run_keeps_registry (actions : list Action)
  (st st' : @HandlerManager Handler Transform) :
  run actions st = Some st' ->
  registry st' = registry st /\ _bearingSnap st' = _bearingSnap st.
Proof.
  revert st. induction actions as [|a actions IH]; intros st Hrun.
  - by injection Hrun as <-.
  - unfold run in Hrun. cbn [foldThrow] in Hrun.
    destruct (act a st) as [st1|] eqn:Hact; [|done].
    destruct (act_kept _ _ _ Hact) as (Hr & Hb & _).
    destruct (IH st1 Hrun) as [Hr' Hb']. split; congruence.
Qed.

(** X6.  The guard [_updatingCamera] is never left set: after any run of
    input events, frame callbacks and stops from a manager with the guard
    clear and registered owners, the guard is clear, the owners are
    registered, and a call of [stop()] completes with every handler reset,
    the queue of changes empty and the inertia buffer empty. *)
Theorem stop_between_actions_clears (actions : list Action)
  (st st' : @HandlerManager Handler Transform) :
  wellFormed st ->
  _updatingCamera st = false ->
  run actions st = Some st' ->
  _updatingCamera st' = false /\ wellFormed st' /\ stopClears st'.
Proof.
  revert st. induction actions as [|a actions IH]; intros st Hwf Hguard Hrun.
  - injection Hrun as <-. split_and!; [done|done|].
    apply stop_clears_unguarded; [done|apply Hwf].
  - unfold run in Hrun. cbn [foldThrow] in Hrun.
    destruct (act a st) as [st1|] eqn:Hact; [|done].
    destruct (act_kept _ _ _ Hact) as (_ & _ & Hg & Hw).
    by apply (IH st1); auto.
Qed.

(** ** The flush *)

Lemma fireEvents_keeps_camera new d st st' :
  _fireEvents new d st = Some st' ->
  transform (_map st') = transform (_map st)
  /\ now (_map st') = now (_map st)
  /\ countCalls isUpdate (calls (_map st')) = countCalls isUpdate (calls (_map st))
  /\ countCalls isStop (calls (_map st')) = countCalls isStop (calls (_map st)).
Proof.
  intros Hfire.
  pose proof (untouched_fireEvents _ _ _ _ Hfire)
    as (_ & _ & _ & _ & _ & Ht & _ & _ & Hn & _).
  pose proof (emits_fireEvents _ _ _ _ Hfire) as Hcalls.
  split_and!; [done|done| |];
    (eapply emits_count; [|exact Hcalls]); by intros [].
Qed.


(** X7.  A flush that completes empties the queue and asks the map to
    update at most once, however many changes are queued: when the combined
    result has a change the transform becomes the updated one and the map
    is stopped once and updated once, and otherwise the transform is left
    as it was and the map is neither stopped nor updated. *)
Theorem flush_updates_once (st st' : @HandlerManager Handler Transform) :
  _applyChanges st = Some st' ->
  _changes st' = []
  /\ transform (_map st')
     = (if hasChange (combinedResult (_changes st))
        then updateTransform (combinedResult (_changes st)) (transform (_map st))
        else transform (_map st))
  /\ countCalls isUpdate (calls (_map st'))
     = (countCalls isUpdate (calls (_map st))
        + if hasChange (combinedResult (_changes st)) then 1 else 0)%nat
  /\ countCalls isStop (calls (_map st'))
     = (countCalls isStop (calls (_map st))
        + if hasChange (combinedResult (_changes st)) then 1 else 0)%nat.
Proof.
  unfold _applyChanges, combinedResult.
  destruct (combineChanges (_changes st)) as [[combined eip] d].
  destruct (_updateMapTransform _ _ _ _) as [st1|] eqn:Hupdate; [|done].
  intros [= <-]. cbn [fst snd]. unfold _updateMapTransform in Hupdate.
  destruct (hasChange combined); cbn [negb] in Hupdate; cbv zeta in Hupdate.
  - apply fireEvents_keeps_camera in Hupdate as (Ht & _ & Hu & Hs).
    destruct (negb (truthyBool (noInertia combined))); simpl in *;
      rewrite Ht, Hu, Hs, !countCalls_app; simpl; split_and!; try done; lia.
  - apply fireEvents_keeps_camera in Hupdate as (Ht & _ & Hu & Hs).
    simpl. rewrite Ht, Hu, Hs. split_and!; try done; lia.
Qed.



(** ** The inertia buffer over a flush *)

Lemma combineChange_suppresses combined change :
  truthyBool (noInertia (combineChange combined change))
  = truthyBool (noInertia change) || truthyBool (noInertia combined).
Proof.
  unfold combineChange.
  destruct (panDelta change), (truthyNum (zoomDelta change)),
    (truthyNum (bearingDelta change)), (truthyNum (pitchDelta change)),
    (around change), (pinchAround change),
    (truthyBool (noInertia change)) eqn:Hno; simpl; by rewrite ?Hno.
Qed.

Lemma combineChanges_noInertia (changes : list PendingChange) acc :
  truthyBool (noInertia (fold_left applyChange changes acc).1.1)
  = existsb (fun r => truthyBool (noInertia r)) (queuedResults changes)
    || truthyBool (noInertia acc.1.1).
Proof.
  revert acc. induction changes as [|[[r eip] d] changes IH]; intros acc; [done|].
  simpl. rewrite IH. destruct acc as [[combined ceip] cd]. simpl.
  rewrite combineChange_suppresses.
  by destruct (existsb _ _), (truthyBool (noInertia r)).
Qed.

Lemma fireEvents_buffer new d st st' :
  _fireEvents new d st = Some st' ->
  _inertia st' = _inertia st
  \/ _inertia st'
     = (Inertia._onMoveEnd (inertiaOptions (_map st)) (now (_map st))
          (_inertia st)).2.
Proof.
  unfold _fireEvents.
  destruct (foldThrow _ _ _) as [[st1 ev]|] eqn:Hloop; [|done].
  pose proof (calm_trans _ _ _ (calm_fireStart new st)
                (calm_endLoop _ _ _ _ _ _ Hloop)) as (Hin & _).
  pose proof (untouched_trans _ _ _ (untouched_fireStart new st)
                (untouched_endLoop _ _ _ _ _ _ Hloop))
    as (_ & _ & _ & _ & _ & _ & _ & _ & Hn & Ho).
  destruct (_ && _); intros [= <-]; [right|by left].
  unfold gestureEnd, Inertia._onMoveEnd. simpl. rewrite Hin, Hn, Ho.
  destruct (moveEnd _ _ _) as [[ease|] buffer]; simpl; [done|].
  by destruct (shouldSnapToNorth _ _).
Qed.

(** X9.  A flush hands the combined result to the tracker, at the time of
    the map, exactly when the result has a change and no queued result
    asks for no inertia: a single queued result with [noInertia] keeps the
    change of the whole frame from the tracker.  The manager does nothing
    else to the tracker during a flush but to ask it for an ease target
    when the flush ends a gesture: the samples after the flush are those
    the call of [record], if made, returned, or what [_onMoveEnd] left of
    them. *)
Theorem inertia_recorded_unless_suppressed
  (st st' : @HandlerManager Handler Transform) :
  _applyChanges st = Some st' ->
  let combined := combinedResult (_changes st) in
  let buffer :=
    if hasChange combined
       && negb (existsb (fun r => truthyBool (noInertia r))
                  (queuedResults (_changes st)))
    then Inertia.record (now (_map st)) combined (_inertia st)
    else _inertia st in
  _inertia st' = buffer
  \/ _inertia st'
     = (Inertia._onMoveEnd (inertiaOptions (_map st)) (now (_map st)) buffer).2.
Proof.
  intros Hrun combined buffer.
  assert (Hno : truthyBool (noInertia combined)
                = existsb (fun r => truthyBool (noInertia r))
                    (queuedResults (_changes st))).
  { unfold combined, combinedResult, combineChanges.
    rewrite combineChanges_noInertia. simpl. by rewrite orb_false_r. }
  revert Hrun. unfold _applyChanges. subst buffer. rewrite <- Hno.
  unfold combined, combinedResult.
  destruct (combineChanges (_changes st)) as [[r eip] d]. cbn [fst].
  destruct (_updateMapTransform _ _ _ _) as [st1|] eqn:Hupdate; [|done].
  intros [= <-]. unfold _updateMapTransform in Hupdate.
  destruct (hasChange r); cbn [negb andb] in *; cbv zeta in Hupdate.
  - destruct (truthyBool (noInertia r)); cbn [negb] in *;
      apply fireEvents_buffer in Hupdate; exact Hupdate.
  - apply fireEvents_buffer in Hupdate. exact Hupdate.
Qed.

(** ** The anchor when none is given *)

(** X10.  Given that [pointLocation] gives back the location
    [setLocationAtPoint] has put under a point: when the combined result
    has a null pinch anchor (whatever its anchor is), or no pinch anchor and
    no anchor, the anchor of the update is the centre point of the transform
    before it; the location under that point after [_updateMapTransform] is
    the location that was under it, or under it less the pan delta, before. *)
Theorem anchor_falls_back_to_centre (combined : HandlerResult)
  (combinedEventsInProgress : EventsInProgress)
  (deactivatedHandlers : gmap string (option Event))
  (st st' : @HandlerManager Handler Transform) :
  (forall (tr : Transform) (loc : LngLat) (q : Point.t),
     pointLocation (setLocationAtPoint loc q tr) q = loc) ->
  pinchAround combined = Null
  \/ (pinchAround combined = Undefined
      /\ (around combined = Undefined \/ around combined = Null)) ->
  _updateMapTransform combined combinedEventsInProgress deactivatedHandlers st
  = Some st' ->
  pointLocation (transform (_map st')) (centerPoint (transform (_map st)))
  = pointLocation (transform (_map st))
      match panDelta combined with
      | Some d => Point.sub (centerPoint (transform (_map st))) d
      | None => centerPoint (transform (_map st))
      end.
Proof.
  intros Hinverse Hnone.
  assert (Hanchor : forall tr, anchorPoint combined tr = centerPoint tr).
  { intros tr. unfold anchorPoint, resolveAround.
    destruct Hnone as [->|[-> [->| ->]]]; done. }
  unfold _updateMapTransform.
  destruct (hasChange combined) eqn:Hchange; cbn [negb]; cbv zeta; intros Hfire.
  - apply fireEvents_keeps_camera in Hfire as (Ht & _).
    assert (Ht' : transform (_map st')
                  = updateTransform combined (transform (_map st))).
    { rewrite Ht. by destruct (negb _). }
    rewrite Ht'.
    rewrite <- (Hanchor (transform (_map st))).
    by apply updateTransform_anchor.
  - apply fireEvents_keeps_camera in Hfire as (-> & _).
    unfold hasChange in Hchange.
    destruct (panDelta combined) as [p|]; [|done].
    apply orb_false_elim in Hchange as [Hchange _].
    apply orb_false_elim in Hchange as [Hchange _].
    apply orb_false_elim in Hchange as [Hchange _].
    apply negb_false_iff, Z.eqb_eq, mag_zero in Hchange as ->.
    by rewrite Point_sub_zero.
Qed.

(** ** Handlers that stopped being active *)

Lemma deactivated_fold (active : gset string) (inputEvent : option Event)
  (names : list string) (acc : gmap string (option Event)) (name : string) :
  fold_left
    (fun deactivatedHandlers name =>
       if bool_decide (name ∈ active) then deactivatedHandlers
       else <[name := inputEvent]> deactivatedHandlers) names acc !! name
  = if bool_decide (name ∈ names /\ name ∉ active) then Some inputEvent
    else acc !! name.
Proof.
  revert acc. induction names as [|n names IH]; intros acc; cbn [fold_left].
  - rewrite bool_decide_eq_false_2; [done|]. by intros [?%elem_of_nil _].
  - rewrite IH. clear IH.
    destruct (decide (n = name)) as [->|Hne];
      repeat case_bool_decide;
      rewrite ?lookup_insert_eq, ?lookup_insert_ne by done; try done;
      exfalso; rewrite ?elem_of_cons in *; intuition congruence.
Qed.

(** X11.  The deactivated handlers a dispatch computes are exactly the
    handlers that were active after the previous dispatch and are not
    active after this one, each bound to the input event (to nothing for
    the render-frame tick). *)
Theorem deactivated_spec (previousActiveHandlers activeHandlers : gset string)
  (inputEvent : option Event) (name : string) :
  deactivated previousActiveHandlers activeHandlers inputEvent !! name
  = if bool_decide (name ∈ previousActiveHandlers /\ name ∉ activeHandlers)
    then Some inputEvent else None.
Proof.
  unfold deactivated. rewrite deactivated_fold, lookup_empty.
  destruct (decide (name ∈ previousActiveHandlers /\ name ∉ activeHandlers))
    as [[Hin Hnin]|Hnot].
  - rewrite !bool_decide_eq_true_2; [done|done|].
    split; [by apply elem_of_elements|done].
  - rewrite !bool_decide_eq_false_2; [done|done|].
    intros [Hin%elem_of_elements Hnin]. by apply Hnot.
Qed.

(** ** An event no handler reacts to *)

Lemma dispatchStep_none_active e method inputEvent points
  (entry entry' : @HandlerEntry Handler) merged eip (active : gset string) st
  merged' eip' st' :
  dispatchStep e method inputEvent points entry (merged, eip, active, st)
  = (entry', (merged', eip', ∅, st')) ->
  active = ∅ /\ merged' = merged /\ eip' = eip /\ st' = st.
Proof.
  assert (Hne : forall (n : string) (s : gset string), {[n]} ∪ s <> ∅).
  { intros n s Heq. assert (n ∈ (∅ : gset string)) as Hin; [|set_solver].
    rewrite <- Heq. set_solver. }
  unfold dispatchStep. destruct (negb (isEnabled (handler entry))).
  { by intros [= <- <- <- <- <-]. }
  destruct (_blockedByActive active (allowed entry) (entryName entry)).
  - simpl. destruct (isActive (reset (handler entry))).
    + intros [= _ _ _ Habs _]. by apply Hne in Habs.
    + by intros [= <- <- <- <- <-].
  - destruct (callMethod method e points (handler entry)) as [[h [r|]]|].
    + destruct (mergeHandlerResult _ _ _ _ _) as [m1 e1]. simpl.
      intros [= _ _ _ Habs _]. by apply Hne in Habs.
    + simpl. destruct (isActive h).
      * intros [= _ _ _ Habs _]. by apply Hne in Habs.
      * by intros [= <- <- <- <- <-].
    + simpl. destruct (isActive (handler entry)).
      * intros [= _ _ _ Habs _]. by apply Hne in Habs.
      * by intros [= <- <- <- <- <-].
Qed.

Lemma dispatchLoop_none_active e method inputEvent points
  (entries entries' : list (@HandlerEntry Handler)) merged eip
  (active : gset string) st merged' eip' st' :
  dispatchLoop e method inputEvent points entries (merged, eip, active, st)
  = (entries', (merged', eip', ∅, st')) ->
  active = ∅ /\ merged' = merged /\ eip' = eip /\ st' = st.
Proof.
  revert entries' merged eip active st.
  induction entries as [|entry entries IH]; intros entries' merged eip active st.
  - by intros [= <- <- <- <- <-].
  - cbn [dispatchLoop].
    destruct (dispatchStep _ _ _ _ _ _) as [entry1 [[[m1 e1] a1] s1]] eqn:Hstep.
    destruct (dispatchLoop _ _ _ _ _ _) as [rest [[[m2 e2] a2] s2]] eqn:Hrest.
    intros [= <- <- <- -> <-].
    apply IH in Hrest as (-> & -> & -> & ->).
    by apply dispatchStep_none_active in Hstep.
Qed.

(** X12.  An event no handler reacts to changes nothing: when no handler
    was active after the previous dispatch and none is after this one (none
    returned a result, none reports itself active), the dispatch completes
    and leaves the manager as it was but for what the handlers did to
    themselves: nothing is queued, no frame is requested, the map is not
    stopped, nothing is notified. *)
Theorem idle_dispatch_changes_nothing (e : Event) (eventName : option string)
  (st : @HandlerManager Handler Transform) :
  _updatingCamera st = false ->
  _previousActiveHandlers st = ∅ ->
  activeOf e eventName st = ∅ ->
  _processInputEvent e eventName st
  = Some (set_handlers (dispatchOf e eventName st).1 st).
Proof.
  intros Hguard Hprev Hactive. rewrite processInputEvent_split.
  unfold dispatched, mergedOf, activeOf in *.
  destruct (dispatchOf e eventName st) as [handlers [[[merged eip] active] st1]]
    eqn:Hloop.
  cbn [fst snd] in *. subst active. unfold dispatchOf in Hloop. cbv zeta in Hloop.
  apply dispatchLoop_none_active in Hloop as (_ & -> & -> & ->).
  destruct st. simpl in Hguard, Hprev. subst.
  cbv zeta. cbn -[size deactivated].
  unfold deactivated. rewrite elements_empty. cbn [fold_left].
  rewrite !size_empty. reflexivity.
Qed.

(** ** The categories a lifecycle step leaves in progress *)

Lemma Eip_get_elem c m data : Eip.get c m = Some data -> (c, data) ∈ m.
Proof.
  induction m as [|[k v] m IH]; [done|]. simpl.
  destruct (decide (k = c)) as [->|Hne].
  - intros [= ->]. apply elem_of_cons. by left.
  - intros Hget. apply elem_of_cons. right. by apply IH.
Qed.

Lemma endLoop_survivors d l st ev st' ev' :
  foldThrow (endStep d) l (st, ev) = Some (st', ev') ->
  _handlers st' = _handlers st
  /\ forall c data,
       Eip.get c (_eventsInProgress st') = Some data ->
       Eip.get c (_eventsInProgress st) = Some data
       /\ ((c, data) ∈ l ->
           exists h,
             _handlersById (_handlers st) (handlerName data) = Some h
             /\ isActive h = true).
Proof.
  revert st ev. induction l as [|[k dk] l IH]; intros st ev Hrun.
  - injection Hrun as <- <-. split; [done|]. intros c data Hget.
    split; [done|]. by intros ?%elem_of_nil.
  - cbn [foldThrow] in Hrun.
    destruct (endStep d (st, ev) (k, dk)) as [[st1 ev1]|] eqn:Hstep; [|done].
    apply IH in Hrun as [Hh Hrest]. unfold endStep in Hstep.
    destruct (_handlersById (_handlers st) (handlerName dk)) as [h|] eqn:Hlookup;
      [|done].
    destruct (isActive h) eqn:Hactive; cbn [negb] in Hstep;
      injection Hstep as <- <-.
    + split; [done|]. intros c data Hget.
      destruct (Hrest c data Hget) as [Hbefore Hin]. split; [done|].
      intros [[= -> ->]|Hl]%elem_of_cons; [by exists h|by apply Hin].
    + simpl in Hh, Hrest. split; [done|]. intros c data Hget.
      destruct (Hrest c data Hget) as [Hbefore Hin].
      rewrite Eip_get_delete in Hbefore.
      destruct (decide (k = c)) as [->|Hne]; [done|]. split; [done|].
      intros [[= -> ->]|Hl]%elem_of_cons; [done|by apply Hin].
Qed.

(** After a lifecycle step the owner of every category in progress is
    registered and active. *)
Lemma fireEvents_survivors new d st st' :
  _fireEvents new d st = Some st' ->
  forall c data,
    Eip.get c (_eventsInProgress st') = Some data ->
    exists h,
      _handlersById (_handlers st') (handlerName data) = Some h
      /\ isActive h = true.
Proof.
  intros Hfire c data Hget.
  pose proof (untouched_fireEvents _ _ _ _ Hfire) as (Hh & _).
  revert Hfire Hget. unfold _fireEvents.
  destruct (foldThrow _ _ _) as [[st1 ev]|] eqn:Hloop; [|done].
  apply endLoop_survivors in Hloop as [Hh1 Hsurvive].
  assert (Hst1 : Eip.get c (_eventsInProgress st1) = Some data ->
                 exists h, _handlersById (_handlers st') (handlerName data) = Some h
                           /\ isActive h = true).
  { intros Hget. destruct (Hsurvive c data Hget) as [Hbefore Hin].
    destruct Hin as (h & Hlookup & Hactive); [by apply Eip_get_elem|].
    exists h. split; [|done].
    pose proof (untouched_fireStart new st) as (Hh0 & _).
    by rewrite Hh, <- Hh0. }
  destruct (_ && _); intros [= <-]; [|done].
  intros Hget. apply Hst1.
  revert Hget. unfold gestureEnd, Inertia._onMoveEnd. simpl.
  destruct (moveEnd _ _ _) as [[ease|] buffer]; simpl; [done|]. by destruct (shouldSnapToNorth _ _).
Qed.

Lemma anyActive_false (handlers : list (@HandlerEntry Handler)) :
  Manager.anyActive handlers = false ->
  forall entry, entry ∈ handlers -> isActive (handler entry) = false.
Proof.
  induction handlers as [|entry handlers IH]; simpl.
  - by intros _ entry' ?%elem_of_nil.
  - destruct (isActive (handler entry)) eqn:Hactive; [done|].
    intros Hrest entry' [->|Hin]%elem_of_cons; [done|by apply IH].
Qed.

(** X13.  A lifecycle step leaves no stale category: when [_fireEvents]
    completes, every category left in the events-in-progress object is
    owned by a registered handler that reports itself active. *)
Theorem no_stale_category (new : EventsInProgress)
  (d : gmap string (option Event)) (st st' : @HandlerManager Handler Transform)
  (c : Category) (data : EventData) :
  _fireEvents new d st = Some st' ->
  Eip.get c (_eventsInProgress st') = Some data ->
  exists h,
    _handlersById (_handlers st') (handlerName data) = Some h
    /\ isActive h = true.
Proof. intros Hfire. by apply (fireEvents_survivors new d st). Qed.

(** X14.  When [_fireEvents] completes in a manager whose [isActive()] is
    false, no gesture is left in progress: the events-in-progress object is
    empty, and [isRotating()] is false. *)
Theorem inactive_manager_has_no_gesture (new : EventsInProgress)
  (d : gmap string (option Event)) (st st' : @HandlerManager Handler Transform) :
  _fireEvents new d st = Some st' ->
  Manager.isActive st' = false ->
  _eventsInProgress st' = [] /\ Manager.isRotating st' = false.
Proof.
  intros Hfire Hidle.
  assert (Hempty : _eventsInProgress st' = []).
  { apply Eip_all_None. intros c.
    destruct (Eip.get c (_eventsInProgress st')) as [data|] eqn:Hget; [|done].
    destruct (fireEvents_survivors _ _ _ _ Hfire c data Hget)
      as (h & Hlookup & Hactive).
    apply handlersById_in in Hlookup as (entry & Hin & <-).
    by rewrite (anyActive_false _ Hidle entry Hin) in Hactive. }
  split; [done|]. unfold Manager.isRotating. by rewrite Hempty.
Qed.

(** ** Starts and ends of a category *)

Lemma Eip_set_keys k v m x :
  x ∈ map fst (Eip.set k v m) <-> x = k \/ x ∈ map fst m.
Proof.
  induction m as [|[k' w] m IH]; simpl.
  - rewrite list_elem_of_singleton. split; [by left|]. intros [?|?%elem_of_nil]; done.
  - destruct (decide (k' = k)) as [->|Hne]; simpl; rewrite !elem_of_cons.
    + tauto.
    + rewrite IH. tauto.
Qed.

Lemma Eip_set_NoDup k v m :
  NoDup (map fst m) -> NoDup (map fst (Eip.set k v m)).
Proof.
  induction m as [|[k' w] m IH]; simpl.
  - intros _. apply NoDup_singleton.
  - intros [Hnin Hm]%NoDup_cons.
    destruct (decide (k' = k)) as [->|Hne]; simpl; apply NoDup_cons.
    + done.
    + split; [|by apply IH]. rewrite Eip_set_keys. intros [?|?]; done.
Qed.

Lemma Eip_delete_keys k m x :
  x ∈ map fst (Eip.delete k m) <-> x <> k /\ x ∈ map fst m.
Proof.
  induction m as [|[k' w] m IH]; simpl.
  - split; [by intros ?%elem_of_nil|by intros [_ ?%elem_of_nil]].
  - destruct (decide (k' = k)) as [->|Hne]; simpl; rewrite ?elem_of_cons, IH.
    + intuition congruence.
    + intuition congruence.
Qed.

Lemma Eip_delete_NoDup k m :
  NoDup (map fst m) -> NoDup (map fst (Eip.delete k m)).
Proof.
  induction m as [|[k' w] m IH]; simpl; [done|].
  intros [Hnin Hm]%NoDup_cons.
  destruct (decide (k' = k)) as [->|Hne]; simpl; [by apply IH|].
  apply NoDup_cons. split; [|by apply IH]. rewrite Eip_delete_keys. tauto.
Qed.

Lemma Eip_get_key c m : c ∈ map fst m -> isSome (Eip.get c m) = true.
Proof.
  induction m as [|[k v] m IH]; simpl; [by intros ?%elem_of_nil|].
  intros [->|Hin]%elem_of_cons; [by rewrite decide_True|].
  destruct (decide (k = c)); [done|by apply IH].
Qed.

Lemma startName_inj c k :
  String.eqb (categoryName k +:+ "start") (categoryName c +:+ "start")
  = bool_decide (k = c).
Proof. by destruct c, k. Qed.

Lemma endName_inj c k :
  String.eqb (categoryName k +:+ "end") (categoryName c +:+ "end")
  = bool_decide (k = c).
Proof. by destruct c, k. Qed.

Lemma bracketed_neutral (st st' : @HandlerManager Handler Transform) :
  _eventsInProgress st' = _eventsInProgress st ->
  emits plainCall st st' ->
  bracketed st -> bracketed st'.
Proof.
  intros Heip Hcalls [Hnodup Hcount]. unfold bracketed. rewrite Heip.
  split; [done|]. intros c. unfold categoryStarts, categoryEnds.
  rewrite (emits_count plainCall (isFire (categoryName c +:+ "start")) st st');
    [|intros call Hcall; apply Hcall|done].
  rewrite (emits_count plainCall (isFire (categoryName c +:+ "end")) st st');
    [|intros call Hcall; apply Hcall|done].
  apply Hcount.
Qed.

Lemma plain_dispatchCall call : dispatchCall call -> plainCall call.
Proof. by destruct call. Qed.

Lemma plain_fire type ev :
  (forall c,
     String.eqb type (categoryName c +:+ "start") = false
     /\ String.eqb type (categoryName c +:+ "end") = false) ->
  plainCall (Fire type ev).
Proof. intros Htype c. apply Htype. Qed.

Lemma bracketed_fire type ev st :
  (forall c,
     String.eqb type (categoryName c +:+ "start") = false
     /\ String.eqb type (categoryName c +:+ "end") = false) ->
  bracketed st -> bracketed (_fireEvent type ev st).
Proof.
  intros Htype. apply bracketed_neutral; [done|].
  apply emits_callMap. by apply plain_fire.
Qed.

Lemma bracketed_startStep st entry : bracketed st -> bracketed (startStep st entry).
Proof.
  destruct entry as [k data]. intros [Hnodup Hcount]. unfold startStep.
  destruct (Eip.get k (_eventsInProgress st)) as [old|] eqn:Hget; cbn [isSome negb].
  - split; [by apply Eip_set_NoDup|]. intros c. simpl.
    rewrite Eip_get_set. specialize (Hcount c). unfold categoryStarts, categoryEnds in *.
    simpl. destruct (decide (k = c)) as [<-|Hne]; [|done].
    by rewrite Hget in Hcount.
  - split; [by apply Eip_set_NoDup|]. intros c.
    unfold categoryStarts, categoryEnds, _fireEvent. rewrite !count_callMap.
    cbn [isFire]. rewrite startName_inj. simpl. rewrite Eip_get_set.
    specialize (Hcount c). unfold categoryStarts, categoryEnds in Hcount.
    assert (String.eqb (categoryName k +:+ "start") (categoryName c +:+ "end")
            = false) as -> by (by destruct c, k).
    case_bool_decide as Hk.
    + subst c. rewrite decide_True by done. rewrite Hget in Hcount. simpl in *. lia.
    + rewrite decide_False by done. lia.
Qed.

Lemma bracketed_fireStart new st : bracketed st -> bracketed (fireStart new st).
Proof.
  intros Hst. unfold fireStart, fireChange.
  apply fold_left_invariant.
  { intros a [k data] Ha. unfold changeStep. apply bracketed_fire; [|done].
    intros c. by destruct c, k. }
  assert (H1 : bracketed (fold_left startStep new (fireMoveStart new st))).
  { apply fold_left_invariant.
    - intros a entry Ha. by apply bracketed_startStep.
    - unfold fireMoveStart.
      destruct (isMoving (_eventsInProgress st)), (isMoving new); try done.
      apply bracketed_fire; [|done]. by intros []. }
  revert H1. generalize (fold_left startStep new (fireMoveStart new st)).
  intros st2 H2.
  assert (H3 : bracketed
                 (if isSome (Eip.get rotate new)
                  then set_bearingChanged true st2 else st2)).
  { by destruct (isSome _). }
  destruct (isMoving new); [|done].
  apply bracketed_fire; [|done]. by intros [].
Qed.

Lemma bracketed_endLoop d l st ev st' ev' :
  foldThrow (endStep d) l (st, ev) = Some (st', ev') ->
  NoDup (map fst l) ->
  (forall k, k ∈ map fst l -> isSome (Eip.get k (_eventsInProgress st)) = true) ->
  bracketed st -> bracketed st'.
Proof.
  revert st ev. induction l as [|[k dk] l IH]; intros st ev Hrun Hnodup Hkeys Hst.
  - by injection Hrun as <- <-.
  - cbn [foldThrow] in Hrun. simpl in Hnodup, Hkeys.
    apply NoDup_cons in Hnodup as [Hnin Hnodup].
    destruct (endStep d (st, ev) (k, dk)) as [[st1 ev1]|] eqn:Hstep; [|done].
    unfold endStep in Hstep.
    destruct (_handlersById (_handlers st) (handlerName dk)) as [h|]; [|done].
    destruct (negb (isActive h)); injection Hstep as <- <-.
    + apply (IH _ _ Hrun Hnodup).
      * intros k' Hk'. simpl. rewrite Eip_get_delete.
        destruct (decide (k = k')) as [->|Hne]; [done|].
        apply Hkeys, elem_of_cons. by right.
      * destruct Hst as [Hdup Hcount]. split; [by apply Eip_delete_NoDup|].
        intros c. unfold categoryStarts, categoryEnds, _fireEvent.
        rewrite !count_callMap. cbn [isFire]. rewrite endName_inj. simpl.
        rewrite Eip_get_delete.
        specialize (Hcount c). unfold categoryStarts, categoryEnds in Hcount.
        assert (String.eqb (categoryName k +:+ "end") (categoryName c +:+ "start")
                = false) as -> by (by destruct c, k).
        case_bool_decide as Hk.
        -- subst c. rewrite decide_True by done.
           rewrite (Hkeys k) in Hcount; [|apply elem_of_cons; by left].
           simpl in *. lia.
        -- rewrite decide_False by done. lia.
    + apply (IH _ _ Hrun Hnodup); [|done].
      intros k' Hk'. apply Hkeys, elem_of_cons. by right.
Qed.

Lemma bracketed_gestureEnd ev st : bracketed st -> bracketed (gestureEnd ev st).
Proof.
  apply bracketed_neutral.
  - unfold gestureEnd, Inertia._onMoveEnd. simpl.
    destruct (moveEnd _ _ _) as [[ease|] buffer]; simpl; [done|]. by destruct (shouldSnapToNorth _ _).
  - unfold gestureEnd, Inertia._onMoveEnd. simpl.
    destruct (moveEnd _ _ _) as [[ease|] buffer]; simpl.
    + eexists [_]. split; [done|].
      apply Forall_cons_2; [by intros []|apply Forall_nil_2].
    + destruct (shouldSnapToNorth _ _); simpl.
      * exists [Fire "moveend" ev; ResetNorth].
        split; [simpl; by rewrite <- app_assoc|].
        repeat (apply Forall_cons_2; [by intros []|]). apply Forall_nil_2.
      * eexists [_]. split; [done|].
        apply Forall_cons_2; [by intros []|apply Forall_nil_2].
Qed.

Lemma bracketed_fireEvents new d st st' :
  _fireEvents new d st = Some st' -> bracketed st -> bracketed st'.
Proof.
  unfold _fireEvents. intros Hrun Hst.
  destruct (foldThrow _ _ _) as [[st1 ev]|] eqn:Hloop; [|done].
  pose proof (bracketed_fireStart new st Hst) as Hstart.
  apply bracketed_endLoop in Hloop;
    [|apply Hstart|intros k; apply Eip_get_key|done].
  destruct (_ && _); injection Hrun as <-; [by apply bracketed_gestureEnd|done].
Qed.

Lemma bracketed_same (st st' : @HandlerManager Handler Transform) :
  _eventsInProgress st' = _eventsInProgress st ->
  calls (_map st') = calls (_map st) ->
  bracketed st -> bracketed st'.
Proof. intros Heip Hcalls. apply bracketed_neutral; [done|by apply emits_same]. Qed.

Lemma bracketed_call call st :
  plainCall call -> bracketed st -> bracketed (callMap call st).
Proof. intros Hcall. apply bracketed_neutral; [done|by apply emits_callMap]. Qed.

Lemma bracketed_processInputEvent e eventName st st' :
  _processInputEvent e eventName st = Some st' -> bracketed st -> bracketed st'.
Proof.
  intros Hrun Hst.
  destruct (dispatched_spec e eventName st)
    as ((_ & _ & Heip & _ & _ & Hcalls) & _).
  assert (Hd : bracketed (dispatched e eventName st)).
  { apply (bracketed_neutral st); [done| |done].
    eapply emits_weaken; [apply plain_dispatchCall|exact Hcalls]. }
  destruct (processInputEvent_cases _ _ _ _ Hrun)
    as [[_ ->]|(c & st1 & _ & Hfire & ->)]; [done|].
  apply bracketed_call; [by intros []|].
  apply (bracketed_same st1); [done|done|].
  apply (bracketed_fireEvents _ _ _ _ Hfire).
  by apply (bracketed_same (dispatched e eventName st)).
Qed.

Lemma bracketed_applyChanges st st' :
  _applyChanges st = Some st' -> bracketed st -> bracketed st'.
Proof.
  unfold _applyChanges. destruct (combineChanges _) as [[combined eip] d].
  destruct (_updateMapTransform _ _ _ _) as [st1|] eqn:Hupdate; [|done].
  intros [= <-] Hst. apply (bracketed_same st1); [done|done|].
  unfold _updateMapTransform in Hupdate.
  destruct (negb (hasChange combined)).
  - by apply (bracketed_fireEvents _ _ _ _ Hupdate).
  - apply (bracketed_fireEvents _ _ _ _ Hupdate).
    match goal with
    | |- bracketed (if _ then set_inertia _ ?s else _) =>
        assert (bracketed s) as Hs
    end.
    { apply bracketed_call; [by intros []|].
      match goal with
      | |- bracketed (set_map _ ?s) => apply (bracketed_same s); [done|done|]
      end.
      apply bracketed_call; [by intros []|done]. }
    by destruct (negb _).
Qed.

Lemma bracketed_stop st st' : stop st = Some st' -> bracketed st -> bracketed st'.
Proof.
  unfold stop. destruct (_updatingCamera st); [by intros [= <-]|]. cbv zeta.
  destruct (_fireEvents _ _ _) as [st1|] eqn:Hfire; [|done].
  intros [= <-] Hst. apply (bracketed_same st1); [done|done|].
  apply (bracketed_fireEvents _ _ _ _ Hfire).
  by apply (bracketed_same st).
Qed.

(** X15.  Starts and ends of a category are bracketed: over any run of
    input events, frame callbacks and stops that completes, from a manager
    in which every category had been notified as started once more than as
    ended when in progress and as often when not, the same holds at the
    end: a [zoomstart] is never sent twice without a [zoomend] in between,
    no [zoomend] is sent without a [zoomstart] before it, and the
    events-in-progress object tells which of the two was sent last. *)
Theorem run_keeps_brackets (actions : list Action)
  (st st' : @HandlerManager Handler Transform) :
  run actions st = Some st' -> bracketed st -> bracketed st'.
Proof.
  revert st. induction actions as [|a actions IH]; intros st Hrun Hst.
  - by injection Hrun as <-.
  - unfold run in Hrun. cbn [foldThrow] in Hrun.
    destruct (act a st) as [st1|] eqn:Hact; [|done].
    apply (IH st1 Hrun). clear IH Hrun.
    destruct a as [e name|id ts|]; simpl in Hact.
    + by apply (bracketed_processInputEvent _ _ _ _ Hact).
    + case_bool_decide; [|done]. unfold frameCallback in Hact. cbv zeta in Hact.
      destruct (_processInputEvent _ _ _) as [st2|] eqn:Hproc; [|done].
      apply (bracketed_applyChanges _ _ Hact).
      apply (bracketed_processInputEvent _ _ _ _ Hproc).
      by apply (bracketed_same st).
    + by apply (bracketed_stop _ _ Hact).
Qed.

(** ** Registration *)

Lemma handlersById_snoc (handlers : list (@HandlerEntry Handler)) entry name :
  _handlersById (handlers ++ [entry]) name
  = if String.eqb (entryName entry) name then Some (handler entry)
    else _handlersById handlers name.
Proof.
  induction handlers as [|first handlers IH]; simpl.
  - by destruct (String.eqb _ _).
  - rewrite IH. destruct (String.eqb (entryName entry) name); [done|].
    by destruct (_handlersById handlers name).
Qed.

(** X16.  [_add] makes the handler the one found under its name, also when
    the name was registered before (the earlier entry stays in the list the
    dispatch goes through, after which the new one comes last), and leaves
    what is found under every other name as it was. *)
Theorem add_then_lookup (name : string) (h : Handler)
  (allow : option (list string)) (st : @HandlerManager Handler Transform) :
  _handlersById (_handlers (_add name h allow st)) name = Some h
  /\ (forall other,
        other <> name ->
        _handlersById (_handlers (_add name h allow st)) other
        = _handlersById (_handlers st) other)
  /\ registry (_add name h allow st) = registry st ++ [(name, allow)].
Proof.
  unfold _add, registry. simpl. split_and!.
  - rewrite handlersById_snoc. simpl. by rewrite String.eqb_refl.
  - intros other Hne. rewrite handlersById_snoc. simpl.
    destruct (String.eqb_spec name other); [congruence|done].
  - by rewrite map_app.
Qed.

(** ** Handlers active together *)

Lemma not_blocked (active : gset string) (allow : option (list string))
  (myName name : string) :
  _blockedByActive active allow myName = false ->
  name ∈ active -> name <> myName ->
  exists l, allow = Some l /\ name ∈ l.
Proof.
  intros Hfree Hin Hne.
  assert (Hnot : ~ absentFrom allow name).
  { intros Habsent.
    assert (blockedLoop (elements active) allow myName = true) as Hblocked.
    { apply blockedLoop_spec. exists name. split_and!; [|done|done].
      by apply elem_of_elements. }
    unfold _blockedByActive in Hfree. congruence. }
  destruct allow as [l|]; [|by destruct Hnot].
  exists l. split; [done|]. simpl in Hnot. by destruct (decide (name ∈ l)).
Qed.

Lemma dispatchStep_marks e method inputEvent points
  (entry entry' : @HandlerEntry Handler) merged eip (active active' : gset string)
  st merged' eip' st' :
  (forall h : Handler, isActive (reset h) = false) ->
  dispatchStep e method inputEvent points entry (merged, eip, active, st)
  = (entry', (merged', eip', active', st')) ->
  active' = active
  \/ (active' = {[entryName entry]} ∪ active
      /\ _blockedByActive active (allowed entry) (entryName entry) = false).
Proof.
  intros Hreset. unfold dispatchStep.
  destruct (negb (isEnabled (handler entry))).
  { intros [= <- <- <- <- <-]. by left. }
  destruct (_blockedByActive active (allowed entry) (entryName entry)).
  - simpl. rewrite Hreset. intros [= <- <- <- <- <-]. by left.
  - destruct (callMethod method e points (handler entry)) as [[h [r|]]|].
    + destruct (mergeHandlerResult _ _ _ _ _) as [m1 e1]. simpl.
      intros [= <- <- <- <- <-]. by right.
    + simpl. destruct (isActive h); intros [= <- <- <- <- <-]; [by right|by left].
    + simpl. destruct (isActive (handler entry)); intros [= <- <- <- <- <-];
        [by right|by left].
Qed.

Lemma dispatchLoop_bounds e method inputEvent points
  (entries entries' : list (@HandlerEntry Handler)) merged eip
  (active active' : gset string) st merged' eip' st' :
  (forall h : Handler, isActive (reset h) = false) ->
  dispatchLoop e method inputEvent points entries (merged, eip, active, st)
  = (entries', (merged', eip', active', st')) ->
  active ⊆ active'
  /\ forall name, name ∈ active' -> name ∈ active \/ name ∈ map entryName entries.
Proof.
  intros Hreset. revert entries' merged eip active st.
  induction entries as [|entry entries IH]; intros entries' merged eip active st.
  - intros [= <- <- <- <- <-]. split; [done|]. by left.
  - cbn [dispatchLoop].
    destruct (dispatchStep _ _ _ _ _ _) as [entry1 [[[m1 e1] a1] s1]] eqn:Hstep.
    destruct (dispatchLoop _ _ _ _ _ _) as [rest [[[m2 e2] a2] s2]] eqn:Hrest.
    intros [= <- <- <- <- <-].
    apply IH in Hrest as [Hsub Hfrom].
    apply (dispatchStep_marks _ _ _ _ _ _ _ _ _ _ _ _ _ _ Hreset) in Hstep
      as [->|[-> _]].
    + split; [done|]. intros name Hin. simpl. rewrite elem_of_cons.
      destruct (Hfrom name Hin); auto.
    + split; [set_solver|]. intros name Hin. simpl. rewrite elem_of_cons.
      destruct (Hfrom name Hin) as [Hone|?]; [|auto].
      apply elem_of_union in Hone as [->%elem_of_singleton|?]; auto.
Qed.

Lemma dispatchLoop_allowed e method inputEvent points
  (pre post entries' : list (@HandlerEntry Handler)) entry merged eip
  (active active' : gset string) st merged' eip' st' name :
  (forall h : Handler, isActive (reset h) = false) ->
  NoDup (map entryName (pre ++ entry :: post)) ->
  (forall n, n ∈ active -> n ∉ map entryName (pre ++ entry :: post)) ->
  dispatchLoop e method inputEvent points (pre ++ entry :: post)
    (merged, eip, active, st)
  = (entries', (merged', eip', active', st')) ->
  entryName entry ∈ active' ->
  name ∈ active' ->
  name <> entryName entry ->
  name ∈ active \/ name ∈ map entryName pre ->
  exists l, allowed entry = Some l /\ name ∈ l.
Proof.
  intros Hreset. revert entries' merged eip active st.
  induction pre as [|first pre IH]; intros entries' merged eip active st
    Hnodup Hfresh Hloop Hentry Hname Hne Hbefore.
  - cbn [app map] in *. cbn [dispatchLoop] in Hloop.
    apply NoDup_cons in Hnodup as [Hnin _].
    destruct (dispatchStep e method inputEvent points entry
                (merged, eip, active, st)) as [entry1 [[[m1 e1] a1] s1]] eqn:Hstep.
    destruct (dispatchLoop e method inputEvent points post (m1, e1, a1, s1))
      as [rest [[[m2 e2] a2] s2]] eqn:Hrest.
    injection Hloop as <- <- <- <- <-.
    apply (dispatchLoop_bounds _ _ _ _ _ _ _ _ _ _ _ _ _ _ Hreset) in Hrest
      as [Hsub Hfrom].
    destruct (Hfrom _ Hentry) as [Hin1|?]; [|done].
    destruct Hbefore as [Hactive|?%elem_of_nil]; [|done].
    apply (dispatchStep_marks _ _ _ _ _ _ _ _ _ _ _ _ _ _ Hreset) in Hstep
      as [->|[-> Hfree]].
    + exfalso. apply (Hfresh _ Hin1), elem_of_cons. by left.
    + by apply (not_blocked active _ (entryName entry)).
  - cbn [app map] in *. cbn [dispatchLoop] in Hloop.
    apply NoDup_cons in Hnodup as [Hnin Hnodup].
    destruct (dispatchStep e method inputEvent points first
                (merged, eip, active, st)) as [entry1 [[[m1 e1] a1] s1]] eqn:Hstep.
    destruct (dispatchLoop e method inputEvent points (pre ++ entry :: post)
                (m1, e1, a1, s1)) as [rest [[[m2 e2] a2] s2]] eqn:Hrest.
    injection Hloop as <- <- <- <- <-.
    pose proof (dispatchLoop_bounds _ _ _ _ _ _ _ _ _ _ _ _ _ _ Hreset Hrest)
      as [Hsub Hfrom].
    apply (dispatchStep_marks _ _ _ _ _ _ _ _ _ _ _ _ _ _ Hreset) in Hstep.
    apply (IH _ _ _ _ _ Hnodup) in Hrest; [done| |done|done|done|].
    + intros n Hn Hin.
      destruct Hstep as [->|[-> _]].
      * apply (Hfresh n Hn), elem_of_cons. by right.
      * apply elem_of_union in Hn as [->%elem_of_singleton|Hn]; [done|].
        apply (Hfresh n Hn), elem_of_cons. by right.
    + destruct Hbefore as [Hactive|[->|Hpre]%elem_of_cons].
      * left. destruct Hstep as [->|[-> _]]; [done|set_solver].
      * left. by destruct (Hfrom _ Hname).
      * by right.
Qed.

(** X17.  Given handlers that are not active once reset and names that are
    registered once: two handlers come out of a dispatch active together
    only when the allow-list of the one later in the order of registration
    names the earlier one. *)
Theorem active_together_are_allowed (e : Event) (eventName : option string)
  (st : @HandlerManager Handler Transform)
  (pre post : list (@HandlerEntry Handler)) (entry : @HandlerEntry Handler)
  (name : string) :
  (forall h : Handler, isActive (reset h) = false) ->
  NoDup (map entryName (_handlers st)) ->
  _handlers st = pre ++ entry :: post ->
  entryName entry ∈ activeOf e eventName st ->
  name ∈ activeOf e eventName st ->
  name ∈ map entryName pre ->
  exists allow, allowed entry = Some allow /\ name ∈ allow.
Proof.
  intros Hreset Hnodup Hsplit Hentry Hname Hpre.
  unfold activeOf, dispatchOf in *. cbv zeta in *.
  change (_handlers (set_updatingCamera true st)) with (_handlers st) in *.
  rewrite Hsplit in *.
  match type of Hentry with
  | context [dispatchLoop ?a ?b ?c ?d ?l ?acc] =>
      destruct (dispatchLoop a b c d l acc) as [rest [[[m2 e2] a2] s2]] eqn:Hloop
  end.
  simpl in Hentry, Hname.
  apply (dispatchLoop_allowed _ _ _ _ _ _ _ _ _ _ _ _ _ _ _ _ name Hreset Hnodup)
    in Hloop; try done.
  - rewrite map_app in Hnodup. apply NoDup_app in Hnodup as (_ & Hdisjoint & _).
    intros ->. apply (Hdisjoint _ Hpre). simpl. apply elem_of_cons. by left.
  - by right.
Qed.

(** ** The owners are always found *)

(** X18.  The lookup of the owner of a category never fails.  A run of the
    embedding fails at one place only, where [_fireEvents] looks up in
    [_handlersById] an owner that is not registered and calls [isActive] on
    the result; the methods of the handlers are taken to return, and the
    events to carry a time stamp.  From a manager in which the owner of
    every category in progress or queued is registered, no run of input
    events, frame callbacks for outstanding requests and stops comes to
    such a lookup: the run completes, and leaves such a manager. *)
Theorem owner_lookup_never_fails (actions : list Action)
  (st : @HandlerManager Handler Transform) :
  wellFormed st ->
  servesOutstanding actions st ->
  exists st', run actions st = Some st' /\ wellFormed st'.
Proof.
  revert st. induction actions as [|a actions IH]; intros st Hwf Hserves.
  - by exists st.
  - destruct Hserves as [Hnow Hrest].
    destruct (act_wellFormed a st Hwf) as (st1 & Hact & Hwf1).
    { by intros id ts ->. }
    rewrite Hact in Hrest. destruct (IH st1 Hwf1 Hrest) as (st' & Hrun & Hwf').
    exists st'. split; [|done]. unfold run in *. cbn [foldThrow]. by rewrite Hact.
Qed.

End ManagerExtras.

(** * The further properties on the small instance *)

Lemma scene_move :
  _processInputEvent (Sample.mouse "mousemove" 4) (Some "mousemove") Scene.pressed
  = Some Scene.moved.
Proof. vm_compute. reflexivity. Defined.

Lemma scene_run : run Sample.actions Sample.manager = Some Scene.played.
Proof. vm_compute. reflexivity. Defined.

Lemma scene_flush : _applyChanges Scene.moved = Some Scene.flushed.
Proof. vm_compute. reflexivity. Defined.

Lemma scene_wellFormed : wellFormed Sample.manager.
Proof. split; constructor. Defined.

(** The move while the button is down: the transform is the one before. *)
Lemma dispatch_never_moves_camera_witness :
  _processInputEvent (Sample.mouse "mousemove" 4) (Some "mousemove") Scene.pressed
  = Some Scene.moved
  /\ cameraAnimation
       (mergedOf (Sample.mouse "mousemove" 4) (Some "mousemove") Scene.pressed)
     = None
  /\ transform (_map Scene.moved) = transform (_map Scene.pressed)
  /\ countCalls isUpdate (calls (_map Scene.moved))
     = countCalls isUpdate (calls (_map Scene.pressed)).
Proof.
  split; [exact scene_move|]. split; [reflexivity|].
  destruct (dispatch_never_moves_camera _ _ _ _ scene_move eq_refl)
    as (Ht & Hu & _).
  split; [exact Ht|exact Hu].
Defined.

Lemma dispatch_active_handlers_witness :
  _processInputEvent (Sample.mouse "mousemove" 4) (Some "mousemove") Scene.pressed
  = Some Scene.moved
  /\ _previousActiveHandlers Scene.moved
     = activeOf (Sample.mouse "mousemove" 4) (Some "mousemove") Scene.pressed.
Proof.
  split; [exact scene_move|].
  exact (proj1 (dispatch_active_handlers _ _ _ _ scene_move)).
Defined.

(** The disabled handler, though held down, is as it was after a move. *)
Lemma dispatch_skips_disabled_witness :
  _processInputEvent (Sample.mouse "mousemove" 4) (Some "mousemove")
    Scene.withDisabled
  = Some Scene.withDisabledMoved
  /\ _handlers Scene.withDisabled !! 1%nat = Some Scene.boxZoom
  /\ isEnabled (handler Scene.boxZoom) = false
  /\ _handlers Scene.withDisabledMoved !! 1%nat = Some Scene.boxZoom.
Proof.
  assert (Hrun :
    _processInputEvent (Sample.mouse "mousemove" 4) (Some "mousemove")
      Scene.withDisabled
    = Some Scene.withDisabledMoved) by (vm_compute; reflexivity).
  split; [exact Hrun|]. split; [reflexivity|]. split; [reflexivity|].
  exact (dispatch_skips_disabled _ _ _ _ 1%nat Scene.boxZoom Hrun eq_refl eq_refl).
Defined.

(** The double click with a change queued: the queue is emptied and the
    animation 7 is run. *)
Lemma camera_animation_takes_priority_witness :
  _processInputEvent (Sample.mouse "dblclick" 3) (Some "dblclick") Scene.flying
  = Some Scene.flown
  /\ cameraAnimation
       (mergedOf (Sample.mouse "dblclick" 3) (Some "dblclick") Scene.flying)
     = Some 7%nat
  /\ _changes Scene.flown = []
  /\ _inertia Scene.flown = []
  /\ _updatingCamera Scene.flown = false
  /\ exists before, calls (_map Scene.flown) = before ++ [RunCameraAnimation 7%nat].
Proof.
  assert (Hrun :
    _processInputEvent (Sample.mouse "dblclick" 3) (Some "dblclick") Scene.flying
    = Some Scene.flown) by (vm_compute; reflexivity).
  split; [exact Hrun|]. split; [reflexivity|].
  exact (camera_animation_takes_priority _ _ _ _ 7%nat Hrun eq_refl).
Defined.

Lemma run_keeps_registry_witness :
  run Sample.actions Sample.manager = Some Scene.played
  /\ registry Scene.played = registry Sample.manager
  /\ _bearingSnap Scene.played = _bearingSnap Sample.manager.
Proof.
  split; [exact scene_run|]. exact (run_keeps_registry _ _ _ scene_run).
Defined.

Lemma stop_between_actions_clears_witness :
  wellFormed Sample.manager
  /\ _updatingCamera Sample.manager = false
  /\ run Sample.actions Sample.manager = Some Scene.played
  /\ _updatingCamera Scene.played = false
  /\ wellFormed Scene.played
  /\ stopClears Scene.played.
Proof.
  split; [exact scene_wellFormed|]. split; [reflexivity|].
  split; [exact scene_run|].
  exact (stop_between_actions_clears _ _ _ scene_wellFormed eq_refl scene_run).
Defined.

(** The frame after the move: one update for the queued zoom. *)
Lemma flush_updates_once_witness :
  _applyChanges Scene.moved = Some Scene.flushed
  /\ _changes Scene.flushed = []
  /\ countCalls isUpdate (calls (_map Scene.flushed))
     = (countCalls isUpdate (calls (_map Scene.moved))
        + if hasChange (combinedResult (_changes Scene.moved)) then 1 else 0)%nat.
Proof.
  split; [exact scene_flush|].
  destruct (flush_updates_once _ _ scene_flush) as (Hq & _ & Hu & _).
  split; [exact Hq|exact Hu].
Defined.


Lemma inertia_recorded_unless_suppressed_witness :
  _applyChanges Scene.moved = Some Scene.flushed
  /\ (_inertia Scene.flushed
      = Inertia.record (now (_map Scene.moved))
          (combinedResult (_changes Scene.moved)) (_inertia Scene.moved)
      \/ _inertia Scene.flushed
         = (Inertia._onMoveEnd (inertiaOptions (_map Scene.moved))
              (now (_map Scene.moved))
              (Inertia.record (now (_map Scene.moved))
                 (combinedResult (_changes Scene.moved))
                 (_inertia Scene.moved))).2).
Proof.
  split; [exact scene_flush|].
  exact (inertia_recorded_unless_suppressed _ _ scene_flush).
Defined.

(** The zoom with a pan by (5, 0) and a null pinch anchor: the location
    that was under the centre less the pan is under the centre. *)
Lemma anchor_falls_back_to_centre_witness :
  (pinchAround Scene.pinchless = Null
   \/ (pinchAround Scene.pinchless = Undefined
       /\ (around Scene.pinchless = Undefined \/ around Scene.pinchless = Null)))
  /\ _updateMapTransform Scene.pinchless [] ∅ Sample.zoomingManager
     = Some Scene.recentred
  /\ pointLocation (transform (_map Scene.recentred)) (Point.mk 400 300)
     = pointLocation (transform (_map Sample.zoomingManager))
         (Point.sub (Point.mk 400 300) (Point.mk 5 0)).
Proof.
  assert (Hrun :
    _updateMapTransform Scene.pinchless [] ∅ Sample.zoomingManager
    = Some Scene.recentred) by (vm_compute; reflexivity).
  split; [left; reflexivity|]. split; [exact Hrun|].
  exact (anchor_falls_back_to_centre Scene.pinchless [] ∅ Sample.zoomingManager _
           translation_inverse (or_introl eq_refl) Hrun).
Defined.

(** A key press, for which the handler has no method. *)
Lemma idle_dispatch_changes_nothing_witness :
  _updatingCamera Sample.manager = false
  /\ _previousActiveHandlers Sample.manager = ∅
  /\ activeOf (Sample.mouse "keydown" 0) (Some "keydown") Sample.manager = ∅
  /\ _processInputEvent (Sample.mouse "keydown" 0) (Some "keydown") Sample.manager
     = Some
         (set_handlers
            (dispatchOf (Sample.mouse "keydown" 0) (Some "keydown")
               Sample.manager).1 Sample.manager).
Proof.
  assert (Hnone :
    activeOf (Sample.mouse "keydown" 0) (Some "keydown") Sample.manager = ∅)
    by (vm_compute; reflexivity).
  split; [reflexivity|]. split; [reflexivity|]. split; [exact Hnone|].
  exact (idle_dispatch_changes_nothing _ _ Sample.manager eq_refl eq_refl Hnone).
Defined.

(** The zoom started by the handler held down stays in progress. *)
Lemma no_stale_category_witness :
  _fireEvents [(zoom, mkEventData "scrollZoom" None)] ∅ Scene.held
  = Some Scene.zoomStarted
  /\ Eip.get zoom (_eventsInProgress Scene.zoomStarted)
     = Some (mkEventData "scrollZoom" None)
  /\ exists h,
       _handlersById (_handlers Scene.zoomStarted) "scrollZoom" = Some h
       /\ isActive h = true.
Proof.
  assert (Hrun :
    _fireEvents [(zoom, mkEventData "scrollZoom" None)] ∅ Scene.held
    = Some Scene.zoomStarted) by (vm_compute; reflexivity).
  split; [exact Hrun|]. split; [reflexivity|].
  exact (no_stale_category _ _ _ _ zoom (mkEventData "scrollZoom" None) Hrun
           eq_refl).
Defined.

Lemma inactive_manager_has_no_gesture_witness :
  _fireEvents [] ∅ Sample.zoomingManager = Some Scene.zoomEnded
  /\ Manager.isActive Scene.zoomEnded = false
  /\ _eventsInProgress Scene.zoomEnded = []
  /\ Manager.isRotating Scene.zoomEnded = false.
Proof.
  assert (Hrun : _fireEvents [] ∅ Sample.zoomingManager = Some Scene.zoomEnded)
    by (vm_compute; reflexivity).
  split; [exact Hrun|]. split; [reflexivity|].
  exact (inactive_manager_has_no_gesture _ _ _ _ Hrun eq_refl).
Defined.

Lemma scene_bracketed : bracketed Sample.manager.
Proof. split; [constructor|]. intros []; reflexivity. Defined.

Lemma run_keeps_brackets_witness :
  run Sample.actions Sample.manager = Some Scene.played
  /\ bracketed Sample.manager
  /\ bracketed Scene.played.
Proof.
  split; [exact scene_run|]. split; [exact scene_bracketed|].
  exact (run_keeps_brackets _ _ _ scene_run scene_bracketed).
Defined.

(** At the end of the run the zoom has been started and not ended yet: the
    frame requested by the release is outstanding. *)
Example scene_run_brackets :
  categoryStarts zoom Scene.played = 1%nat
  /\ categoryEnds zoom Scene.played = 0%nat
  /\ isSome (Eip.get zoom (_eventsInProgress Scene.played)) = true.
Proof. vm_compute. auto. Qed.

(** Both fingers down: [touchZoom] allows [touchPan]. *)
Lemma active_together_are_allowed_witness :
  (forall h : Sample.MouseHandler, isActive (reset h) = false)
  /\ NoDup (map entryName (_handlers Scene.twoFingers))
  /\ _handlers Scene.twoFingers = [Scene.touchPan] ++ Scene.touchZoom :: []
  /\ entryName Scene.touchZoom
     ∈ activeOf (Sample.mouse "mousemove" 4) (Some "mousemove") Scene.twoFingers
  /\ "touchPan"
     ∈ activeOf (Sample.mouse "mousemove" 4) (Some "mousemove") Scene.twoFingers
  /\ "touchPan" ∈ map entryName [Scene.touchPan]
  /\ exists allow, allowed Scene.touchZoom = Some allow /\ "touchPan" ∈ allow.
Proof.
  assert (Hreset : forall h : Sample.MouseHandler, isActive (reset h) = false)
    by (intros h; reflexivity).
  assert (Hnodup : NoDup (map entryName (_handlers Scene.twoFingers))).
  { apply (bool_decide_unpack _). vm_compute. exact I. }
  assert (Hzoom :
    entryName Scene.touchZoom
    ∈ activeOf (Sample.mouse "mousemove" 4) (Some "mousemove") Scene.twoFingers).
  { apply (bool_decide_unpack _). vm_compute. exact I. }
  assert (Hpan :
    "touchPan"
    ∈ activeOf (Sample.mouse "mousemove" 4) (Some "mousemove") Scene.twoFingers).
  { apply (bool_decide_unpack _). vm_compute. exact I. }
  assert (Hpre : "touchPan" ∈ map entryName [Scene.touchPan]).
  { apply (bool_decide_unpack _). vm_compute. exact I. }
  split; [exact Hreset|]. split; [exact Hnodup|]. split; [reflexivity|].
  split; [exact Hzoom|]. split; [exact Hpan|]. split; [exact Hpre|].
  exact (active_together_are_allowed _ _ Scene.twoFingers [Scene.touchPan] []
           Scene.touchZoom "touchPan" Hreset Hnodup eq_refl Hzoom Hpan Hpre).
Defined.

Lemma scene_serves : servesOutstanding Sample.actions Sample.manager.
Proof.
  vm_compute. repeat split. constructor.
Defined.

Lemma owner_lookup_never_fails_witness :
  wellFormed Sample.manager
  /\ servesOutstanding Sample.actions Sample.manager
  /\ exists st', run Sample.actions Sample.manager = Some st' /\ wellFormed st'.
Proof.
  split; [exact scene_wellFormed|]. split; [exact scene_serves|].
  exact (owner_lookup_never_fails _ _ scene_wellFormed scene_serves).
Defined.
